(** * VectorDBBench custom dataset preparation: interleave, merge, shuffle, balance

    A shallow embedding of the scripts under [scripts/custom_dataset_prep]:

    - [process_data.py]               (module [ProcessData]: the Interleaver;
                                       module [ProcessDataLoad]: the grouping
                                       of the input files by account),
    - [merge_partitions.py]           (module [MergePartitions]: the Streaming
                                       Merger and the Shuffler),
    - [balance_partitions.py]         (module [BalancePartitions]: the Balancer),
    - [filter_incomplete_queries.py]  (module [FilterIncompleteQueries]: [main];
                                       module [QueryStruct]: [remove_nulls]
                                       and [extract_account_id]).

    Python integers are [Z]; row counts ([len]) are [nat] and enter integer
    arithmetic through [Z.of_nat].  A data frame is the list of its rows.
    Every script runs in a state-and-exception monad over its own world (the
    files it reads and writes and the lines it prints), so that a Python
    exception that escapes a function is a value of the model. *)

From Stdlib Require Import ZArith String Ascii.
From stdpp Require Import gmap strings list fin_maps sorting pretty.

Open Scope Z_scope.

(** ** Rows and data frames *)

(** One row of the training schema ([train_schema] of merge_partitions.py).
    The embedding is kept as the list of its components' bit patterns: no
    script looks inside it. *)
Record Document := mkDocument {
  doc_id : string;
  emb : list Z;
  tenant : string;
  account_id : Z;
  workspace_id : Z;
  ticket_id : Z;
  ticket_type : string;
  ticket_status : string;
  catalog_item_ids : list Z;
  created_at : string
}.

#[global] Instance Document_eq_dec : EqDecision Document.
Proof. solve_decision. Defined.

Abbreviation DataFrame := (list Document).

(** [len(df)] as a Python integer. *)
Definition height (df : DataFrame) : Z := Z.of_nat (length df).

(** [df.slice(offset, length)] for a non-negative offset and length: the rows
    [offset, offset + length), cut at the end of the frame.  (Polars counts a
    negative offset from the end; the scripts never pass one: the Interleaver
    by [slice_arguments_nonneg], the Balancer because its cursor starts at 0
    and only advances and it slices under the guard [docs_needed > 0].) *)
Definition slice (df : DataFrame) (offset length : Z) : DataFrame :=
  take (Z.to_nat length) (drop (Z.to_nat offset) df).

(** [df.head(n)] and [df.tail(n)] for [n >= 0]. *)
Definition head (df : DataFrame) (n : Z) : DataFrame := take (Z.to_nat n) df.
Definition tail (df : DataFrame) (n : Z) : DataFrame :=
  drop (length df - Z.to_nat n)%nat df.

(** [range(n)] and [range(a, b)]. *)
Definition range (n : Z) : list Z := Z.of_nat <$> seq 0 (Z.to_nat n).
Definition range_from (a b : Z) : list Z := (λ i, a + Z.of_nat i) <$> seq 0 (Z.to_nat (b - a)).

(** Python compares [str] by code point, which on UTF-8 text is the byte
    order of [String.leb]. *)
Definition str_le (a b : string) : Prop := String.leb a b = true.

#[global] Instance str_le_dec a b : Decision (str_le a b).
Proof. unfold str_le. apply _. Defined.

(** The identifiers of a frame, with multiplicity. *)
Definition ids (df : DataFrame) : list string := doc_id <$> df.

(** ** Exceptions and the script monad *)

Inductive exn :=
| ZeroDivisionError
| KeyError (key : string)
| ValueError (msg : string)
| FileNotFoundError (partition : Z)
| OSError (partition : Z)
| SystemExit (code : Z).

#[global] Instance exn_eq_dec : EqDecision exn.
Proof. solve_decision. Defined.

Inductive outcome (A : Type) :=
| Returns (a : A)
| Raises (e : exn).
Arguments Returns {A} a.
Arguments Raises {A} e.

(** A statement of a script: it starts in a world, ends in a world, and either
    returns a value or raises. *)
Definition prog (W A : Type) : Type := W → outcome A * W.

Section monad.
Context {W : Type}.

Definition ret {A} (a : A) : prog W A := λ w, (Returns a, w).

Definition bind {A B} (c : prog W A) (k : A → prog W B) : prog W B :=
  λ w, match c w with
       | (Returns a, w') => k a w'
       | (Raises e, w') => (Raises e, w')
       end.

Definition raise {A} (e : exn) : prog W A := λ w, (Raises e, w).

(** [try: c  except Exception as e: h e].  [SystemExit] is not an
    [Exception] and passes through. *)
Definition try_except {A} (c : prog W A) (h : exn → prog W A) : prog W A :=
  λ w, match c w with
       | (Returns a, w') => (Returns a, w')
       | (Raises (SystemExit n), w') => (Raises (SystemExit n), w')
       | (Raises e, w') => h e w'
       end.

Definition gets {A} (f : W → A) : prog W A := λ w, (Returns (f w), w).
Definition modify (f : W → W) : prog W unit := λ w, (Returns tt, f w).

(** [for x in xs: s = body x s], the loop-carried variables being [s]. *)
Fixpoint for_each {A S} (xs : list A) (body : A → S → prog W S) (s : S) : prog W S :=
  match xs with
  | [] => ret s
  | x :: xs' => bind (body x s) (for_each xs' body)
  end.

(** [d[k]] on a dictionary. *)
Definition getitem {V} (d : gmap string V) (k : string) : prog W V :=
  match d !! k with
  | Some v => ret v
  | None => raise (KeyError k)
  end.

(** [pl.concat(frames)]: polars refuses an empty list of frames
    ([ValueError: cannot concat empty list]). *)
Definition concat (frames : list DataFrame) : prog W DataFrame :=
  match frames with
  | [] => raise (ValueError "cannot concat empty list")
  | _ => ret (mjoin frames)
  end.
End monad.

#[global] Instance prog_mret {W} : MRet (prog W) := λ A, ret.
#[global] Instance prog_mbind {W} : MBind (prog W) := λ A B k c, bind c k.


(** ** The Interleaver: process_data.py *)

Module ProcessData.

(** Lines printed by [process_data] from the chunk-size step on. *)
Inductive message :=
| StartingRoundRobin (num_shards rounds_per_shard : Z)
| BuildingFile (file_idx : Z)
| WarningFileEmpty (file_idx : Z)
| Saved (file_idx : Z) (rows : Z)
| ProcessingComplete (created_files : list Z).

(** The output folder, [train_part_{file_idx}.parquet] keyed by [file_idx],
    and standard output. *)
Record world := mkWorld {
  out_dir : gmap Z DataFrame;
  stdout : list message
}.

Definition print (m : message) : prog world unit :=
  modify (λ w, mkWorld (out_dir w) (stdout w ++ [m])).

Definition write_parquet (file_idx : Z) (df : DataFrame) : prog world unit :=
  modify (λ w, mkWorld (<[file_idx := df]> (out_dir w)) (stdout w)).

(** [sorted(keys)]. *)
Definition sorted (keys : list string) : list string := merge_sort str_le keys.

(** [math.ceil(a / b)] on integers.  Python divides in floating point; the
    quotient is exact, and so is its ceiling, for the row counts a machine
    can hold (below 2^53). *)
Definition ceil_div {W} (a b : Z) : prog W Z :=
  if decide (b = 0) then raise ZeroDivisionError else mret (- ((- a) / b)).

(** The state of [process_data] when it reaches step 2 (line 98) is given by
    [loaded]: its keys are those of [files_by_account]; an account is mapped
    to [Some df] when [data_map] holds its deduplicated frame [df], and to
    [None] when none of its files could be read (it was skipped by the load
    loop and is absent from [data_map]).  The function has returned before
    (line 38) when it found no file at all. *)
Definition files_by_account_keys (loaded : gmap string (option DataFrame)) : list string :=
  (map_to_list loaded).*1.

Definition data_map_of (loaded : gmap string (option DataFrame)) : gmap string DataFrame :=
  omap (λ o, o) loaded.

(** Step 2, lines 98-106.  The order in which the dictionary is walked does
    not show in the result: every key is written once, and the division
    raises for every account or for none. *)
Definition chunk_sizes_of (data_map : gmap string DataFrame) (total_micro_chunks : Z)
    : prog world (gmap string Z) :=
  for_each (map_to_list data_map)
    (λ '(acc_id, df) (chunk_sizes : gmap string Z),
       let total_rows := height df in
       size ← ceil_div total_rows total_micro_chunks;
       mret (<[acc_id := size]> chunk_sizes))
    ∅.

(** Lines 117-130: the buffer of one output file. *)
Definition build_file_buffer (data_map : gmap string DataFrame) (chunk_sizes : gmap string Z)
    (sorted_account_ids : list string) (rounds_per_shard file_idx : Z)
    : prog world (list DataFrame) :=
  for_each (range rounds_per_shard)
    (λ round_idx (file_buffer : list DataFrame),
       let global_chunk_idx := file_idx * rounds_per_shard + round_idx in
       for_each sorted_account_ids
         (λ acc_id (file_buffer : list DataFrame),
            df ← getitem data_map acc_id;
            c_size ← getitem chunk_sizes acc_id;
            let start := global_chunk_idx * c_size in
            let chunk := slice df start c_size in
            mret (if decide (0 < height chunk) then file_buffer ++ [chunk] else file_buffer))
         file_buffer)
    [].

(** Steps 2 and 3 of [process_data], lines 98-148. *)
Definition process_data (loaded : gmap string (option DataFrame))
    (num_shards rounds_per_shard : Z) : prog world unit :=
  let sorted_account_ids := sorted (files_by_account_keys loaded) in
  let data_map := data_map_of loaded in
  let total_micro_chunks := num_shards * rounds_per_shard in
  chunk_sizes ← chunk_sizes_of data_map total_micro_chunks;
  print (StartingRoundRobin num_shards rounds_per_shard);;
  created_files ←
    for_each (range num_shards)
      (λ file_idx (created_files : list Z),
         print (BuildingFile file_idx);;
         file_buffer ← build_file_buffer data_map chunk_sizes sorted_account_ids
                         rounds_per_shard file_idx;
         match file_buffer with
         | [] => print (WarningFileEmpty file_idx);; mret created_files
         | _ =>
             final_df ← concat file_buffer;
             write_parquet file_idx final_df;;
             print (Saved file_idx (height final_df));;
             mret (created_files ++ [file_idx])
         end)
      [];
  print (ProcessingComplete created_files).

(** *** The contract in the words of the specification

    [chunk_size(a) = ceil(count(a) / total_micro_chunks)]; for
    [global_chunk_index] from [0] to [total_micro_chunks - 1] and for every
    account in sorted order, the slice starting at
    [global_chunk_index * chunk_size(a)] of length [chunk_size(a)] is
    appended to the shard of index [global_chunk_index // R]. *)

Definition chunk_size (count total_micro_chunks : Z) : Z := - ((- count) / total_micro_chunks).

Definition micro_chunk (total_micro_chunks : Z) (df : DataFrame) (g : Z) : DataFrame :=
  let c := chunk_size (height df) total_micro_chunks in
  slice df (g * c) c.

Definition append_to_shard (shards : list DataFrame) (shard : Z) (chunk : DataFrame)
    : list DataFrame :=
  alter (λ rows, rows ++ chunk) (Z.to_nat shard) shards.

Definition spec_interleave (accounts : list (string * DataFrame)) (S R : Z) : list DataFrame :=
  foldl (λ shards g,
           foldl (λ shards '(_, df),
                    append_to_shard shards (g / R) (micro_chunk (S * R) df g))
                 shards accounts)
        (replicate (Z.to_nat S) []) (range (S * R)).

(** What one round contributes to a shard, and the whole of shard [f]: its
    rounds in order, each round visiting the accounts in order. *)
Definition round_chunks (total_micro_chunks : Z) (accounts : list (string * DataFrame)) (g : Z)
    : DataFrame :=
  accounts ≫= (λ '(_, df), micro_chunk total_micro_chunks df g).

Definition shard_content (accounts : list (string * DataFrame)) (S R f : Z) : DataFrame :=
  range R ≫= (λ r, round_chunks (S * R) accounts (f * R + r)).

(** The accounts in the order the Interleaver visits them. *)
Definition sorted_accounts (loaded : gmap string (option DataFrame)) : list (string * DataFrame) :=
  omap (λ a, (λ df, (a, df)) <$> data_map_of loaded !! a) (sorted (files_by_account_keys loaded)).

(** The chunk of account frame [df] at grid position [g], written out. *)
Definition grid_slice (S R : Z) (df : DataFrame) (g : Z) : DataFrame :=
  slice df (g * chunk_size (height df) (S * R)) (chunk_size (height df) (S * R)).

(** What a run from world [w] to world [w'] has to have done to output
    file [f]: the file holds the shard the grid walk of the specification
    builds, which is the rounds [f * R .. f * R + R - 1] in order, each
    visiting the accounts in order; a shard without rows is not written, so
    that whatever was at its path stays. *)
Definition shard_written (accounts : list (string * DataFrame)) (S R : Z)
    (w w' : world) (f : Z) : Prop :=
  ∃ shard,
    spec_interleave accounts S R !! Z.to_nat f = Some shard
    ∧ shard = range R ≫= (λ r, accounts ≫= (λ '(_, df), grid_slice S R df (f * R + r)))
    ∧ out_dir w' !! f = if decide (shard = []) then out_dir w !! f else Some shard.

(** Names for the inner loop of [build_file_buffer], used to state what it
    computes: the chunk cut for one account in one round (nothing for an
    account without a frame), and the guarded append of line 129. *)
Definition visit (total : Z) (data_map : gmap string DataFrame) (g : Z) (acc_id : string)
    : DataFrame :=
  match data_map !! acc_id with
  | Some df => micro_chunk total df g
  | None => []
  end.

Definition keep_nonempty (file_buffer : list DataFrame) (chunk : DataFrame) : list DataFrame :=
  if decide (0 < height chunk) then file_buffer ++ [chunk] else file_buffer.

End ProcessData.

(** ** The Streaming Merger and the Shuffler: merge_partitions.py *)

Module MergePartitions.

Definition NUM_PARTITIONS : Z := 10.
Definition BATCH_SIZE : Z := 5000.
Definition SLEEP_AFTER_MERGE : Z := 10.
Definition SLEEP_AFTER_SHUFFLE : Z := 5.

(** A per-account partition file as [pq.ParquetFile] presents it: either all
    its rows stream out, or the reader raises after the rows of
    [readable_prefix] (at once, when opening fails). *)
Inductive part_file :=
| Readable (rows : DataFrame)
| Corrupt (readable_prefix : DataFrame).

(** An entry of [INPUT_BASE_DIR].  The file
    [{prefix}_part_{idx:02d}.parquet] of a directory is keyed by
    [(prefix, idx)]. *)
Record dir_entry := mkDir {
  name : string;
  is_dir : bool;
  files : gmap (string * Z) part_file
}.

Inductive event :=
| MergeStarting (partition_idx : Z)
| WarningMissing (account_dir account_id : string) (partition_idx : Z)
| ErrorReading (account_dir account_id : string) (partition_idx : Z) (e : exn)
| Processed (accounts_processed total_docs : Z)
| MergeComplete (partition_idx total_docs accounts_processed : Z)
| ShuffleStarting (path : Z)
| LoadedRows (path rows : Z)
| ShuffledRows (path : Z)
| WrittenBack (path : Z)
| ErrorDuringShuffle (path : Z) (e : exn)
| Sleeping (seconds : Z)
| ProcessingSingle (partition_idx : Z)
| ProcessingAll
| FoundAccountDirs (n : Z)
| ErrorNoAccountDirs
| PartitionHeader (partition_idx : Z)
| DocCount (partition_idx count : Z)
| Total (total_docs : Z)
| MinMax (min_count max_count : Z)
| Complete.

#[global] Instance event_eq_dec : EqDecision event.
Proof. solve_decision. Defined.

(** The input folder, the output folder ([shuffle_train_{idx:02d}.parquet]
    keyed by [idx]), the output paths that refuse a write, the path of the
    [ParquetWriter] that is open, and the log. *)
Record world := mkWorld {
  base_dir : list dir_entry;
  out_dir : gmap Z DataFrame;
  read_only : gset Z;
  writer : option Z;
  trace : list event
}.

Definition log (e : event) : prog world unit :=
  modify (λ w, mkWorld (base_dir w) (out_dir w) (read_only w) (writer w) (trace w ++ [e])).

(** [time.sleep(n)] after the line that announces it. *)
Definition sleep (seconds : Z) : prog world unit := log (Sleeping seconds).

Definition set_out_dir (d : gmap Z DataFrame) (w : world) : world :=
  mkWorld (base_dir w) d (read_only w) (writer w) (trace w).
Definition set_writer (h : option Z) (w : world) : world :=
  mkWorld (base_dir w) (out_dir w) (read_only w) h (trace w).

(** [s.split(sep)]. *)
Fixpoint split (sep : ascii) (s : string) : list string :=
  match s with
  | EmptyString => [EmptyString]
  | String c s' =>
      if decide (c = sep) then EmptyString :: split sep s'
      else match split sep s' with
           | h :: t => String c h :: t
           | [] => [String c EmptyString]
           end
  end.

(** The account directories among the entries of the input folder, sorted
    (paths compare as their names do). *)
Definition account_dirs_of (entries : list dir_entry) : list dir_entry :=
  merge_sort (λ a b, str_le (name a) (name b))
    (filter (λ d, is_dir d = true ∧ String.prefix "account_" (name d) = true) entries).

Definition get_account_dirs : prog world (list dir_entry) :=
  entries ← gets base_dir;
  mret (account_dirs_of entries).

Definition extract_account_id (account_dir : dir_entry) : string :=
  let parts := split "_"%char (name account_dir) in
  match parts with
  | _ :: id :: _ => id
  | _ => name account_dir
  end.

(** [pf.iter_batches(batch_size)]: the rows in order, [batch_size] at a
    time. *)
Fixpoint batches_of (fuel : nat) (batch_size : nat) (rows : DataFrame) : list DataFrame :=
  match fuel, rows with
  | O, _ | _, [] => []
  | Datatypes.S fuel', _ =>
      take batch_size rows :: batches_of fuel' batch_size (drop batch_size rows)
  end.

Definition iter_batches (batch_size : Z) (rows : DataFrame) : list DataFrame :=
  batches_of (length rows) (Z.to_nat batch_size) rows.

(** [pq.ParquetWriter(output_path, train_schema)]. *)
Definition ParquetWriter (output_path : Z) : prog world unit :=
  ro ← gets read_only;
  if decide (output_path ∈ ro) then raise (OSError output_path)
  else modify (λ w, set_writer (Some output_path) (set_out_dir (<[output_path := []]> (out_dir w)) w)).

(** [writer.write_table(table)]. *)
Definition write_table (table : DataFrame) : prog world unit :=
  modify (λ w, match writer w with
               | Some path => set_out_dir (alter (λ rows, rows ++ table) path (out_dir w)) w
               | None => w
               end).

(** Lines 77-82: the body of the loop over the batches of one file. *)
Definition write_batch (output_path : Z) (batch : DataFrame) (file_docs : Z) : prog world Z :=
  h ← gets writer;
  (if h is None then ParquetWriter output_path else mret ());;
  write_table batch;;
  mret (file_docs + height batch).

(** Lines 73-82: stream one partition file into the writer. *)
Definition stream_file (pf : part_file) (output_path : Z) : prog world Z :=
  let '(rows, intact) := match pf with
                         | Readable rows => (rows, true)
                         | Corrupt rows => (rows, false)
                         end in
  file_docs ← for_each (iter_batches BATCH_SIZE rows) (write_batch output_path) 0;
  if intact then mret file_docs else raise (ValueError "corrupt parquet file").

(** Lines 63-92: the body of the loop over the account directories. *)
Definition merge_account (partition_idx output_path : Z) (account_dir : dir_entry)
    (counters : Z * Z) : prog world (Z * Z) :=
  let '(total_docs, accounts_processed) := counters in
  let account_id := extract_account_id account_dir in
  match files account_dir !! (account_id, partition_idx) with
  | None =>
      log (WarningMissing (name account_dir) account_id partition_idx);;
      mret (total_docs, accounts_processed)
  | Some pf =>
      try_except
        (file_docs ← stream_file pf output_path;
         let total_docs := total_docs + file_docs in
         let accounts_processed := accounts_processed + 1 in
         (if decide (accounts_processed `mod` 10 = 0)
          then log (Processed accounts_processed total_docs) else mret ());;
         mret (total_docs, accounts_processed))
        (λ e,
           log (ErrorReading (name account_dir) account_id partition_idx e);;
           mret (total_docs, accounts_processed))
  end.

Definition merge_partition (partition_idx : Z) (account_dirs : list dir_entry)
    (output_path : Z) : prog world Z :=
  log (MergeStarting partition_idx);;
  modify (set_writer None);;
  '(total_docs, accounts_processed) ←
    for_each account_dirs (merge_account partition_idx output_path) (0, 0);
  modify (set_writer None);;
  log (MergeComplete partition_idx total_docs accounts_processed);;
  mret total_docs.

(** [df.sample(fraction=1.0, shuffle=True, seed)] draws without replacement:
    polars lists the row indices [0 .. n-1], shuffles the list in place with
    a generator seeded by [seed], and gathers the rows in that order.  The
    in-place shuffle walks [i] from [n-1] down to [1] and swaps positions
    [i] and [j], [j] being the generator's next draw below [i + 1].  The
    draws are a parameter: [gen_index seed k bound] is what the generator
    returns at its [k]-th call, reduced below [bound] as the library
    guarantees. *)
Section shuffler.
Variable gen_index : Z → nat → nat → nat.

Definition swap (i j : nat) (idx : list nat) : list nat :=
  match idx !! i, idx !! j with
  | Some x, Some y => <[i := y]> (<[j := x]> idx)
  | _, _ => idx
  end.

Fixpoint shuffle_from (seed : Z) (call : nat) (i : nat) (idx : list nat) : list nat :=
  match i with
  | O => idx
  | Datatypes.S i' =>
      shuffle_from seed (Datatypes.S call) i'
        (swap i (gen_index seed call (i + 1) `mod` (i + 1))%nat idx)
  end.

Definition sample (df : DataFrame) (seed : Z) : DataFrame :=
  let n := length df in
  omap (λ i, df !! i) (shuffle_from seed 0 (n - 1) (seq 0 n)).

Definition read_parquet (path : Z) : prog world DataFrame :=
  d ← gets out_dir;
  match d !! path with
  | Some df => mret df
  | None => raise (FileNotFoundError path)
  end.

Definition write_parquet (path : Z) (df : DataFrame) : prog world unit :=
  ro ← gets read_only;
  if decide (path ∈ ro) then raise (OSError path)
  else modify (λ w, set_out_dir (<[path := df]> (out_dir w)) w).

Definition shuffle_file (file_path : Z) : prog world Z :=
  log (ShuffleStarting file_path);;
  try_except
    (df ← read_parquet file_path;
     let original_count := height df in
     log (LoadedRows file_path original_count);;
     let df := sample df 42 in
     log (ShuffledRows file_path);;
     write_parquet file_path df;;
     log (WrittenBack file_path);;
     mret original_count)
    (λ e, log (ErrorDuringShuffle file_path e);; mret 0).

(** [min_count] starts at [float('inf')], here [None]. *)
Definition summary_step (partition_counts : gmap Z Z) (idx : Z)
    (acc : Z * option Z * Z) : prog world (Z * option Z * Z) :=
  let '(total_docs, min_count, max_count) := acc in
  let count := default 0 (partition_counts !! idx) in
  let total_docs := total_docs + count in
  let min_count :=
    if decide (0 < count)
    then Some (match min_count with Some m => Z.min m count | None => count end)
    else min_count in
  let max_count := Z.max max_count count in
  log (DocCount idx count);;
  mret (total_docs, min_count, max_count).

(** Lines 164-186: the body of the loop over the partitions. *)
Definition process_partition (account_dirs : list dir_entry) (partition_idx : Z)
    (partition_counts : gmap Z Z) : prog world (gmap Z Z) :=
  log (PartitionHeader partition_idx);;
  let output_path := partition_idx in
  doc_count ← merge_partition partition_idx account_dirs output_path;
  let partition_counts := <[partition_idx := doc_count]> partition_counts in
  sleep SLEEP_AFTER_MERGE;;
  shuffle_file output_path;;
  (if decide (partition_idx < NUM_PARTITIONS - 1)
   then sleep SLEEP_AFTER_SHUFFLE else mret ());;
  mret partition_counts.

(** [argv1] is [int(sys.argv[1])] when an argument is given. *)
Definition main (argv1 : option Z) : prog world unit :=
  partitions_to_process ←
    match argv1 with
    | Some partition_idx => log (ProcessingSingle partition_idx);; mret [partition_idx]
    | None => log ProcessingAll;; mret (range NUM_PARTITIONS)
    end;
  account_dirs ← get_account_dirs;
  log (FoundAccountDirs (Z.of_nat (length account_dirs)));;
  (if decide (length account_dirs = 0%nat)
   then log ErrorNoAccountDirs;; raise (SystemExit 1) else mret ());;
  partition_counts ← for_each partitions_to_process (process_partition account_dirs) ∅;
  '(total_docs, min_count, max_count) ←
    for_each partitions_to_process (summary_step partition_counts) (0, None, 0);
  log (Total total_docs);;
  (match min_count with
   | Some m =>
       if decide ((1 < length partitions_to_process)%nat ∧ 0 < m)
       then log (MinMax m max_count) else mret ()
   | None => mret ()
   end);;
  log Complete.
End shuffler.

(** The partition files a merge of partition [partition_idx] looks for and
    does not find, as [WarningMissing] reports them, and the warnings of a
    stretch of the log. *)
Definition missing_files (partition_idx : Z) (account_dirs : list dir_entry)
    : list (string * string * Z) :=
  omap (λ d, match files d !! (extract_account_id d, partition_idx) with
             | None => Some (name d, extract_account_id d, partition_idx)
             | Some _ => None
             end) account_dirs.

Definition warnings (t : list event) : list (string * string * Z) :=
  omap (λ e, match e with
             | WarningMissing d a i => Some (d, a, i)
             | _ => None
             end) t.

(** The rows of the partition file of one account directory when the file is
    found and read to its end, and the number of such files. *)
Definition rows_read (partition_idx : Z) (d : dir_entry) : option DataFrame :=
  match files d !! (extract_account_id d, partition_idx) with
  | Some (Readable rows) => Some rows
  | _ => None
  end.

Definition docs_read (partition_idx : Z) (account_dirs : list dir_entry) : Z :=
  foldr Z.add 0 ((λ d, height (default [] (rows_read partition_idx d))) <$> account_dirs).

Definition files_read (partition_idx : Z) (account_dirs : list dir_entry) : Z :=
  Z.of_nat (length (omap (rows_read partition_idx) account_dirs)).

(** What a statement of the Merger leaves alone: the input folder and the
    set of paths that refuse a write. *)
Definition same_env (w w' : world) : Prop :=
  base_dir w' = base_dir w ∧ read_only w' = read_only w.

(** Where the stages begin and end in the log. *)
Inductive stage_mark :=
| MergeBegins (partition_idx : Z)
| MergeEnds (partition_idx : Z)
| ShuffleBegins (path : Z)
| ShuffleEnds (path : Z).

#[global] Instance stage_mark_eq_dec : EqDecision stage_mark.
Proof. solve_decision. Defined.

Definition mark_of (e : event) : option stage_mark :=
  match e with
  | MergeStarting i => Some (MergeBegins i)
  | MergeComplete i _ _ => Some (MergeEnds i)
  | ShuffleStarting p => Some (ShuffleBegins p)
  | WrittenBack p | ErrorDuringShuffle p _ => Some (ShuffleEnds p)
  | _ => None
  end.

Definition marks (t : list event) : list stage_mark := omap mark_of t.

(** Whole-stage ordering: every merge has ended before any shuffle begins. *)
Definition merge_all_then_shuffle_all (ms : list stage_mark) : Prop :=
  ∀ a b i j, ms !! a = Some (ShuffleBegins i) → ms !! b = Some (MergeEnds j) → (b < a)%nat.

(** Per-shard pipelining: the shards one after the other, each merged to the
    end and then shuffled. *)
Definition shard_by_shard (partitions : list Z) : list stage_mark :=
  partitions ≫= (λ i, [MergeBegins i; MergeEnds i; ShuffleBegins i; ShuffleEnds i]).

(** The partitions a run goes through. *)
Definition partitions_of (argv1 : option Z) : list Z :=
  match argv1 with
  | Some partition_idx => [partition_idx]
  | None => range NUM_PARTITIONS
  end.

End MergePartitions.


(** ** The Balancer: balance_partitions.py *)

Module BalancePartitions.

Definition NUM_PARTITIONS : Z := 10.
Definition SLEEP_AFTER_FILE : Z := 5.

Inductive event :=
| ProcessingPartition (partition_idx : Z)
| ReadDocs (docs : Z)
| Keeping (kept excess : Z)
| WrittenDocs (partition_idx docs : Z)
| NoExcessCopied (partition_idx docs : Z)
| Sleeping (seconds : Z)
| CombiningExcess
| TotalExcess (docs : Z)
| Adding (docs : Z)
| NoExcessToAdd (partition_idx docs : Z)
| PartitionCount (partition_idx count : Z)
| Summary (total_docs : Z) (min_count : option Z) (max_count : Z)
| BalancingComplete.

(** [INPUT_DIR] and [OUTPUT_DIR], each holding
    [shuffle_train_{idx:02d}.parquet] keyed by [idx], and the log. *)
Record world := mkWorld {
  in_dir : gmap Z DataFrame;
  out_dir : gmap Z DataFrame;
  trace : list event
}.

Definition log (e : event) : prog world unit :=
  modify (λ w, mkWorld (in_dir w) (out_dir w) (trace w ++ [e])).

Definition sleep (seconds : Z) : prog world unit := log (Sleeping seconds).

Definition read_parquet (partition_idx : Z) : prog world DataFrame :=
  d ← gets in_dir;
  match d !! partition_idx with
  | Some df => mret df
  | None => raise (FileNotFoundError partition_idx)
  end.

Definition write_parquet (partition_idx : Z) (df : DataFrame) : prog world unit :=
  modify (λ w, mkWorld (in_dir w) (<[partition_idx := df]> (out_dir w)) (trace w)).

(** [pl.scan_parquet(output_file).select(pl.count()).collect().item()]. *)
Definition count_rows (partition_idx : Z) : prog world Z :=
  d ← gets out_dir;
  match d !! partition_idx with
  | Some df => mret (height df)
  | None => raise (FileNotFoundError partition_idx)
  end.

Section target.
(** The source fixes [TARGET_DOCS_PER_FILE = 1_000_000]; the script is
    embedded for any target [>= 0]. *)
Variable TARGET_DOCS_PER_FILE : Z.

(** Phase 1, lines 42-77: one source partition. *)
Definition collect (partition_idx : Z) (excess_dfs : list DataFrame)
    : prog world (list DataFrame) :=
  log (ProcessingPartition partition_idx);;
  df ← read_parquet partition_idx;
  let total_docs := height df in
  log (ReadDocs total_docs);;
  excess_dfs ←
    (if decide (total_docs > TARGET_DOCS_PER_FILE)
     then
       let keep_df := head df TARGET_DOCS_PER_FILE in
       let excess_df := tail df (total_docs - TARGET_DOCS_PER_FILE) in
       log (Keeping (height keep_df) (height excess_df));;
       write_parquet partition_idx keep_df;;
       log (WrittenDocs partition_idx (height keep_df));;
       mret (excess_dfs ++ [excess_df])
     else
       write_parquet partition_idx df;;
       log (NoExcessCopied partition_idx total_docs);;
       mret excess_dfs);
  sleep SLEEP_AFTER_FILE;;
  mret excess_dfs.

(** Phase 2, lines 96-142: one sink partition. *)
Definition distribute (excess_combined : DataFrame) (total_excess : Z)
    (partition_idx : Z) (excess_offset : Z) : prog world Z :=
  log (ProcessingPartition partition_idx);;
  df ← read_parquet partition_idx;
  let current_docs := height df in
  log (ReadDocs current_docs);;
  let docs_needed :=
    if decide (partition_idx < 9) then TARGET_DOCS_PER_FILE - current_docs
    else total_excess - excess_offset in
  excess_offset ←
    (if decide (docs_needed > 0 ∧ excess_offset < total_excess)
     then
       let docs_to_add := slice excess_combined excess_offset docs_needed in
       let excess_offset := excess_offset + height docs_to_add in
       log (Adding (height docs_to_add));;
       combined_df ← concat [df; docs_to_add];
       write_parquet partition_idx combined_df;;
       log (WrittenDocs partition_idx (height combined_df));;
       mret excess_offset
     else
       write_parquet partition_idx df;;
       log (NoExcessToAdd partition_idx current_docs);;
       mret excess_offset);
  sleep SLEEP_AFTER_FILE;;
  mret excess_offset.

(** Final verification, lines 155-170; [min_count] starts at
    [float('inf')], here [None]. *)
Definition verify (partition_idx : Z) (acc : Z * option Z * Z)
    : prog world (Z * option Z * Z) :=
  let '(total_docs, min_count, max_count) := acc in
  count ← count_rows partition_idx;
  let total_docs := total_docs + count in
  let min_count := Some (match min_count with Some m => Z.min m count | None => count end) in
  let max_count := Z.max max_count count in
  log (PartitionCount partition_idx count);;
  mret (total_docs, min_count, max_count).

Definition main : prog world unit :=
  excess_dfs ← for_each (range 5) collect [];
  log CombiningExcess;;
  excess_combined ← concat excess_dfs;
  let total_excess := height excess_combined in
  log (TotalExcess total_excess);;
  _ ← for_each (range_from 5 NUM_PARTITIONS) (distribute excess_combined total_excess) 0;
  '(total_docs, min_count, max_count) ← for_each (range NUM_PARTITIONS) verify (0, None, 0);
  log (Summary total_docs min_count max_count);;
  log BalancingComplete.
End target.

Definition TARGET_DOCS_PER_FILE : Z := 1000000.

(** Vocabulary of the specification: the source shards, the sink shards and
    the absorber; the number of rows of a shard file of a folder. *)
Definition source_shards : list Z := range 5.
Definition sink_shards : list Z := range_from 5 NUM_PARTITIONS.
Definition absorber : Z := 9.

Definition count (dir : gmap Z DataFrame) (partition_idx : Z) : Z :=
  height (default [] (dir !! partition_idx)).

Definition all_rows (dir : gmap Z DataFrame) : DataFrame :=
  range NUM_PARTITIONS ≫= (λ i, default [] (dir !! i)).

Definition total_count (dir : gmap Z DataFrame) : Z :=
  foldr Z.add 0 (count dir <$> range NUM_PARTITIONS).

(** The excess frames Collect gathers from the shards [idxs] of [dir], in
    shard order, and the ExcessPool they form. *)
Definition excess_frames (T : Z) (dir : gmap Z DataFrame) (idxs : list Z) : list DataFrame :=
  idxs ≫= (λ i, match dir !! i with
                | Some df => if decide (height df > T) then [drop (Z.to_nat T) df] else []
                | None => []
                end).

Definition excess_pool (T : Z) (dir : gmap Z DataFrame) : DataFrame :=
  mjoin (excess_frames T dir source_shards).

(** The rows Distribute hands to sink [i] holding [df] when the cursor is at
    [offset], and the rows it hands to each sink of a list in turn. *)
Definition received (T : Z) (pool : DataFrame) (i offset : Z) (df : DataFrame) : DataFrame :=
  let docs_needed := if decide (i < 9) then T - height df else height pool - offset in
  if decide (docs_needed > 0 ∧ offset < height pool) then slice pool offset docs_needed else [].

Fixpoint shares (T : Z) (pool : DataFrame) (dir : gmap Z DataFrame) (idxs : list Z)
    (offset : Z) : list DataFrame :=
  match idxs with
  | [] => []
  | i :: idxs' =>
      let r := received T pool i offset (default [] (dir !! i)) in
      r :: shares T pool dir idxs' (offset + height r)
  end.

End BalancePartitions.

(** ** filter_incomplete_queries.py *)

Module FilterIncompleteQueries.

Section query.
(** The query column holds structs the script only hands on; the one
    function that looks inside, [extract_account_id], never raises (it
    answers ["unknown"] on any exception) and is a parameter. *)
Context {Query : Type}.
Variable extract_account_id : Query → string.

(** A row of the queries file: [id], [query]; of the neighbors file:
    [id], [neighbors] (a list or null). *)
Definition queries_table : Type := list (Z * Query).
Definition neighbors_table : Type := list (Z * option (list Z)).

Record mapping_row := mkMapping {
  new_id : Z;
  old_id : Z;
  mapped_account_id : string;
  neighbor_count : Z
}.

Inductive message :=
| ErrorQueriesNotFound
| ErrorNeighborsNotFound
| Banner (min_neighbors : Z)
| ReadingInputFiles
| RowCounts (total_queries total_neighbors : Z)
| ErrorRowCountMismatch (total_queries total_neighbors : Z)
| Filtering (min_neighbors : Z)
| KeptRemoved (kept_count removed_count : Z)
| WritingFilteredFiles
| WrittenQueries (rows : Z)
| WrittenNeighbors (rows : Z)
| WrittenMapping (rows : Z)
| SummaryReport (total_queries min_neighbors kept_count removed_count : Z).

(** The input files (absent when the path does not exist), the output
    directory and standard output. *)
Record world := mkWorld {
  queries_file : option queries_table;
  neighbors_file : option neighbors_table;
  output_dir_made : bool;
  queries_out : option queries_table;
  neighbors_out : option neighbors_table;
  mapping_out : option (list mapping_row);
  stdout : list message
}.

Definition print (m : message) : prog world unit :=
  modify (λ w, mkWorld (queries_file w) (neighbors_file w) (output_dir_made w)
                 (queries_out w) (neighbors_out w) (mapping_out w) (stdout w ++ [m])).
Definition mkdir : prog world unit :=
  modify (λ w, mkWorld (queries_file w) (neighbors_file w) true
                 (queries_out w) (neighbors_out w) (mapping_out w) (stdout w)).
Definition write_queries (t : queries_table) : prog world unit :=
  modify (λ w, mkWorld (queries_file w) (neighbors_file w) (output_dir_made w)
                 (Some t) (neighbors_out w) (mapping_out w) (stdout w)).
Definition write_neighbors (t : neighbors_table) : prog world unit :=
  modify (λ w, mkWorld (queries_file w) (neighbors_file w) (output_dir_made w)
                 (queries_out w) (Some t) (mapping_out w) (stdout w)).
Definition write_mapping (t : list mapping_row) : prog world unit :=
  modify (λ w, mkWorld (queries_file w) (neighbors_file w) (output_dir_made w)
                 (queries_out w) (neighbors_out w) (Some t) (stdout w)).

(** [a / b * 100] inside an f-string: only its exception matters here. *)
Definition percent (a b : Z) : prog world unit :=
  if decide (b = 0) then raise ZeroDivisionError else mret ().

(** Lines 142-171, the rows taken pairwise (the counts agree). *)
Definition filter_rows (min_neighbors : Z) (rows : list ((Z * Query) * (Z * option (list Z))))
    : list (Z * Query) * list (Z * option (list Z)) * list mapping_row * Z * Z :=
  foldl (λ '(filtered_queries, filtered_neighbors, id_mapping, removed_count, new_id)
           '((old_id, query), (_, neighbors)),
           let neighbor_count :=
             match neighbors with
             | Some (n :: ns) => Z.of_nat (length (n :: ns))
             | _ => 0
             end in
           if decide (neighbor_count >= min_neighbors)
           then
             let new_id := new_id + 1 in
             let account_id := extract_account_id query in
             (filtered_queries ++ [(new_id, query)],
              filtered_neighbors ++ [(new_id, neighbors)],
              id_mapping ++ [mkMapping new_id old_id account_id neighbor_count],
              removed_count, new_id)
           else (filtered_queries, filtered_neighbors, id_mapping, removed_count + 1, new_id))
        ([], [], [], 0, 0) rows.

(** [main] returns the exit status. *)
Definition main (min_neighbors : Z) : prog world Z :=
  q ← gets queries_file;
  n ← gets neighbors_file;
  match q, n with
  | None, _ => print ErrorQueriesNotFound;; mret 1
  | Some _, None => print ErrorNeighborsNotFound;; mret 1
  | Some queries_data, Some neighbors_data =>
      print (Banner min_neighbors);;
      print ReadingInputFiles;;
      let total_queries := Z.of_nat (length queries_data) in
      let total_neighbors := Z.of_nat (length neighbors_data) in
      print (RowCounts total_queries total_neighbors);;
      if decide (total_queries ≠ total_neighbors)
      then print (ErrorRowCountMismatch total_queries total_neighbors);; mret 1
      else
        print (Filtering min_neighbors);;
        let '(filtered_queries, filtered_neighbors, id_mapping, removed_count, _) :=
          filter_rows min_neighbors (zip queries_data neighbors_data) in
        let kept_count := Z.of_nat (length filtered_queries) in
        percent kept_count total_queries;;
        percent removed_count total_queries;;
        print (KeptRemoved kept_count removed_count);;
        mkdir;;
        print WritingFilteredFiles;;
        write_queries filtered_queries;;
        print (WrittenQueries kept_count);;
        write_neighbors filtered_neighbors;;
        print (WrittenNeighbors kept_count);;
        write_mapping id_mapping;;
        print (WrittenMapping kept_count);;
        percent kept_count total_queries;;
        percent removed_count total_queries;;
        print (SummaryReport total_queries min_neighbors kept_count removed_count);;
        mret 0
  end.

(** [exit(main())]: the exit status of the process; an uncaught exception
    ends it with status 1. *)
Definition exit_status (min_neighbors : Z) (w : world) : Z * world :=
  match main min_neighbors w with
  | (Returns code, w') => (code, w')
  | (Raises (SystemExit code), w') => (code, w')
  | (Raises _, w') => (1, w')
  end.

(** Nothing written between two worlds: the output directory and the three
    output files are as they were. *)
Definition outputs_untouched (w w' : world) : Prop :=
  output_dir_made w' = output_dir_made w
  ∧ queries_out w' = queries_out w
  ∧ neighbors_out w' = neighbors_out w
  ∧ mapping_out w' = mapping_out w.
End query.

End FilterIncompleteQueries.

(** Queries that are their own account identifier; four queries against
    three rows of neighbors. *)
Module FilterExample.
Import FilterIncompleteQueries.
#[local] Open Scope string_scope.

Definition account_of (q : string) : string := q.

Definition queries : list (Z * string) := [(1, "q1"); (2, "q2"); (3, "q3"); (4, "q4")].
Definition neighbors : list (Z * option (list Z)) :=
  [(1, Some [10; 11]); (2, None); (3, Some [12])].

Definition mismatched : world := mkWorld (Some queries) (Some neighbors) false None None None [].
Definition matched : world :=
  mkWorld (Some (take 3 queries)) (Some neighbors) false None None None [].
End FilterExample.

(** ** Sample inputs *)

Module SampleData.
#[local] Open Scope string_scope.

Definition doc (owner : string) (n : nat) : Document :=
  mkDocument (owner +:+ "-" +:+ pretty n) [] "t" 0 0 (Z.of_nat n) "incident" "open" []
    "2024-01-01".

Definition docs (owner : string) (count : nat) : DataFrame := doc owner <$> seq 0 count.

(** Python's [df[i:j]]. *)
Definition subseq (df : DataFrame) (i j : nat) : DataFrame := take (j - i) (drop i df).
End SampleData.

(** Two accounts, A with 25 documents and B with 15, two shards, two rounds
    per shard. *)
Module ProcessDataExample.
Import ProcessData SampleData.
#[local] Open Scope string_scope.

Definition A := docs "A" 25.
Definition B := docs "B" 15.

Definition loaded : gmap string (option DataFrame) := {[ "B" := Some B; "A" := Some A ]}.

Definition empty_world := mkWorld ∅ [].

Definition run := process_data loaded 2 2 empty_world.
Definition shard (f : Z) : option DataFrame := out_dir run.2 !! f.

Definition expected_shard_0 : DataFrame :=
  subseq A 0 7 ++ subseq B 0 4 ++ subseq A 7 14 ++ subseq B 4 8.
Definition expected_shard_1 : DataFrame :=
  subseq A 14 21 ++ subseq B 8 12 ++ subseq A 21 25 ++ subseq B 12 15.
End ProcessDataExample.

(** Ten shuffled shards for the Balancer, given by their row counts. *)
Module BalanceExample.
Import BalancePartitions SampleData.
#[local] Open Scope string_scope.

Definition shards_of (counts : list nat) : world :=
  mkWorld (list_to_map (imap (λ i n, (Z.of_nat i, docs ("shard" +:+ pretty i) n)) counts))
    ∅ [].

(** Five source shards of 12 rows, five sink shards of 7 rows. *)
Definition insufficient_excess : world := shards_of [12; 12; 12; 12; 12; 7; 7; 7; 7; 7]%nat.

(** A sink shard that is itself above the target. *)
Definition oversized_sink : world := shards_of [12; 12; 12; 12; 12; 11; 7; 7; 7; 7]%nat.

(** Ten shards that are balanced already. *)
Definition already_balanced : world := shards_of [10; 10; 10; 10; 10; 10; 10; 10; 10; 10]%nat.
End BalanceExample.

(** Three account directories, one stray file and one directory that is not
    an account; account 200 has no file for partition 3 and its file for
    partition 4 breaks after one row. *)
Module MergeExample.
Import MergePartitions SampleData.
#[local] Open Scope string_scope.

Definition account (id : string) (parts : list (Z * part_file)) : dir_entry :=
  mkDir ("account_" +:+ id +:+ "_dataset") true
    (list_to_map ((λ '(i, pf), ((id, i), pf)) <$> parts)).

Definition full (id : string) (count : nat) : list (Z * part_file) :=
  (λ i, (i, Readable (docs (id +:+ "/" +:+ pretty i) count))) <$> range NUM_PARTITIONS.

Definition base : list dir_entry :=
  [ account "300" (full "300" 2);
    mkDir "notes.txt" false ∅;
    account "100" (full "100" 3);
    mkDir "scratch" true ∅;
    account "200"
      ((λ '(i, pf), (i, if decide (i = 4) then Corrupt (docs "200/4" 1) else pf))
         <$> filter (λ p, p.1 ≠ 3) (full "200" 4)) ].

Definition start : world := mkWorld base ∅ ∅ None [].

(** The generator of the example always draws 0. *)
Definition draws (seed : Z) (call bound : nat) : nat := 0.

Definition account_dirs : list dir_entry := account_dirs_of base.

(** The same input when the output file of partition 0 is left from an
    earlier run and refuses writes. *)
Definition start_read_only : world := mkWorld base {[ 0 := docs "stale" 2 ]} {[0]} None [].
End MergeExample.

(** ** Further parts of the scripts *)

(** [c in s] for a character [c]. *)
Module Text.
Fixpoint has_char (c : ascii) (s : string) : bool :=
  match s with
  | EmptyString => false
  | String c' s' => bool_decide (c' = c) || has_char c s'
  end.
End Text.

(** Step 1 of [process_data], lines 49-58: the files found by the scan are
    grouped by account.  A path is the string [str(f)]; [os.sep] is ["/"]. *)
Module ProcessDataLoad.
Import MergePartitions.
#[local] Open Scope string_scope.

(** Lines 52-55: the loop over the parts of a path, left at the first part
    that starts with ["account_id="].  [None] is the [IndexError] of
    [p.split("=")[1]]. *)
Fixpoint scan_parts (parts : list string) (acc_id : string) : option string :=
  match parts with
  | [] => Some acc_id
  | p :: parts' =>
      if String.prefix "account_id=" p then split "=" p !! 1%nat
      else scan_parts parts' acc_id
  end.

Definition acc_id_of (f : string) : option string :=
  scan_parts (split "/" f) "unknown".

(** Lines 50-58: the body of the loop over [all_files]. *)
Definition add_file (files_by_account : gmap string (list string)) (f : string)
    : option (gmap string (list string)) :=
  acc_id ← acc_id_of f;
  let files_by_account :=
    match files_by_account !! acc_id with
    | None => <[acc_id := []]> files_by_account
    | Some _ => files_by_account
    end in
  Some (alter (λ files, (files ++ [f])%list) acc_id files_by_account).

Fixpoint group_files (all_files : list string) (files_by_account : gmap string (list string))
    : option (gmap string (list string)) :=
  match all_files with
  | [] => Some files_by_account
  | f :: all_files' => add_file files_by_account f ≫= group_files all_files'
  end.
End ProcessDataLoad.

(** What a merge leaves in the output folder. *)
Module MergeOutput.
Import MergePartitions.





End MergeOutput.

(** The rows the filter script keeps. *)
Module FilterOutcome.
Import FilterIncompleteQueries.

(** [len(neighbors) if neighbors else 0]. *)
Definition neighbor_count_of (neighbors : option (list Z)) : Z :=
  match neighbors with
  | Some (n :: ns) => Z.of_nat (length (n :: ns))
  | _ => 0
  end.

(** The rows that meet the threshold, in the order of the input. *)
Definition kept_rows {Query} (min_neighbors : Z)
    (rows : list ((Z * Query) * (Z * option (list Z)))) :=
  filter (λ row, neighbor_count_of row.2.2 >= min_neighbors) rows.
End FilterOutcome.

(** [remove_nulls] and [extract_account_id] of
    filter_incomplete_queries.py, lines 36-60. *)
Module QueryStruct.
#[local] Open Scope string_scope.

(** A value of the [query] column as [to_pydict] hands it over: [None], a
    string, a list, a dictionary with string keys (in insertion order), or
    a scalar, which stands for numbers, booleans and whatever else is
    neither iterable nor subscriptable by a string. *)
#[local] Unset Elimination Schemes.
Inductive pyval (Scalar : Type) :=
| PNone
| PScalar (x : Scalar)
| PStr (s : string)
| PList (items : list (pyval Scalar))
| PDict (items : list (string * pyval Scalar)).
#[local] Set Elimination Schemes.
Arguments PNone {Scalar}.
Arguments PScalar {Scalar} x.
Arguments PStr {Scalar} s.
Arguments PList {Scalar} items.
Arguments PDict {Scalar} items.

Section values.
Context {Scalar : Type}.
(** [bool(x)] of a scalar and Python's [str]. *)
Variable truthy : Scalar → bool.
Variable py_str : pyval Scalar → string.

(** [obj is None]. *)
Definition is_none (obj : pyval Scalar) : bool :=
  match obj with PNone => true | _ => false end.

Fixpoint remove_nulls (obj : pyval Scalar) : pyval Scalar :=
  match obj with
  | PDict items =>
      PDict ((fix comprehension (items : list (string * pyval Scalar)) :=
                match items with
                | [] => []
                | (k, v) :: items' =>
                    if is_none v then comprehension items'
                    else (k, remove_nulls v) :: comprehension items'
                end) items)
  | PList items =>
      PList ((fix comprehension (items : list (pyval Scalar)) :=
                match items with
                | [] => []
                | item :: items' =>
                    if is_none item then comprehension items'
                    else remove_nulls item :: comprehension items'
                end) items)
  | _ => obj
  end.

(** [d[key]] on the items of a dictionary. *)
Fixpoint lookup_key (key : string) (items : list (string * pyval Scalar))
    : option (pyval Scalar) :=
  match items with
  | [] => None
  | (k, v) :: items' => if decide (k = key) then Some v else lookup_key key items'
  end.

(** The operations below answer [None] where Python raises ([KeyError],
    [IndexError], [TypeError], [AttributeError]): [extract_account_id]
    catches every [Exception] alike. *)

(** [obj[key]] for a string [key]. *)
Definition getitem (obj : pyval Scalar) (key : string) : option (pyval Scalar) :=
  match obj with
  | PDict items => lookup_key key items
  | _ => None
  end.

(** [list(obj.keys())[0]]. *)
Definition first_key (obj : pyval Scalar) : option string :=
  match obj with
  | PDict ((k, _) :: _) => Some k
  | _ => None
  end.

(** [obj.get(key, {})]. *)
Definition get (obj : pyval Scalar) (key : string) : option (pyval Scalar) :=
  match obj with
  | PDict items => Some (default (PDict []) (lookup_key key items))
  | _ => None
  end.

(** [key in s] on strings. *)
Fixpoint is_substring (key s : string) : bool :=
  String.prefix key s
  || match s with
     | EmptyString => false
     | String _ s' => is_substring key s'
     end.

(** [key in obj]: among the keys of a dictionary, among the items of a
    list (an item equals a string only if it is that string), inside a
    string. *)
Definition contains (key : string) (obj : pyval Scalar) : option bool :=
  match obj with
  | PDict items => Some (bool_decide (is_Some (lookup_key key items)))
  | PList items =>
      Some (existsb (λ item, match item with
                             | PStr s => bool_decide (s = key)
                             | _ => false
                             end) items)
  | PStr s => Some (is_substring key s)
  | _ => None
  end.

(** [for f in obj]: the keys of a dictionary, the items of a list, the
    characters of a string (one string per byte here; Python has one per
    code point, which the loop treats alike: a string shorter than
    ["term"] is passed over). *)
Definition iterate (obj : pyval Scalar) : option (list (pyval Scalar)) :=
  match obj with
  | PDict items => Some (PStr <$> items.*1)
  | PList items => Some items
  | PStr s => Some ((λ c, PStr (String c EmptyString)) <$> list_ascii_of_string s)
  | _ => None
  end.

(** [bool(obj)]. *)
Definition truth (obj : pyval Scalar) : bool :=
  match obj with
  | PNone => false
  | PScalar x => truthy x
  | PStr s => negb (bool_decide (s = ""))
  | PList items => negb (bool_decide (items = []))
  | PDict items => negb (bool_decide (items = []))
  end.

(** Lines 55-57: the loop over the filters; running off its end is the
    fall through to [return "unknown"]. *)
Fixpoint find_account_id (filters : list (pyval Scalar)) : option string :=
  match filters with
  | [] => Some "unknown"
  | f :: filters' =>
      if truth f then
        has_term ← contains "term" f;
        if has_term : bool then
          term ← get f "term";
          has_account_id ← contains "account_id" term;
          if has_account_id : bool then
            term ← getitem f "term";
            account_id ← getitem term "account_id";
            Some (py_str account_id)
          else find_account_id filters'
        else find_account_id filters'
      else find_account_id filters'
  end.

Definition extract_account_id (query_dict : pyval Scalar) : string :=
  default "unknown"
    (let cleaned := remove_nulls query_dict in
     query ← getitem cleaned "query";
     knn_clause ← getitem query "knn";
     field_name ← first_key knn_clause;
     field ← getitem knn_clause field_name;
     filter_clause ← get field "filter";
     has_bool ← contains "bool" filter_clause;
     if has_bool : bool then
       bool_clause ← getitem filter_clause "bool";
       has_filter ← contains "filter" bool_clause;
       if has_filter : bool then
         bool_clause ← getitem filter_clause "bool";
         filters ← getitem bool_clause "filter";
         filters ← iterate filters;
         find_account_id filters
       else Some "unknown"
     else Some "unknown").

(** No [None] among the values of a dictionary or the items of a list, at
    any depth. *)
Fixpoint null_free (obj : pyval Scalar) : bool :=
  match obj with
  | PDict items =>
      (fix all (items : list (string * pyval Scalar)) :=
         match items with
         | [] => true
         | (_, v) :: items' => negb (is_none v) && null_free v && all items'
         end) items
  | PList items =>
      (fix all (items : list (pyval Scalar)) :=
         match items with
         | [] => true
         | item :: items' => negb (is_none item) && null_free item && all items'
         end) items
  | _ => true
  end.

(** A filter the loop of [extract_account_id] passes over: a dictionary
    without a ["term"], or whose ["term"] is a dictionary without an
    ["account_id"]. *)
Definition other_filter (f : pyval Scalar) : Prop :=
  ∃ d, f = PDict d
       ∧ (lookup_key "term" d = None
          ∨ ∃ term, lookup_key "term" d = Some (PDict term)
                    ∧ lookup_key "account_id" term = None).

(** [obj[k1][k2]...]. *)
Fixpoint at_path (keys : list string) (obj : pyval Scalar) : option (pyval Scalar) :=
  match keys with
  | [] => Some obj
  | key :: keys' => getitem obj key ≫= at_path keys'
  end.
End values.
End QueryStruct.

(** A Balancer input whose sink shard 07 is missing. *)
Module BalanceMissingExample.
Import BalancePartitions BalanceExample.

Definition missing_sink : world :=
  mkWorld (delete 7 (in_dir insufficient_excess)) ∅ [].
End BalanceMissingExample.

(** A k-NN query with two term filters, the second on the account, and a
    null boost; its scalars are integers. *)
Module QueryExample.
Import QueryStruct.
#[local] Open Scope string_scope.

Definition truthy (x : Z) : bool := negb (x =? 0)%Z.

(** [str] on the values of the example: the text of a string, the decimal
    digits of an integer. *)
Definition str (obj : pyval Z) : string :=
  match obj with
  | PStr s => s
  | PScalar x => pretty x
  | _ => ""
  end.

Definition term (field : string) (value : pyval Z) : pyval Z :=
  PDict [("term", PDict [(field, value)])].

Definition knn_query : pyval Z :=
  PDict [("size", PScalar 50);
         ("query",
          PDict [("knn",
                  PDict [("embedding",
                          PDict [("vector", PList [PScalar 1; PScalar 2]);
                                 ("k", PScalar 50);
                                 ("boost", PNone);
                                 ("filter",
                                  PDict [("bool",
                                          PDict [("filter",
                                                  PList [term "tenant" (PStr "acme");
                                                         term "account_id"
                                                           (PScalar 316022)])])])])])])].
End QueryExample.

(** Inputs of the filter script: no queries file; two files without
    rows. *)
Module FilterEdgeExample.
Import FilterIncompleteQueries FilterExample.

Definition no_queries_file : world (Query := string) :=
  mkWorld None (Some neighbors) false None None None [].
Definition no_rows : world (Query := string) :=
  mkWorld (Some []) (Some []) false None None None [].
End FilterEdgeExample.

(** * Properties *)

(** ** The script monad *)

Section monad_facts.
Context {W : Type}.

Lemma bind_returns {A B} (c : prog W A) (k : A → prog W B) w a w' :
  c w = (Returns a, w') → (c ≫= k) w = k a w'.
Proof. intros E. unfold mbind, prog_mbind, bind. by rewrite E. Qed.

Lemma bind_raises {A B} (c : prog W A) (k : A → prog W B) w e w' :
  c w = (Raises e, w') → (c ≫= k) w = (Raises e, w').
Proof. intros E. unfold mbind, prog_mbind, bind. by rewrite E. Qed.

Lemma for_each_cons {A S} (x : A) xs (body : A → S → prog W S) s :
  for_each (x :: xs) body s = body x s ≫= for_each xs body.
Proof. reflexivity. Qed.

Lemma for_each_app {A S} (xs ys : list A) (body : A → S → prog W S) s w :
  for_each (xs ++ ys) body s w = (for_each xs body s ≫= for_each ys body) w.
Proof.
  revert s w. induction xs as [|x xs IH]; intros s w; [done|].
  simpl. unfold mbind, prog_mbind, bind in *.
  destruct (body x s w) as [[s'|e] w']; [apply IH | done].
Qed.

(** A loop whose body neither raises nor touches the world is a fold. *)
Lemma for_each_pure {A S} (xs : list A) (body : A → S → prog W S) (step : S → A → S) s w :
  (∀ x s, x ∈ xs → body x s w = (Returns (step s x), w)) →
  for_each xs body s w = (Returns (foldl step s xs), w).
Proof.
  revert s. induction xs as [|x xs IH]; intros s Hbody; [done|].
  rewrite for_each_cons.
  rewrite (bind_returns _ _ _ _ _ (Hbody x s ltac:(left))).
  apply IH. intros y s' Hy. apply Hbody. by right.
Qed.
End monad_facts.

(** Reduce the fields read off a world that is written out. *)
Ltac simpl_world :=
  cbn [ProcessData.out_dir ProcessData.stdout
       MergePartitions.base_dir MergePartitions.out_dir MergePartitions.read_only
       MergePartitions.writer MergePartitions.trace
       BalancePartitions.in_dir BalancePartitions.out_dir BalancePartitions.trace
       FilterIncompleteQueries.queries_file FilterIncompleteQueries.neighbors_file
       FilterIncompleteQueries.output_dir_made FilterIncompleteQueries.queries_out
       FilterIncompleteQueries.neighbors_out FilterIncompleteQueries.mapping_out
       FilterIncompleteQueries.stdout].

(** Run the first statement of a sequence when it returns by computation. *)
Ltac run_step := erewrite bind_returns; [|reflexivity]; simpl_world.

(** ** Frames, ranges and slices *)

Section frame_facts.

Lemma range_succ (n : Z) : 0 ≤ n → range (n + 1) = range n ++ [n].
Proof.
  intros Hn. unfold range.
  replace (Z.to_nat (n + 1)) with (Z.to_nat n + 1)%nat by lia.
  rewrite seq_app, fmap_app. simpl. f_equal. f_equal. lia.
Qed.

Lemma elem_of_range (n i : Z) : i ∈ range n ↔ 0 ≤ i < n.
Proof.
  unfold range. rewrite list_elem_of_fmap. split.
  - intros (k & -> & Hk). apply elem_of_seq in Hk. lia.
  - intros Hi. exists (Z.to_nat i). split; [lia|]. apply elem_of_seq. lia.
Qed.

Lemma range_app (a b : Z) :
  0 ≤ a → 0 ≤ b → range (a + b) = range a ++ ((λ r, a + r) <$> range b).
Proof.
  intros Ha Hb. unfold range.
  replace (Z.to_nat (a + b)) with (Z.to_nat a + Z.to_nat b)%nat by lia.
  rewrite seq_app, fmap_app. f_equal.
  rewrite <- list_fmap_compose.
  rewrite (Nat.add_comm 0), <- fmap_add_seq, <- list_fmap_compose.
  apply list_fmap_ext. intros _ k _. simpl. lia.
Qed.

(** Consecutive slices of one width tile a prefix of the frame. *)
Lemma slices_tile (df : DataFrame) (c : Z) (k : nat) :
  0 ≤ c →
  (Z.of_nat <$> seq 0 k) ≫= (λ g, slice df (g * c) c) = take (k * Z.to_nat c) df.
Proof.
  intros Hc. induction k as [|k IH]; [done|].
  rewrite seq_S, fmap_app, bind_app, IH. simpl. rewrite app_nil_r.
  unfold slice.
  replace (Z.to_nat (Z.of_nat k * c)) with (k * Z.to_nat c)%nat by nia.
  rewrite take_take_drop. f_equal. lia.
Qed.

Lemma slices_cover (df : DataFrame) (c n : Z) :
  0 ≤ c → 0 ≤ n → height df ≤ n * c →
  range n ≫= (λ g, slice df (g * c) c) = df.
Proof.
  intros Hc Hn Hcover. unfold range. rewrite slices_tile by done.
  apply take_ge. unfold height in Hcover. nia.
Qed.
End frame_facts.

(** ** The Interleaver *)

Section interleaver_facts.
Import ProcessData.

Lemma foldl_insert_map {V V'} (f : V → V') (l : list (string * V)) (m0 : gmap string V') :
  NoDup l.*1 →
  foldl (λ m '(k, v), <[k := f v]> m) m0 l = (f <$> (list_to_map l : gmap string V)) ∪ m0.
Proof.
  revert m0. induction l as [|[k v] l IH]; intros m0 Hnd; simpl.
  - by rewrite fmap_empty, (left_id_L ∅ (∪)).
  - apply NoDup_cons in Hnd as [Hk Hnd].
    rewrite IH by done. rewrite fmap_insert, <- insert_union_l.
    symmetry. apply insert_union_r.
    rewrite lookup_fmap, (not_elem_of_list_to_map_1 _ _ Hk). done.
Qed.

(** Step 2 gives every loaded account the ceiling of its share, unless the
    grid is empty. *)
Lemma chunk_sizes_of_returns (data_map : gmap string DataFrame) (total : Z) w :
  total ≠ 0 →
  chunk_sizes_of data_map total w =
    (Returns ((λ df, chunk_size (height df) total) <$> data_map), w).
Proof.
  intros Htotal. unfold chunk_sizes_of.
  rewrite (for_each_pure _ _
             (λ m '(k, df), <[k := chunk_size (height df) total]> m)).
  - rewrite foldl_insert_map by apply NoDup_fst_map_to_list.
    by rewrite list_to_map_to_list, (right_id_L ∅ (∪)).
  - intros [k df] m _. unfold ceil_div. by rewrite decide_False.
Qed.

Lemma chunk_sizes_of_zero (data_map : gmap string DataFrame) w :
  data_map ≠ ∅ → chunk_sizes_of data_map 0 w = (Raises ZeroDivisionError, w).
Proof.
  intros Hne. unfold chunk_sizes_of.
  destruct (map_to_list data_map) as [|[k df] l] eqn:E.
  - by apply map_to_list_empty_iff in E.
  - done.
Qed.

Lemma keep_nonempty_join fb chunk : mjoin (keep_nonempty fb chunk) = mjoin fb ++ chunk.
Proof.
  unfold keep_nonempty, height. case_decide.
  - rewrite join_app. simpl. by rewrite app_nil_r.
  - destruct chunk; [by rewrite app_nil_r | simpl in *; lia].
Qed.

Lemma keep_nonempty_Forall fb chunk :
  Forall (λ c, c ≠ []) fb → Forall (λ c, c ≠ []) (keep_nonempty fb chunk).
Proof.
  intros Hfb. unfold keep_nonempty, height. case_decide; [|done].
  apply Forall_app. split; [done|]. constructor; [|done].
  destruct chunk; [simpl in *; lia | done].
Qed.

Lemma foldl_keep_nonempty {A} (chunk_of : A → DataFrame) (xs : list A) fb :
  mjoin (foldl (λ fb x, keep_nonempty fb (chunk_of x)) fb xs) = mjoin fb ++ (xs ≫= chunk_of)
  ∧ (Forall (λ c, c ≠ []) fb →
     Forall (λ c, c ≠ []) (foldl (λ fb x, keep_nonempty fb (chunk_of x)) fb xs)).
Proof.
  revert fb. induction xs as [|x xs IH]; intros fb; simpl.
  - by rewrite app_nil_r.
  - destruct (IH (keep_nonempty fb (chunk_of x))) as [-> HF]. split.
    + by rewrite keep_nonempty_join, <- app_assoc.
    + intros Hfb. by apply HF, keep_nonempty_Forall.
Qed.

Section rounds.
Context (data_map : gmap string DataFrame) (total : Z).
Context (sorted_account_ids : list string).
Context (Hloaded : ∀ a, a ∈ sorted_account_ids → is_Some (data_map !! a)).
Let chunk_sizes := (λ df, chunk_size (height df) total) <$> data_map.

(** One round of the inner loop: every account in order, empty chunks
    left out of the buffer. *)
Lemma one_round (g : Z) (fb : list DataFrame) (w : world) :
  for_each sorted_account_ids
    (λ acc_id (file_buffer : list DataFrame),
       df ← getitem data_map acc_id;
       c_size ← getitem chunk_sizes acc_id;
       let start := g * c_size in
       let chunk := slice df start c_size in
       mret (if decide (0 < height chunk) then file_buffer ++ [chunk] else file_buffer))
    fb w
  = (Returns (foldl (λ fb a, keep_nonempty fb (visit total data_map g a))
                    fb sorted_account_ids), w).
Proof.
  apply for_each_pure. intros a fb' Ha.
  destruct (Hloaded a Ha) as [df Hdf].
  unfold getitem, visit, chunk_sizes. rewrite lookup_fmap, Hdf. done.
Qed.

Lemma build_file_buffer_returns (R f : Z) (w : world) :
  ∃ fb, build_file_buffer data_map chunk_sizes sorted_account_ids R f w = (Returns fb, w)
        ∧ mjoin fb = range R ≫= (λ r, sorted_account_ids ≫= visit total data_map (f * R + r))
        ∧ Forall (λ c, c ≠ []) fb.
Proof.
  unfold build_file_buffer.
  assert (∀ rs fb, Forall (λ c, c ≠ []) fb →
            ∃ fb', for_each rs
              (λ round_idx (file_buffer : list DataFrame),
                 let global_chunk_idx := f * R + round_idx in
                 for_each sorted_account_ids
                   (λ acc_id (file_buffer : list DataFrame),
                      df ← getitem data_map acc_id;
                      c_size ← getitem chunk_sizes acc_id;
                      let start := global_chunk_idx * c_size in
                      let chunk := slice df start c_size in
                      mret (if decide (0 < height chunk)
                            then file_buffer ++ [chunk] else file_buffer))
                   file_buffer) fb w = (Returns fb', w)
              ∧ mjoin fb' = mjoin fb ++
                  (rs ≫= (λ r, sorted_account_ids ≫= visit total data_map (f * R + r)))
              ∧ Forall (λ c, c ≠ []) fb') as Hrounds.
  { induction rs as [|r rs IH]; intros fb Hfb.
    - exists fb. simpl. by rewrite app_nil_r.
    - destruct (foldl_keep_nonempty (visit total data_map (f * R + r))
                  sorted_account_ids fb) as [Hjoin HF].
      destruct (IH _ (HF Hfb)) as (fb' & E & Hfb' & HF').
      exists fb'. split; [|split; [|done]].
      + rewrite for_each_cons.
        erewrite bind_returns; [exact E | apply one_round].
      + rewrite Hfb', Hjoin. simpl. by rewrite <- app_assoc. }
  destruct (Hrounds (range R) [] ltac:(constructor)) as (fb & E & Hj & HF).
  exists fb. done.
Qed.
End rounds.
End interleaver_facts.

Section interleaver_grid.
Import ProcessData.

Lemma filter_all {A} (P : A → Prop) `{!∀ x, Decision (P x)} (l : list A) :
  Forall P l → filter P l = l.
Proof.
  induction 1 as [|x l Hx _ IH]; [done|].
  by rewrite filter_cons, decide_True, IH.
Qed.

Lemma filter_none {A} (P : A → Prop) `{!∀ x, Decision (P x)} (l : list A) :
  Forall (λ x, ¬ P x) l → filter P l = [].
Proof.
  induction 1 as [|x l Hx _ IH]; [done|].
  by rewrite filter_cons, decide_False, IH.
Qed.

Lemma foldl_ext {A B} (f g : A → B → A) (a : A) (l : list B) :
  (∀ a b, f a b = g a b) → foldl f a l = foldl g a l.
Proof.
  intros Hfg. revert a. induction l as [|b l IH]; intros a; [done|].
  simpl. by rewrite Hfg, IH.
Qed.

(** The global chunk indices that fall into shard [f] are its [R] rounds. *)
Lemma grid_row (S R f : Z) :
  0 < R → 0 ≤ f < S →
  filter (λ g, g / R = f) (range (S * R)) = (λ r, f * R + r) <$> range R.
Proof.
  intros HR Hf.
  replace (S * R) with ((f * R + R) + (S - f - 1) * R) by lia.
  rewrite range_app, range_app by nia.
  rewrite !filter_app.
  rewrite (filter_none _ (range (f * R))), (filter_all _ (_ <$> range R)), (filter_none _ (_ <$> _)).
  - by rewrite app_nil_r.
  - apply Forall_fmap, Forall_forall. intros r Hr%elem_of_range. simpl.
    assert (f + 1 ≤ (f * R + R + r) / R); [|lia].
    apply Z.div_le_lower_bound; lia.
  - apply Forall_fmap, Forall_forall. intros r Hr%elem_of_range. simpl.
    rewrite Z.div_add_l by lia. rewrite Z.div_small; lia.
  - apply Forall_forall. intros g Hg%elem_of_range.
    assert (g / R < f); [|lia].
    apply Z.div_lt_upper_bound; lia.
Qed.

Lemma append_round (total : Z) (accounts : list (string * DataFrame)) (g i : Z) shards :
  foldl (λ shards '(_, df), append_to_shard shards i (micro_chunk total df g)) shards accounts
  = append_to_shard shards i (round_chunks total accounts g).
Proof.
  unfold round_chunks, append_to_shard.
  revert shards. induction accounts as [|[a df] accounts IH]; intros shards; simpl.
  - symmetry. apply list_alter_id. intros rows. apply app_nil_r.
  - rewrite IH, list_alter_alter_eq. apply list_alter_ext; [|done].
    intros rows _. simpl. by rewrite app_assoc.
Qed.

Lemma append_rounds (chunks : Z → DataFrame) (R : Z) (gs : list Z) shards (f : Z) :
  0 < R → 0 ≤ f → Forall (λ g, 0 ≤ g) gs →
  foldl (λ shards g, append_to_shard shards (g / R) (chunks g)) shards gs !! Z.to_nat f
  = (λ rows, rows ++ (filter (λ g, g / R = f) gs ≫= chunks)) <$> shards !! Z.to_nat f.
Proof.
  intros HR Hf. revert shards. induction gs as [|g gs IH]; intros shards Hgs; simpl.
  - destruct (shards !! Z.to_nat f); simpl; [|done]. by rewrite app_nil_r.
  - apply Forall_cons in Hgs as [Hg Hgs]. rewrite IH by done.
    unfold append_to_shard. rewrite filter_cons.
    assert (0 ≤ g / R) by (apply Z.div_pos; lia).
    case_decide as Hgf.
    + rewrite Hgf, list_lookup_alter_eq.
      destruct (shards !! Z.to_nat f); simpl; [|done]. by rewrite app_assoc.
    + rewrite list_lookup_alter_ne by lia. done.
Qed.

(** The grid walk of the specification fills shard [f] with its rounds in
    order, each round with the accounts in order. *)
Lemma spec_interleave_lookup (accounts : list (string * DataFrame)) (S R f : Z) :
  0 < R → 0 ≤ f < S →
  spec_interleave accounts S R !! Z.to_nat f = Some (shard_content accounts S R f).
Proof.
  intros HR Hf. unfold spec_interleave, shard_content.
  rewrite (foldl_ext _ (λ shards g, append_to_shard shards (g / R)
                                      (round_chunks (S * R) accounts g)))
    by (intros; apply append_round).
  rewrite append_rounds; [|lia|lia|].
  - rewrite lookup_replicate_2 by lia. simpl.
    by rewrite grid_row, list_fmap_bind by done.
  - apply Forall_forall. intros g Hg%elem_of_range. lia.
Qed.

Lemma visit_sorted_accounts (loaded : gmap string (option DataFrame)) (total g : Z) :
  sorted (files_by_account_keys loaded) ≫= visit total (data_map_of loaded) g
  = round_chunks total (sorted_accounts loaded) g.
Proof.
  unfold sorted_accounts, round_chunks.
  induction (sorted (files_by_account_keys loaded)) as [|a l IH]; [done|].
  simpl. unfold visit at 1.
  destruct (data_map_of loaded !! a) as [df|]; simpl; [f_equal|]; exact IH.
Qed.
End interleaver_grid.

Section interleaver_run.
Import ProcessData.

Context (loaded : gmap string (option DataFrame)) (S R : Z).
Context (Hgrid : S * R ≠ 0).
Context (Hloaded : map_Forall (λ _ o, is_Some o) loaded).

Let accounts := sorted_accounts loaded.
Let ids := sorted (files_by_account_keys loaded).
Let data_map := data_map_of loaded.
Let chunk_sizes := (λ df, chunk_size (height df) (S * R)) <$> data_map.

Lemma sorted_ids_loaded a : a ∈ ids → is_Some (data_map !! a).
Proof.
  unfold ids, sorted, files_by_account_keys.
  rewrite merge_sort_Permutation, list_elem_of_fmap.
  intros ([a' o] & -> & Ho%elem_of_map_to_list). simpl.
  destruct (Hloaded _ _ Ho) as [df ->].
  exists df. unfold data_map, data_map_of. by rewrite lookup_omap, Ho.
Qed.

Lemma file_buffer_of_shard (f : Z) (w : world) :
  ∃ fb, build_file_buffer data_map chunk_sizes ids R f w = (Returns fb, w)
        ∧ mjoin fb = shard_content accounts S R f
        ∧ (fb = [] ↔ shard_content accounts S R f = []).
Proof.
  destruct (build_file_buffer_returns data_map (S * R) ids sorted_ids_loaded R f w)
    as (fb & E & Hjoin & Hne).
  exists fb. split; [done|].
  assert (mjoin fb = shard_content accounts S R f) as Hcontent.
  { rewrite Hjoin. unfold shard_content. apply list_bind_ext; [|done].
    intros r. apply visit_sorted_accounts. }
  split; [done|]. rewrite <- Hcontent. split; [by intros ->|].
  destruct Hne as [|c fb Hc _]; [done|]. destruct c; [done|]. discriminate.
Qed.

(** The loop over the output files, lines 113-144. *)
Lemma shards_loop (fs : list Z) (created : list Z) (w : world) :
  ∃ created' w',
    for_each fs
      (λ file_idx (created_files : list Z),
         print (BuildingFile file_idx);;
         file_buffer ← build_file_buffer data_map chunk_sizes ids R file_idx;
         match file_buffer with
         | [] => print (WarningFileEmpty file_idx);; mret created_files
         | _ =>
             final_df ← concat file_buffer;
             write_parquet file_idx final_df;;
             print (Saved file_idx (height final_df));;
             mret (created_files ++ [file_idx])
         end)
      created w = (Returns created', w')
    ∧ ∀ f, out_dir w' !! f =
            if decide (f ∈ fs ∧ shard_content accounts S R f ≠ [])
            then Some (shard_content accounts S R f) else out_dir w !! f.
Proof.
  revert created w. induction fs as [|f0 fs IH]; intros created w.
  - exists created, w. split; [done|]. intros f. rewrite decide_False; [done|].
    intros [Hf _]. by apply elem_of_nil in Hf.
  - rewrite for_each_cons.
    destruct (file_buffer_of_shard f0 (mkWorld (out_dir w) (stdout w ++ [BuildingFile f0])))
      as (fb & E & Hjoin & Hnil).
    destruct fb as [|c fb].
    + destruct (IH created (mkWorld (out_dir w)
                  ((stdout w ++ [BuildingFile f0]) ++ [WarningFileEmpty f0])))
        as (created' & w' & Eloop & Hout).
      exists created', w'. split.
      * unfold mbind, prog_mbind, bind at 1. unfold bind at 1. simpl.
        unfold bind at 1. rewrite E. exact Eloop.
      * intros f. rewrite Hout. simpl.
        destruct (decide (f = f0)) as [->|Hne].
        -- rewrite !decide_False; [done| |]; intros [_ Hc]; apply Hc, Hnil; done.
        -- apply decide_ext. rewrite elem_of_cons. tauto.
    + destruct (IH (created ++ [f0])
                  (mkWorld (<[f0 := mjoin (c :: fb)]> (out_dir w))
                     ((stdout w ++ [BuildingFile f0]) ++ [Saved f0 (height (mjoin (c :: fb)))])))
        as (created' & w' & Eloop & Hout).
      exists created', w'. split.
      * unfold mbind, prog_mbind, bind at 1. unfold bind at 1. simpl.
        unfold bind at 1. rewrite E. exact Eloop.
      * intros f. rewrite Hout. cbn [out_dir].
        assert (shard_content accounts S R f0 ≠ []) as Hc
          by (intros Hc; by apply Hnil in Hc).
        destruct (decide (f = f0)) as [->|Hne].
        -- rewrite lookup_insert_eq, Hjoin.
           rewrite (decide_True (P := f0 ∈ f0 :: fs ∧ _)) by (split; [left|done]).
           by case_decide.
        -- rewrite lookup_insert_ne by done.
           apply decide_ext. rewrite elem_of_cons. tauto.
Qed.

Lemma process_data_shards (w : world) :
  ∃ w', process_data loaded S R w = (Returns (), w')
        ∧ ∀ f, out_dir w' !! f =
                if decide (0 ≤ f < S ∧ shard_content accounts S R f ≠ [])
                then Some (shard_content accounts S R f) else out_dir w !! f.
Proof.
  unfold process_data.
  destruct (shards_loop (range S) []
              (mkWorld (out_dir w) (stdout w ++ [StartingRoundRobin S R])))
    as (created & w' & Eloop & Hout).
  exists (mkWorld (out_dir w') (stdout w' ++ [ProcessingComplete created])).
  split.
  - erewrite bind_returns; [|by apply chunk_sizes_of_returns].
    erewrite bind_returns; [|reflexivity].
    erewrite bind_returns; [|exact Eloop]. reflexivity.
  - intros f. simpl. rewrite Hout. simpl.
    apply decide_ext. by rewrite elem_of_range.
Qed.
End interleaver_run.

Section interleaver_order.
Import ProcessData.

(** [chunk_size count total] is the ceiling of [count / total]: the least
    number of rows per cell with which [total] cells hold [count] rows. *)
Lemma chunk_size_is_ceiling (count total : Z) :
  0 < total →
  let c := chunk_size count total in
  (c - 1) * total < count ≤ c * total.
Proof.
  intros Htotal c. unfold c, chunk_size.
  pose proof (Z.mul_div_le (- count) total Htotal).
  pose proof (Z.mul_succ_div_gt (- count) total Htotal). lia.
Qed.

(** The Interleaver slices at non-negative offsets with non-negative
    lengths. *)
Lemma slice_arguments_nonneg (S R f r count : Z) :
  0 < S → 0 < R → 0 ≤ f → 0 ≤ r → 0 ≤ count →
  0 ≤ chunk_size count (S * R) ∧ 0 ≤ (f * R + r) * chunk_size count (S * R).
Proof.
  intros HS HR Hf Hr Hcount.
  pose proof (chunk_size_is_ceiling count (S * R) ltac:(nia)) as Hc. simpl in Hc.
  assert (0 ≤ chunk_size count (S * R)) by nia. split; [done|nia].
Qed.

#[local] Instance str_le_total : Total str_le.
Proof. intros a b. apply String.leb_total. Qed.

Lemma sorted_Sorted (keys : list string) : Sorted str_le (sorted keys).
Proof. apply Sorted_merge_sort, _. Qed.

Lemma sorted_accounts_all (loaded : gmap string (option DataFrame)) :
  map_Forall (λ _ o, is_Some o) loaded →
  (sorted_accounts loaded).*1 = sorted (files_by_account_keys loaded).
Proof.
  intros Hloaded. unfold sorted_accounts.
  assert (Forall (λ a, is_Some (data_map_of loaded !! a))
            (sorted (files_by_account_keys loaded))) as Hall.
  { apply Forall_forall. intros a. apply sorted_ids_loaded. exact Hloaded. }
  induction Hall as [|a l [df Hdf] _ IH]; [done|].
  simpl. rewrite Hdf. simpl. f_equal. exact IH.
Qed.

Lemma elem_of_sorted_accounts (loaded : gmap string (option DataFrame)) a df :
  (a, df) ∈ sorted_accounts loaded ↔ loaded !! a = Some (Some df).
Proof.
  unfold sorted_accounts. rewrite list_elem_of_omap.
  unfold sorted, files_by_account_keys, data_map_of. split.
  - intros (a' & _ & Ha'). rewrite lookup_omap in Ha'.
    destruct (loaded !! a') as [[df'|]|] eqn:E; simplify_eq/=. done.
  - intros Ha. exists a. split.
    + rewrite merge_sort_Permutation, list_elem_of_fmap.
      exists (a, Some df). split; [done|]. by apply elem_of_map_to_list.
    + by rewrite lookup_omap, Ha.
Qed.

Lemma sorted_accounts_NoDup (loaded : gmap string (option DataFrame)) :
  map_Forall (λ _ o, is_Some o) loaded → NoDup (sorted_accounts loaded).*1.
Proof.
  intros Hloaded. rewrite sorted_accounts_all by done.
  unfold sorted. rewrite merge_sort_Permutation. apply NoDup_fst_map_to_list.
Qed.
End interleaver_order.

Section interleaver_contract.
Import ProcessData ProcessDataExample.

(** C1 (as amended).  For every input where each account has its documents
    loaded, a run of the Interleaver with [S > 0] shards and [R > 0] rounds
    per shard returns normally, visits the accounts in lexicographically
    sorted order without repetition, uses
    [chunk_size(a) = ceil(count(a) / (S*R))] (the least [c] with
    [c * (S*R) >= count(a)]), and leaves in output file [g // R] exactly what
    the grid walk of the specification appends to that shard: for every
    global chunk index [g] from [0] to [S*R - 1] and every account in order,
    the slice of the account's frame starting at [g * chunk_size(a)] of
    length [chunk_size(a)], empty past the end.  For the accounts A (25
    documents) and B (15 documents) with [S = R = 2] the chunk sizes are 7
    and 4, shard 0 is A[0:7]+B[0:4]+A[7:14]+B[4:8] with 22 documents and
    shard 1 is A[14:21]+B[8:12]+A[21:25]+B[12:15] with 18 documents. *)
Theorem interleaver_round_robin :
  (∀ (loaded : gmap string (option DataFrame)) (S R : Z) (w : world),
     0 < S → 0 < R → map_Forall (λ _ o, is_Some o) loaded →
     let accounts := sorted_accounts loaded in
     (∀ a df, (a, df) ∈ accounts ↔ loaded !! a = Some (Some df))
     ∧ Sorted str_le accounts.*1 ∧ NoDup accounts.*1
     ∧ (∀ a df, (a, df) ∈ accounts →
          let c := chunk_size (height df) (S * R) in
          (c - 1) * (S * R) < height df ≤ c * (S * R))
     ∧ ∃ w', process_data loaded S R w = (Returns (), w')
             ∧ ∀ f, 0 ≤ f < S → shard_written accounts S R w w' f)
  ∧ (run.1 = Returns ()
     ∧ chunk_size (height A) (2 * 2) = 7 ∧ chunk_size (height B) (2 * 2) = 4
     ∧ shard 0 = Some expected_shard_0 ∧ length expected_shard_0 = 22%nat
     ∧ shard 1 = Some expected_shard_1 ∧ length expected_shard_1 = 18%nat).
Proof.
  split; [|by vm_compute].
  intros loaded S R w HS HR Hloaded accounts.
  split; [apply elem_of_sorted_accounts|].
  split; [unfold accounts; rewrite sorted_accounts_all by done; apply sorted_Sorted|].
  split; [by apply sorted_accounts_NoDup|].
  split; [intros a df _; apply chunk_size_is_ceiling; nia|].
  destruct (process_data_shards loaded S R ltac:(nia) Hloaded w) as (w' & Erun & Hout).
  exists w'. split; [done|]. intros f Hf.
  exists (shard_content accounts S R f).
  split; [by apply spec_interleave_lookup|]. split; [done|].
  rewrite Hout. fold accounts.
  destruct (decide (shard_content accounts S R f = [])) as [Hnil|Hnil].
  - rewrite decide_False; [done|]. by intros [_ ?].
  - by rewrite decide_True.
Qed.

Lemma interleaver_round_robin_witness :
  0 < 2 ∧ map_Forall (λ _ o, is_Some o) loaded
  ∧ ∃ w', process_data loaded 2 2 empty_world = (Returns (), w')
          ∧ ∀ f, 0 ≤ f < 2 → shard_written (sorted_accounts loaded) 2 2 empty_world w' f.
Proof.
  assert (map_Forall (λ _ (o : option DataFrame), is_Some o) loaded) as Hloaded
    by (apply (bool_decide_unpack _); vm_compute; exact I).
  split; [lia|]. split; [exact Hloaded|].
  apply (proj1 interleaver_round_robin loaded 2 2 empty_world); [lia|lia|exact Hloaded].
Defined.

(** C1 as the specification words its scenario: shard 1 would hold 14
    documents.  The four slices it lists hold 7 + 4 + 4 + 3 = 18. *)
Lemma interleaver_scenario_shard_1_count :
  ¬ (shard 1 = Some expected_shard_1 ∧ length expected_shard_1 = 14%nat).
Proof. intros [_ Hlen]. vm_compute in Hlen. discriminate. Qed.

(** Two ways the Interleaver aborts.  An account none of whose files could be
    read is still visited by the round-robin loop, and the lookup of its
    frame raises; an empty grid ([S * R = 0]) divides by zero as soon as an
    account is loaded.  Nothing is written in either case. *)
Lemma unreadable_account_aborts :
  process_data {[ "A" := Some A; "B" := None ]}%string 2 2 empty_world
  = (Raises (KeyError "B"), mkWorld ∅ [StartingRoundRobin 2 2; BuildingFile 0]).
Proof. by vm_compute. Qed.

(** X6.  An empty grid: with [S * R = 0] and at least one account loaded,
    the chunk-size step divides by zero; the exception escapes before a
    line is printed or a file written. *)
Lemma empty_grid_aborts (loaded : gmap string (option DataFrame)) (S R : Z) (w : world) :
  S * R = 0 → data_map_of loaded ≠ ∅ →
  process_data loaded S R w = (Raises ZeroDivisionError, w).
Proof.
  intros Hgrid Hdata. unfold process_data.
  erewrite bind_raises; [done|]. rewrite Hgrid. by apply chunk_sizes_of_zero.
Qed.
End interleaver_contract.

(** ** The Balancer *)

Section balancer_facts.
Import BalancePartitions.

Lemma read_parquet_returns (w : world) (i : Z) (df : DataFrame) :
  in_dir w !! i = Some df → read_parquet i w = (Returns df, w).
Proof.
  intros Hdf. unfold read_parquet. run_step. cbn beta. by rewrite Hdf.
Qed.

Lemma read_parquet_raises (w : world) (i : Z) :
  in_dir w !! i = None → read_parquet i w = (Raises (FileNotFoundError i), w).
Proof.
  intros Hdf. unfold read_parquet. run_step. cbn beta. by rewrite Hdf.
Qed.

Lemma take_all_rows (df : DataFrame) (T : Z) : height df ≤ T → take (Z.to_nat T) df = df.
Proof. unfold height. intros H. apply take_ge. lia. Qed.

Lemma tail_excess (df : DataFrame) (T : Z) :
  0 ≤ T → height df > T → tail df (height df - T) = drop (Z.to_nat T) df.
Proof. unfold tail, height. intros H0 H. f_equal. lia. Qed.

(** Collect, one source shard: the first [T] rows stay, the rest joins the
    excess. *)
Lemma collect_returns (T : Z) (i : Z) (excess_dfs : list DataFrame) (w : world) df :
  0 ≤ T → in_dir w !! i = Some df →
  ∃ t, collect T i excess_dfs w =
         (Returns (if decide (height df > T)
                   then excess_dfs ++ [drop (Z.to_nat T) df] else excess_dfs),
          mkWorld (in_dir w) (<[i := take (Z.to_nat T) df]> (out_dir w)) (trace w ++ t))
       ∧ ∀ j, ProcessingPartition j ∈ t → j = i.
Proof.
  intros HT Hdf. unfold collect.
  run_step. erewrite bind_returns; [|by apply read_parquet_returns].
  cbv zeta. run_step.
  destruct (decide (height df > T)) as [Hover|Hfits].
  - eexists. split.
    + repeat run_step.
      unfold mret, prog_mret, ret. cbn. rewrite tail_excess by done.
      unfold head. f_equal. f_equal. rewrite <- !app_assoc. reflexivity.
    + intros j Hj. simpl in Hj. rewrite !elem_of_cons, elem_of_nil in Hj.
      destruct Hj as [Hj|[Hj|[Hj|[Hj|[Hj|[]]]]]]; by inversion Hj.
  - eexists. split.
    + repeat run_step.
      unfold mret, prog_mret, ret. cbn. rewrite take_all_rows by lia.
      f_equal. f_equal. rewrite <- !app_assoc. reflexivity.
    + intros j Hj. simpl in Hj. rewrite !elem_of_cons, elem_of_nil in Hj.
      destruct Hj as [Hj|[Hj|[Hj|[Hj|[]]]]]; by inversion Hj.
Qed.

Lemma collect_raises (T : Z) (i : Z) (excess_dfs : list DataFrame) (w : world) :
  in_dir w !! i = None →
  collect T i excess_dfs w =
    (Raises (FileNotFoundError i),
     mkWorld (in_dir w) (out_dir w) (trace w ++ [ProcessingPartition i])).
Proof.
  intros Hdf. unfold collect. run_step.
  erewrite bind_raises; [done|]. by apply read_parquet_raises.
Qed.

(** The Collect loop over the shards [idxs]. *)
Lemma collect_loop (T : Z) (idxs : list Z) (excess_dfs : list DataFrame) (w : world) :
  0 ≤ T → (∀ i, i ∈ idxs → is_Some (in_dir w !! i)) →
  ∃ w', for_each idxs (collect T) excess_dfs w
          = (Returns (excess_dfs ++ excess_frames T (in_dir w) idxs), w')
        ∧ in_dir w' = in_dir w
        ∧ (∃ t, trace w' = trace w ++ t ∧ ∀ j, ProcessingPartition j ∈ t → j ∈ idxs)
        ∧ ∀ j, out_dir w' !! j =
                if decide (j ∈ idxs) then take (Z.to_nat T) <$> in_dir w !! j
                else out_dir w !! j.
Proof.
  intros HT. revert excess_dfs w.
  induction idxs as [|i idxs IH]; intros excess_dfs w Hin.
  - exists w. split; [by rewrite app_nil_r|]. split; [done|].
    split.
    { exists []. rewrite app_nil_r. split; [done|]. intros j Hj. by apply elem_of_nil in Hj. }
    intros j. rewrite decide_False; [done|]. apply not_elem_of_nil.
  - destruct (Hin i ltac:(left)) as [df Hdf].
    destruct (collect_returns T i excess_dfs w df HT Hdf) as (t & Ei & Ht).
    edestruct (IH (if decide (height df > T)
                   then excess_dfs ++ [drop (Z.to_nat T) df] else excess_dfs)
                 (mkWorld (in_dir w) (<[i := take (Z.to_nat T) df]> (out_dir w))
                    (trace w ++ t)))
      as (w' & Eloop & Hin' & (t' & Ht' & Hpp) & Hout).
    { intros j Hj. apply Hin. by right. }
    simpl in Eloop, Hin', Ht', Hout.
    exists w'. split; [|split; [done|split]].
    + rewrite for_each_cons. erewrite bind_returns; [|exact Ei].
      rewrite Eloop. f_equal. f_equal. unfold excess_frames. simpl.
      rewrite Hdf. destruct (decide (height df > T)); simpl; by rewrite <- ?app_assoc.
    + exists (t ++ t'). rewrite Ht'. split; [by rewrite app_assoc|].
      intros j [Hj|Hj]%elem_of_app; apply elem_of_cons;
        [left; by apply Ht | right; by apply Hpp].
    + intros j. rewrite Hout. simpl.
      destruct (decide (j = i)) as [->|Hne].
      * rewrite (decide_True (P := i ∈ i :: idxs)) by left.
        rewrite Hdf. destruct (decide (i ∈ idxs)); simpl; by rewrite ?lookup_insert_eq.
      * rewrite lookup_insert_ne by done.
        apply decide_ext. rewrite elem_of_cons. tauto.
Qed.

(** Distribute, one sink shard. *)
Lemma distribute_returns (T : Z) (pool : DataFrame) (i offset : Z) (w : world) df :
  in_dir w !! i = Some df →
  ∃ t, distribute T pool (height pool) i offset w =
         (Returns (offset + height (received T pool i offset df)),
          mkWorld (in_dir w) (<[i := df ++ received T pool i offset df]> (out_dir w))
            (trace w ++ t)).
Proof.
  intros Hdf. unfold distribute.
  run_step. erewrite bind_returns; [|by apply read_parquet_returns].
  cbv zeta. run_step. unfold received.
  destruct (decide ((if decide (i < 9) then T - height df else height pool - offset) > 0
                    ∧ offset < height pool)) as [Hadd|Hcopy].
  - eexists. repeat run_step.
    unfold mret, prog_mret, ret. cbn. rewrite app_nil_r.
    f_equal. f_equal. rewrite <- !app_assoc. reflexivity.
  - eexists. repeat run_step.
    unfold mret, prog_mret, ret. cbn. rewrite app_nil_r, Z.add_0_r.
    f_equal. f_equal. rewrite <- !app_assoc. reflexivity.
Qed.

Lemma distribute_raises (T : Z) (pool : DataFrame) (total i offset : Z) (w : world) :
  in_dir w !! i = None →
  distribute T pool total i offset w =
    (Raises (FileNotFoundError i),
     mkWorld (in_dir w) (out_dir w) (trace w ++ [ProcessingPartition i])).
Proof.
  intros Hdf. unfold distribute. run_step.
  erewrite bind_raises; [done|]. by apply read_parquet_raises.
Qed.

(** The Distribute loop over the sinks [idxs], none of them visited
    twice. *)
Lemma distribute_loop (T : Z) (pool : DataFrame) (idxs : list Z) (offset : Z) (w : world) :
  NoDup idxs → (∀ i, i ∈ idxs → is_Some (in_dir w !! i)) →
  ∃ w', for_each idxs (distribute T pool (height pool)) offset w
          = (Returns (offset + height (mjoin (shares T pool (in_dir w) idxs offset))), w')
        ∧ in_dir w' = in_dir w
        ∧ (∃ t, trace w' = trace w ++ t)
        ∧ (∀ j, j ∉ idxs → out_dir w' !! j = out_dir w !! j)
        ∧ ∀ k i, idxs !! k = Some i →
            ∃ df r, in_dir w !! i = Some df
                    ∧ shares T pool (in_dir w) idxs offset !! k = Some r
                    ∧ out_dir w' !! i = Some (df ++ r).
Proof.
  revert offset w. induction idxs as [|i idxs IH]; intros offset w Hnd Hin.
  - exists w. simpl. rewrite Z.add_0_r. split; [done|]. split; [done|].
    split; [by exists []; rewrite app_nil_r|]. split; [done|].
    intros k i Hk. by rewrite lookup_nil in Hk.
  - apply NoDup_cons in Hnd as [Hi Hnd].
    destruct (Hin i ltac:(left)) as [df Hdf].
    destruct (distribute_returns T pool i offset w df Hdf) as [t Ei].
    set (r := received T pool i offset df) in *.
    edestruct (IH (offset + height r)
                 (mkWorld (in_dir w) (<[i := df ++ r]> (out_dir w)) (trace w ++ t)) Hnd)
      as (w' & Eloop & Hin' & [t' Ht'] & Hother & Hout).
    { intros j Hj. apply Hin. by right. }
    simpl in Eloop, Hin', Ht', Hother, Hout.
    exists w'. split; [|split; [done|split; [|split]]].
    + rewrite for_each_cons. erewrite bind_returns; [|exact Ei].
      rewrite Eloop. f_equal. f_equal. simpl. rewrite Hdf. simpl. fold r.
      unfold height. rewrite length_app. lia.
    + exists (t ++ t'). rewrite Ht'. by rewrite app_assoc.
    + intros j Hj. apply not_elem_of_cons in Hj as [Hne Hj].
      rewrite Hother by done. by rewrite lookup_insert_ne.
    + intros [|k] j Hk; simpl in Hk.
      * injection Hk as <-. exists df, r. split; [done|]. split.
        -- simpl. rewrite Hdf. done.
        -- rewrite Hother by done. by rewrite lookup_insert_eq.
      * destruct (Hout k j Hk) as (df' & r' & Hdf' & Hr' & Hw').
        exists df', r'. split; [done|]. split; [|done].
        simpl. rewrite Hdf. simpl. exact Hr'.
Qed.

Lemma height_slice (pool : DataFrame) (offset n : Z) :
  0 ≤ offset → 0 ≤ n →
  height (slice pool offset n) = Z.max 0 (Z.min n (height pool - offset)).
Proof.
  intros Ho Hn. unfold height, slice. rewrite length_take, length_drop. lia.
Qed.

(** A sink below the absorber pulls [min(deficit, remaining_pool)] rows,
    starting at the cursor, when both are positive, and nothing otherwise. *)
Lemma received_sink (T : Z) (pool : DataFrame) (i offset : Z) (df : DataFrame) :
  i < 9 → 0 ≤ offset →
  let deficit := T - height df in
  let remaining := height pool - offset in
  received T pool i offset df =
    if decide (0 < deficit ∧ 0 < remaining)
    then slice pool offset (Z.min deficit remaining) else [].
Proof.
  intros Hi Ho deficit remaining. unfold received.
  rewrite (decide_True (P := i < 9)) by done.
  fold deficit. destruct (decide (deficit > 0 ∧ offset < height pool)) as [H|H].
  - rewrite decide_True by (unfold remaining; lia).
    unfold slice. destruct (Z.min_spec deficit remaining) as [[Hlt ->]|[Hge ->]]; [done|].
    rewrite !take_ge; [done| |]; rewrite length_drop; unfold remaining, height in *; lia.
  - rewrite decide_False by (unfold remaining; lia). done.
Qed.

(** The absorber takes whatever is left of the pool. *)
Lemma received_absorber (T : Z) (pool : DataFrame) (i offset : Z) (df : DataFrame) :
  ¬ i < 9 → 0 ≤ offset →
  received T pool i offset df = drop (Z.to_nat offset) pool.
Proof.
  intros Hi Ho. unfold received. rewrite (decide_False (P := i < 9)) by done.
  case_decide as H.
  - unfold slice. apply take_ge. rewrite length_drop. unfold height. lia.
  - symmetry. apply drop_ge. unfold height in H. lia.
Qed.

Lemma received_contiguous (T : Z) (pool : DataFrame) (i offset : Z) (df : DataFrame) :
  0 ≤ offset ≤ height pool →
  let r := received T pool i offset df in
  offset + height r ≤ height pool
  ∧ take (Z.to_nat offset) pool ++ r = take (Z.to_nat (offset + height r)) pool.
Proof.
  intros Ho r. unfold r, received. case_decide as H.
  - unfold slice. rewrite take_take_drop.
    unfold height in *. rewrite length_take, length_drop. split; [lia|].
    match goal with |- take (_ + ?n) _ = _ => set (m := n) end.
    destruct (decide (m ≤ length pool - Z.to_nat offset)%nat).
    + f_equal. lia.
    + rewrite !take_ge by lia. done.
  - change (height []) with 0. rewrite app_nil_r, Z.add_0_r. split; [lia|done].
Qed.

(** The shares are consecutive stretches of the pool from the cursor on. *)
Lemma shares_contiguous (T : Z) (pool : DataFrame) (dir : gmap Z DataFrame)
    (idxs : list Z) (offset : Z) :
  0 ≤ offset ≤ height pool →
  let final := offset + height (mjoin (shares T pool dir idxs offset)) in
  final ≤ height pool
  ∧ take (Z.to_nat offset) pool ++ mjoin (shares T pool dir idxs offset)
    = take (Z.to_nat final) pool.
Proof.
  revert offset. induction idxs as [|i idxs IH]; intros offset Ho; simpl.
  - rewrite app_nil_r, Z.add_0_r. split; [lia|done].
  - set (r := received T pool i offset (default [] (dir !! i))).
    destruct (received_contiguous T pool i offset (default [] (dir !! i)) Ho) as [Hle Hr].
    fold r in Hle, Hr.
    destruct (IH (offset + height r)) as [Hfin Hrest]; [unfold height in *; lia|].
    assert (offset + height (r ++ mjoin (shares T pool dir idxs (offset + height r)))
            = offset + height r + height (mjoin (shares T pool dir idxs (offset + height r))))
      as -> by (unfold height; rewrite length_app; lia).
    split; [done|]. by rewrite app_assoc, Hr.
Qed.

(** With the absorber last, the shares use up the pool. *)
Lemma shares_drain (T : Z) (pool : DataFrame) (dir : gmap Z DataFrame)
    (idxs : list Z) (a offset : Z) :
  ¬ a < 9 → 0 ≤ offset ≤ height pool →
  offset + height (mjoin (shares T pool dir (idxs ++ [a]) offset)) = height pool.
Proof.
  intros Ha. revert offset. induction idxs as [|i idxs IH]; intros offset Ho; simpl.
  - rewrite app_nil_r, received_absorber by (done || lia).
    unfold height in *. rewrite length_drop. lia.
  - set (r := received T pool i offset (default [] (dir !! i))).
    destruct (received_contiguous T pool i offset (default [] (dir !! i)) Ho) as [Hle _].
    fold r in Hle.
    specialize (IH (offset + height r) ltac:(unfold height in *; lia)).
    unfold height in *. rewrite length_app. lia.
Qed.

Lemma count_rows_returns (w : world) (i : Z) (df : DataFrame) :
  out_dir w !! i = Some df → count_rows i w = (Returns (height df), w).
Proof.
  intros Hdf. unfold count_rows. run_step. cbn beta. by rewrite Hdf.
Qed.

(** The verification loop adds up the rows of the files it counts. *)
Lemma verify_loop (idxs : list Z) (acc : Z * option Z * Z) (w : world) :
  (∀ i, i ∈ idxs → is_Some (out_dir w !! i)) →
  ∃ min_count max_count t,
    for_each idxs verify acc w =
      (Returns (foldr Z.add 0 (count (out_dir w) <$> idxs) + acc.1.1, min_count, max_count),
       mkWorld (in_dir w) (out_dir w) (trace w ++ t))
    ∧ (idxs ≠ [] → is_Some min_count)
    ∧ (idxs = [] → min_count = acc.1.2).
Proof.
  revert acc w. induction idxs as [|i idxs IH]; intros [[tot mn] mx] w Hout.
  - exists mn, mx, []. simpl. rewrite app_nil_r. by destruct w.
  - destruct (Hout i ltac:(left)) as [df Hdf].
    edestruct (IH (tot + height df,
                   Some (match mn with Some m => Z.min m (height df) | None => height df end),
                   Z.max mx (height df))
                 (mkWorld (in_dir w) (out_dir w)
                    (trace w ++ [PartitionCount i (height df)])))
      as (mn' & mx' & t & Eloop & Hsome & Hnil).
    { intros j Hj. apply Hout. by right. }
    simpl in Eloop.
    exists mn', mx', (PartitionCount i (height df) :: t). split; [|split].
    + rewrite for_each_cons.
      erewrite bind_returns;
        [|unfold verify; erewrite bind_returns; [|by apply count_rows_returns];
          run_step; reflexivity].
      rewrite Eloop. simpl. unfold count at 2. rewrite Hdf. simpl.
      rewrite <- app_assoc. simpl.
      change (list_fmap Z Z (count (out_dir w)) idxs) with (count (out_dir w) <$> idxs).
      do 4 f_equal. lia.
    + intros _. destruct idxs; [|by apply Hsome]. rewrite Hnil by done. by eexists.
    + done.
Qed.

Lemma concat_returns {W} (frames : list DataFrame) (w : W) :
  frames ≠ [] → concat frames w = (Returns (mjoin frames), w).
Proof. by destruct frames. Qed.

Lemma source_shards_eq : source_shards = [0; 1; 2; 3; 4].
Proof. reflexivity. Qed.

Lemma sink_shards_eq : sink_shards = [5; 6; 7; 8; 9].
Proof. reflexivity. Qed.

Lemma all_shards_eq : range NUM_PARTITIONS = source_shards ++ sink_shards.
Proof. reflexivity. Qed.

(** A pass over ten shards of which some source shard exceeds the target:
    the pass completes; a source shard keeps its first [T] rows, a sink
    shard gets its share appended, and the shares use up the pool. *)
Lemma main_returns (T : Z) (w : world) :
  0 ≤ T →
  (∀ i, i ∈ range NUM_PARTITIONS → is_Some (in_dir w !! i)) →
  excess_frames T (in_dir w) source_shards ≠ [] →
  let pool := excess_pool T (in_dir w) in
  let given := shares T pool (in_dir w) sink_shards 0 in
  ∃ w', main T w = (Returns (), w')
        ∧ in_dir w' = in_dir w
        ∧ (∀ i, i ∈ source_shards → out_dir w' !! i = take (Z.to_nat T) <$> in_dir w !! i)
        ∧ (∀ k i, sink_shards !! k = Some i →
             ∃ df r, in_dir w !! i = Some df ∧ given !! k = Some r
                     ∧ out_dir w' !! i = Some (df ++ r))
        ∧ (∀ j, j ∉ range NUM_PARTITIONS → out_dir w' !! j = out_dir w !! j)
        ∧ mjoin given = pool
        ∧ ∃ t min_count max_count,
            trace w' = trace w ++ t ++ [Summary (total_count (out_dir w')) min_count max_count;
                                        BalancingComplete].
Proof.
  intros HT Hin Hexcess pool given.
  assert (∀ i, i ∈ source_shards → is_Some (in_dir w !! i)) as Hsrc.
  { intros i Hi. apply Hin. rewrite all_shards_eq. apply elem_of_app. by left. }
  assert (∀ i, i ∈ sink_shards → is_Some (in_dir w !! i)) as Hsnk.
  { intros i Hi. apply Hin. rewrite all_shards_eq. apply elem_of_app. by right. }
  destruct (collect_loop T source_shards [] w HT Hsrc)
    as (w1 & E1 & Hin1 & (t1 & Ht1 & _) & Hout1).
  set (w1' := mkWorld (in_dir w1) (out_dir w1)
                ((trace w1 ++ [CombiningExcess]) ++ [TotalExcess (height pool)])).
  destruct (distribute_loop T pool sink_shards 0 w1')
    as (w2 & E2 & Hin2 & [t2 Ht2] & Hother2 & Hout2).
  { apply (bool_decide_unpack _). by vm_compute. }
  { intros i Hi. cbn [in_dir w1']. rewrite Hin1. by apply Hsnk. }
  cbn [in_dir out_dir trace w1'] in E2, Hin2, Ht2, Hother2, Hout2.
  rewrite Hin1 in E2, Hin2, Hout2.
  assert (∀ i, i ∈ source_shards → out_dir w2 !! i = take (Z.to_nat T) <$> in_dir w !! i)
    as Hsources.
  { intros i Hi. rewrite Hother2, Hout1.
    - by rewrite decide_True.
    - rewrite source_shards_eq in Hi. rewrite sink_shards_eq.
      rewrite !elem_of_cons, elem_of_nil in *. lia. }
  destruct (verify_loop (range NUM_PARTITIONS) (0, None, 0) w2)
    as (mn & mx & t3 & E3 & _ & _).
  { intros i. rewrite all_shards_eq, elem_of_app. intros [Hi|Hi].
    - rewrite Hsources by done. destruct (Hsrc i Hi) as [df ->]. by eexists.
    - apply list_elem_of_lookup in Hi as [k Hk].
      destruct (Hout2 k i Hk) as (df & r & _ & _ & ->). by eexists. }
  eexists. split; [|split; [|split; [|split; [|split; [|split]]]]].
  - unfold main.
    erewrite bind_returns; [|exact E1]. rewrite app_nil_l.
    run_step.
    erewrite bind_returns; [|by apply concat_returns].
    cbv zeta. run_step.
    erewrite bind_returns; [|exact E2].
    erewrite bind_returns; [|exact E3].
    reflexivity.
  - done.
  - exact Hsources.
  - exact Hout2.
  - intros j Hj. cbn [out_dir]. rewrite all_shards_eq, not_elem_of_app in Hj.
    destruct Hj as [Hj1 Hj2]. rewrite Hother2 by done.
    rewrite Hout1. by rewrite decide_False.
  - destruct (shares_contiguous T pool (in_dir w) sink_shards 0) as [_ Hshares];
      [unfold height; lia|].
    pose proof (shares_drain T pool (in_dir w) [5; 6; 7; 8] 9 0) as Hdrain.
    change ([5; 6; 7; 8] ++ [9]) with sink_shards in Hdrain.
    rewrite Hdrain in Hshares by (unfold height; lia).
    change (Z.to_nat 0) with 0%nat in Hshares. rewrite take_0, app_nil_l in Hshares.
    unfold given. rewrite Hshares. apply take_ge. unfold height. lia.
  - cbn [trace out_dir].
    exists (t1 ++ [CombiningExcess; TotalExcess (height pool)] ++ t2 ++ t3), mn, mx.
    rewrite Ht2, Ht1. unfold total_count. cbn [fst snd]. rewrite Z.add_0_r.
    rewrite <- !app_assoc. reflexivity.
Qed.

Lemma excess_frames_nil (T : Z) (dir : gmap Z DataFrame) (idxs : list Z) :
  (∀ i df, i ∈ idxs → dir !! i = Some df → height df ≤ T) →
  excess_frames T dir idxs = [].
Proof.
  intros Hfit. unfold excess_frames.
  induction idxs as [|i idxs IH]; [done|]. rewrite bind_cons.
  rewrite IH by (intros j df Hj; apply Hfit; by right).
  destruct (dir !! i) as [df|] eqn:E; [|done].
  rewrite decide_False; [done|]. specialize (Hfit i df ltac:(left) E). lia.
Qed.

Lemma excess_frames_cons (T : Z) (dir : gmap Z DataFrame) (idxs : list Z) i df :
  i ∈ idxs → dir !! i = Some df → height df > T → excess_frames T dir idxs ≠ [].
Proof.
  intros Hi Hdf Hover. unfold excess_frames.
  induction idxs as [|j idxs IH]; [by apply elem_of_nil in Hi|].
  rewrite bind_cons. apply elem_of_cons in Hi as [<-|Hi].
  - by rewrite Hdf, decide_True.
  - intros [_ Hnil]%app_eq_nil. by apply IH.
Qed.

(** Every share of the Distribute loop is what [received] cuts at some
    cursor position inside the pool. *)
Lemma shares_lookup (T : Z) (pool : DataFrame) (dir : gmap Z DataFrame)
    (idxs : list Z) (offset : Z) (k : nat) (i : Z) (r : DataFrame) :
  0 ≤ offset ≤ height pool →
  idxs !! k = Some i → shares T pool dir idxs offset !! k = Some r →
  ∃ cursor, 0 ≤ cursor ≤ height pool
            ∧ r = received T pool i cursor (default [] (dir !! i)).
Proof.
  revert offset k. induction idxs as [|j idxs IH]; intros offset k Ho Hk Hr; [done|].
  destruct k as [|k]; simpl in Hk, Hr.
  - injection Hk as ->. injection Hr as <-. by exists offset.
  - eapply IH; [|exact Hk|exact Hr].
    destruct (received_contiguous T pool j offset (default [] (dir !! j)) Ho) as [Hle _].
    unfold height in *. lia.
Qed.
End balancer_facts.

Section balancer_contract.
Import BalancePartitions BalanceExample.

(** C3.  In the Distribute step a sink shard other than the last pulls
    exactly [min(deficit, remaining_pool)] rows at the pool cursor when its
    deficit is positive and the pool is not exhausted, and none otherwise;
    the last sink shard, the absorber, receives all the rows that remain;
    so the loop over the sink shards ends with the cursor at the end of the
    pool, the rows handed out being the pool, in order.  With five source
    shards of 12 rows, [T = 10] and sink shards of 7 rows the pool has 10
    rows, the sinks below the absorber end at 10, 10, 10 and 8 rows and the
    absorber stays at 7. *)
Theorem distribute_drains_pool :
  (∀ (T : Z) (pool : DataFrame) (i offset : Z) (w : world) (df : DataFrame),
     i < absorber → 0 ≤ offset ≤ height pool → in_dir w !! i = Some df →
     let deficit := T - height df in
     let remaining := height pool - offset in
     let pulled := if decide (0 < deficit ∧ 0 < remaining)
                   then Z.min deficit remaining else 0 in
     ∃ w', distribute T pool (height pool) i offset w = (Returns (offset + pulled), w')
           ∧ out_dir w' !! i = Some (df ++ slice pool offset pulled)
           ∧ height (slice pool offset pulled) = pulled)
  ∧ (∀ (T : Z) (pool : DataFrame) (offset : Z) (w : world) (df : DataFrame),
       0 ≤ offset ≤ height pool → in_dir w !! absorber = Some df →
       ∃ w', distribute T pool (height pool) absorber offset w = (Returns (height pool), w')
             ∧ out_dir w' !! absorber = Some (df ++ drop (Z.to_nat offset) pool))
  ∧ (∀ (T : Z) (pool : DataFrame) (w : world),
       (∀ i, i ∈ sink_shards → is_Some (in_dir w !! i)) →
       ∃ w' given,
         for_each sink_shards (distribute T pool (height pool)) 0 w
           = (Returns (height pool), w')
         ∧ mjoin given = pool
         ∧ ∀ k i, sink_shards !! k = Some i →
             ∃ df r, in_dir w !! i = Some df ∧ given !! k = Some r
                     ∧ out_dir w' !! i = Some (df ++ r))
  ∧ ((main 10 insufficient_excess).1 = Returns ()
     ∧ count (in_dir insufficient_excess) <$> source_shards = [12; 12; 12; 12; 12]
     ∧ count (in_dir insufficient_excess) <$> sink_shards = [7; 7; 7; 7; 7]
     ∧ height (excess_pool 10 (in_dir insufficient_excess)) = 10
     ∧ count (out_dir (main 10 insufficient_excess).2) <$> sink_shards = [10; 10; 10; 8; 7]).
Proof.
  split; [|split; [|split; [|by vm_compute]]].
  - intros T pool i offset w df Hi Ho Hdf deficit remaining pulled.
    destruct (distribute_returns T pool i offset w df Hdf) as [t E].
    rewrite received_sink in E by (unfold absorber in Hi; lia).
    fold deficit remaining in E.
    assert (height (slice pool offset pulled) = pulled) as Hpulled.
    { unfold pulled. case_decide.
      - rewrite height_slice by lia. unfold remaining in *. lia.
      - done. }
    assert ((if decide (0 < deficit ∧ 0 < remaining)
             then slice pool offset (deficit `min` remaining) else [])
            = slice pool offset pulled) as Hslice.
    { unfold pulled. case_decide; [done|]. unfold slice. by rewrite take_0. }
    rewrite Hslice, Hpulled in E.
    eexists. split; [exact E|]. split; [|done]. cbn [out_dir]. apply lookup_insert_eq.
  - intros T pool offset w df Ho Hdf.
    destruct (distribute_returns T pool absorber offset w df Hdf) as [t E].
    rewrite received_absorber in E by (unfold absorber; lia).
    assert (offset + height (drop (Z.to_nat offset) pool) = height pool) as Hend.
    { unfold height in *. rewrite length_drop. lia. }
    rewrite Hend in E.
    eexists. split; [exact E|]. cbn [out_dir]. apply lookup_insert_eq.
  - intros T pool w Hin.
    destruct (distribute_loop T pool sink_shards 0 w) as (w' & E & _ & _ & _ & Hout);
      [by apply (bool_decide_unpack _); vm_compute|done|].
    exists w', (shares T pool (in_dir w) sink_shards 0).
    destruct (shares_contiguous T pool (in_dir w) sink_shards 0) as [_ Hshares];
      [unfold height; lia|].
    pose proof (shares_drain T pool (in_dir w) [5; 6; 7; 8] 9 0) as Hdrain.
    change ([5; 6; 7; 8] ++ [9]) with sink_shards in Hdrain.
    rewrite Hdrain in Hshares, E by (unfold height; lia).
    change (Z.to_nat 0) with 0%nat in Hshares. rewrite take_0, app_nil_l in Hshares.
    split; [done|]. split; [|done].
    rewrite Hshares. apply take_ge. unfold height. lia.
Qed.

Lemma distribute_drains_pool_witness :
  (8 < absorber
   ∧ 0 ≤ 9 ≤ height (excess_pool 10 (in_dir insufficient_excess))
   ∧ ∃ w', distribute 10 (excess_pool 10 (in_dir insufficient_excess))
             (height (excess_pool 10 (in_dir insufficient_excess))) 8 9 insufficient_excess
           = (Returns (9 + 1), w'))
  ∧ ((∀ i, i ∈ sink_shards → is_Some (in_dir insufficient_excess !! i))
     ∧ ∃ w' given,
         for_each sink_shards
           (distribute 10 (excess_pool 10 (in_dir insufficient_excess))
              (height (excess_pool 10 (in_dir insufficient_excess)))) 0 insufficient_excess
         = (Returns (height (excess_pool 10 (in_dir insufficient_excess))), w')
         ∧ mjoin given = excess_pool 10 (in_dir insufficient_excess)).
Proof.
  assert (∀ i, i ∈ sink_shards → is_Some (in_dir insufficient_excess !! i)) as Hin.
  { intros i Hi. rewrite sink_shards_eq, !elem_of_cons, elem_of_nil in Hi.
    destruct Hi as [->|[->|[->|[->|[->|[]]]]]]; eexists; vm_compute; reflexivity. }
  split.
  - split; [by vm_compute|]. split; [by vm_compute|].
    destruct (proj1 distribute_drains_pool 10
                (excess_pool 10 (in_dir insufficient_excess)) 8 9 insufficient_excess
                (SampleData.docs "shard8" 7)
                ltac:(by vm_compute) ltac:(by vm_compute) ltac:(by vm_compute))
      as (w' & E & _).
    exists w'. exact E.
  - split; [exact Hin|].
    destruct (proj1 (proj2 (proj2 distribute_drains_pool)) 10
                (excess_pool 10 (in_dir insufficient_excess)) insufficient_excess Hin)
      as (w' & given & E & Hpool & _).
    exists w', given. by split.
Defined.

(** C4 as the specification words it would cap every sink shard below the
    absorber at [T]: a sink shard that starts with 11 rows ends with 11
    rows when [T = 10]. *)
Lemma oversized_sink_is_not_capped :
  ¬ ((main 10 oversized_sink).1 = Returns () →
     ∀ i, i ∈ sink_shards → i ≠ absorber →
          count (out_dir (main 10 oversized_sink).2) i ≤ 10).
Proof.
  intros Hcap. specialize (Hcap ltac:(by vm_compute) 5 ltac:(by left) ltac:(done)).
  vm_compute in Hcap. by apply Hcap.
Qed.

(** C4 (as amended).  After a Balancer pass over ten shards of which some
    source shard exceeds [T], the pass having completed: a source shard
    that started above [T] holds exactly its first [T] rows in their
    order, a source shard that started at or below [T] is unchanged; a sink
    shard other than the absorber that started at or below [T] ends with
    at most [T] rows, its own rows first, and one that started above [T] is
    unchanged. *)
Theorem balancer_caps :
  ∀ (T : Z) (w : world),
    0 ≤ T →
    (∀ i, i ∈ range NUM_PARTITIONS → is_Some (in_dir w !! i)) →
    (∃ i df, i ∈ source_shards ∧ in_dir w !! i = Some df ∧ height df > T) →
    ∃ w', main T w = (Returns (), w')
          ∧ (∀ i, i ∈ source_shards →
               ∃ df, in_dir w !! i = Some df
                     ∧ (height df > T →
                        out_dir w' !! i = Some (head df T) ∧ count (out_dir w') i = T)
                     ∧ (height df ≤ T → out_dir w' !! i = Some df))
          ∧ (∀ i, i ∈ sink_shards → i ≠ absorber →
               ∃ df r, in_dir w !! i = Some df ∧ out_dir w' !! i = Some (df ++ r)
                       ∧ (height df ≤ T → count (out_dir w') i ≤ T)
                       ∧ (height df > T → r = [])).
Proof.
  intros T w HT Hin (i0 & df0 & Hi0 & Hdf0 & Hover).
  destruct (main_returns T w HT Hin) as (w' & E & _ & Hsrc & Hsnk & _).
  { by eapply excess_frames_cons. }
  exists w'. split; [done|]. split.
  - intros i Hi. destruct (Hin i) as [df Hdf].
    { rewrite all_shards_eq. apply elem_of_app. by left. }
    exists df. split; [done|]. specialize (Hsrc i Hi). rewrite Hdf in Hsrc. simpl in Hsrc.
    split.
    + intros Hgt. split; [done|]. unfold count. rewrite Hsrc. simpl.
      unfold height in *. rewrite length_take. lia.
    + intros Hle. by rewrite Hsrc, take_all_rows.
  - intros i Hi Hne. apply list_elem_of_lookup in Hi as [k Hk].
    destruct (Hsnk k i Hk) as (df & r & Hdf & Hr & Hout).
    exists df, r. split; [done|]. split; [done|].
    destruct (shares_lookup T (excess_pool T (in_dir w)) (in_dir w) sink_shards 0 k i r)
      as (cursor & Hc & ->); [unfold height; lia|done|done|].
    assert (i < 9) as Hlt.
    { apply list_elem_of_lookup_2 in Hk. unfold absorber in Hne.
      rewrite sink_shards_eq, !elem_of_cons, elem_of_nil in Hk. lia. }
    rewrite Hdf. simpl. rewrite received_sink by lia. split.
    + intros Hle. unfold count. rewrite Hout, Hdf. simpl.
      rewrite received_sink by lia.
      case_decide.
      * unfold height at 1. rewrite length_app.
        pose proof (height_slice (excess_pool T (in_dir w)) cursor
                      ((T - height df) `min` (height (excess_pool T (in_dir w)) - cursor))
                      ltac:(lia) ltac:(lia)) as Hs.
        unfold height in *. lia.
      * by rewrite app_nil_r.
    + intros Hgt. rewrite decide_False; [done|]. lia.
Qed.

Lemma balancer_caps_witness :
  0 ≤ 10
  ∧ (∃ i df, i ∈ source_shards ∧ in_dir oversized_sink !! i = Some df ∧ height df > 10)
  ∧ ∃ w', main 10 oversized_sink = (Returns (), w')
          ∧ (∀ i, i ∈ sink_shards → i ≠ absorber →
               ∃ df r, in_dir oversized_sink !! i = Some df
                       ∧ out_dir w' !! i = Some (df ++ r)
                       ∧ (height df ≤ 10 → count (out_dir w') i ≤ 10)
                       ∧ (height df > 10 → r = [])).
Proof.
  assert (∀ i, i ∈ range NUM_PARTITIONS → is_Some (in_dir oversized_sink !! i)) as Hin.
  { intros i Hi. rewrite all_shards_eq, source_shards_eq, sink_shards_eq in Hi.
    simpl in Hi. rewrite !elem_of_cons, elem_of_nil in Hi.
    destruct Hi as [->|[->|[->|[->|[->|[->|[->|[->|[->|[->|[]]]]]]]]]]];
      eexists; vm_compute; reflexivity. }
  assert (∃ i df, i ∈ source_shards ∧ in_dir oversized_sink !! i = Some df ∧ height df > 10)
    as Hover.
  { exists 0, (SampleData.docs "shard0" 12). split; [by left|]. by vm_compute. }
  split; [lia|]. split; [exact Hover|].
  destruct (balancer_caps 10 oversized_sink ltac:(lia) Hin Hover) as (w' & E & _ & Hsnk).
  exists w'. by split.
Defined.

(** C10.  If no source shard (partitions 00-04) has more than [T] rows, the
    Balancer raises at the concatenation of the - empty - list of excess
    frames: the source shards have been copied unchanged, no sink shard is
    read or written, and the last line logged is the one that announces the
    concatenation. *)
Theorem balancer_aborts_without_excess :
  ∀ (T : Z) (w : world),
    (∀ i, i ∈ source_shards → ∃ df, in_dir w !! i = Some df ∧ height df ≤ T) →
    ∃ w', main T w = (Raises (ValueError "cannot concat empty list"), w')
          ∧ in_dir w' = in_dir w
          ∧ (∀ i, i ∈ source_shards → out_dir w' !! i = in_dir w !! i)
          ∧ (∀ j, j ∉ source_shards → out_dir w' !! j = out_dir w !! j)
          ∧ ∃ t, trace w' = trace w ++ t ++ [CombiningExcess]
                 ∧ ∀ i, i ∈ sink_shards → ProcessingPartition i ∉ t.
Proof.
  intros T w Hfit.
  assert (0 ≤ T) as HT.
  { destruct (Hfit 0 ltac:(by left)) as (df & _ & Hle). unfold height in Hle. lia. }
  destruct (collect_loop T source_shards [] w HT)
    as (w1 & E1 & Hin1 & (t1 & Ht1 & Hpp) & Hout1).
  { intros i Hi. destruct (Hfit i Hi) as (df & -> & _). by eexists. }
  rewrite excess_frames_nil in E1.
  2:{ intros i df Hi Hdf. destruct (Hfit i Hi) as (df' & Hdf' & Hle). congruence. }
  exists (mkWorld (in_dir w1) (out_dir w1) (trace w1 ++ [CombiningExcess])).
  split; [|split; [done|split; [|split]]].
  - unfold main. erewrite bind_returns; [|exact E1]. by run_step.
  - intros i Hi. cbn [out_dir]. rewrite Hout1, decide_True by done.
    destruct (Hfit i Hi) as (df & -> & Hle). simpl. by rewrite take_all_rows.
  - intros j Hj. cbn [out_dir]. by rewrite Hout1, decide_False.
  - exists t1. cbn [trace]. rewrite Ht1, <- app_assoc. split; [done|].
    intros i Hi Hin. apply Hpp in Hin.
    rewrite source_shards_eq, sink_shards_eq, !elem_of_cons, elem_of_nil in *. lia.
Qed.

Lemma balancer_aborts_without_excess_witness :
  (∀ i, i ∈ source_shards →
        ∃ df, in_dir already_balanced !! i = Some df ∧ height df ≤ 10)
  ∧ ∃ w', main 10 already_balanced = (Raises (ValueError "cannot concat empty list"), w')
          ∧ (∀ j, j ∉ source_shards → out_dir w' !! j = out_dir already_balanced !! j).
Proof.
  assert (∀ i, i ∈ source_shards →
               ∃ df, in_dir already_balanced !! i = Some df ∧ height df ≤ 10) as Hfit.
  { intros i Hi. rewrite source_shards_eq, !elem_of_cons, elem_of_nil in Hi.
    destruct Hi as [->|[->|[->|[->|[->|[]]]]]]; eexists; by vm_compute. }
  split; [exact Hfit|].
  destruct (balancer_aborts_without_excess 10 already_balanced Hfit)
    as (w' & E & _ & _ & Hother & _).
  exists w'. by split.
Defined.

(** C2 at an input the Balancer loses rows on.  Ten shards that are already
    balanced, ten rows each, with the target of the source
    ([TARGET_DOCS_PER_FILE = 1_000_000]) and also with a target of ten rows:
    the pass raises at the concatenation of the excess after copying the
    five source shards, the five sink shards never reach the output folder,
    and the output holds 50 of the 100 rows. *)
Theorem balanced_input_loses_sink_shards :
  Forall (λ T,
            (main T already_balanced).1 = Raises (ValueError "cannot concat empty list")
            ∧ total_count (in_dir already_balanced) = 100
            ∧ total_count (out_dir (main T already_balanced).2) = 50
            ∧ ids (all_rows (out_dir (main T already_balanced).2))
              = ids (source_shards ≫= (λ i, default [] (in_dir already_balanced !! i)))
            ∧ Forall (λ i, out_dir (main T already_balanced).2 !! i = None) sink_shards)
         [TARGET_DOCS_PER_FILE; 10].
Proof.
  repeat constructor; try (by vm_compute).
Qed.
End balancer_contract.



(** ** The Streaming Merger *)

Section merger_facts.
Import MergePartitions.

Lemma batches_of_join (fuel n : nat) (rows : DataFrame) :
  (0 < n)%nat → (length rows ≤ fuel)%nat → mjoin (batches_of fuel n rows) = rows.
Proof.
  intros Hn. revert rows. induction fuel as [|fuel IH]; intros rows Hfuel.
  - destruct rows; [done|simpl in Hfuel; lia].
  - destruct rows as [|r rows]; [done|].
    cbn [batches_of].
    change (mjoin (?x :: ?l)) with (x ++ mjoin l). rewrite IH.
    + apply take_drop.
    + rewrite length_drop. simpl in *. lia.
Qed.

Lemma iter_batches_join (rows : DataFrame) : mjoin (iter_batches BATCH_SIZE rows) = rows.
Proof. apply batches_of_join; [unfold BATCH_SIZE; lia|done]. Qed.

Lemma heights_sum (bs : list DataFrame) :
  foldr Z.add 0 (height <$> bs) = height (mjoin bs).
Proof.
  induction bs as [|b bs IH]; [done|].
  rewrite fmap_cons. cbn [foldr]. rewrite IH.
  change (mjoin (b :: bs)) with (b ++ mjoin bs).
  unfold height. rewrite length_app. lia.
Qed.

Lemma same_env_refl w : same_env w w.
Proof. done. Qed.

Lemma same_env_trans w1 w2 w3 : same_env w1 w2 → same_env w2 w3 → same_env w1 w3.
Proof. intros [? ?] [? ?]. split; congruence. Qed.

(** One batch: written and counted, unless the writer cannot be opened. *)
Lemma write_batch_outcome (path : Z) (batch : DataFrame) (file_docs : Z) (w : world) :
  ∃ w', same_env w w' ∧ trace w' = trace w
        ∧ (write_batch path batch file_docs w = (Returns (file_docs + height batch), w')
           ∨ (path ∈ read_only w
              ∧ write_batch path batch file_docs w = (Raises (OSError path), w'))).
Proof.
  unfold write_batch. run_step. cbn beta.
  destruct (writer w) as [h|] eqn:Eh.
  - exists (set_out_dir (alter (λ rows, rows ++ batch) h (out_dir w)) w).
    split; [done|]. split; [done|]. left.
    run_step. erewrite bind_returns; [reflexivity|].
    unfold write_table, modify. by rewrite Eh.
  - unfold ParquetWriter.
    destruct (decide (path ∈ read_only w)) as [Hro|Hrw].
    + exists w. split; [done|]. split; [done|]. right. split; [done|].
      erewrite bind_raises; [done|]. run_step. cbn beta. by rewrite decide_True.
    + exists (set_out_dir (alter (λ rows, rows ++ batch) path (<[path := []]> (out_dir w)))
                (set_writer (Some path) w)).
      split; [done|]. split; [done|]. left.
      erewrite bind_returns.
      2:{ run_step. cbn beta. rewrite decide_False by done. reflexivity. }
      run_step. reflexivity.
Qed.

Lemma stream_batches (path : Z) (bs : list DataFrame) (file_docs : Z) (w : world) :
  ∃ w', same_env w w' ∧ trace w' = trace w
        ∧ (for_each bs (write_batch path) file_docs w
             = (Returns (file_docs + height (mjoin bs)), w')
           ∨ (path ∈ read_only w
              ∧ for_each bs (write_batch path) file_docs w = (Raises (OSError path), w'))).
Proof.
  revert file_docs w. induction bs as [|b bs IH]; intros file_docs w.
  - exists w. split; [done|]. split; [done|]. left.
    change (height (mjoin [])) with 0. by rewrite Z.add_0_r.
  - destruct (write_batch_outcome path b file_docs w) as (w1 & Henv1 & Ht1 & [E1|[Hro E1]]).
    + destruct (IH (file_docs + height b) w1) as (w2 & Henv2 & Ht2 & [E2|[Hro E2]]).
      * exists w2. split; [by eapply same_env_trans|]. split; [congruence|]. left.
        rewrite for_each_cons. erewrite bind_returns; [|exact E1]. rewrite E2.
        do 2 f_equal. change (mjoin (b :: bs)) with (b ++ mjoin bs).
        unfold height. rewrite length_app. lia.
      * exists w2. split; [by eapply same_env_trans|]. split; [congruence|]. right.
        destruct Henv1 as [_ Hro1]. split; [congruence|].
        rewrite for_each_cons. erewrite bind_returns; [|exact E1]. exact E2.
    + exists w1. split; [done|]. split; [done|]. right. split; [done|].
      rewrite for_each_cons. erewrite bind_raises; [done|exact E1].
Qed.

(** One partition file: it returns its number of rows when it is readable
    and the writer opens; otherwise it raises an [Exception]. *)
Lemma stream_file_outcome (pf : part_file) (path : Z) (w : world) :
  ∃ w', same_env w w' ∧ trace w' = trace w
        ∧ ((∃ rows, pf = Readable rows
                    ∧ stream_file pf path w = (Returns (height rows), w'))
           ∨ (∃ e, stream_file pf path w = (Raises e, w')
                   ∧ (∀ code, e ≠ SystemExit code)
                   ∧ (path ∈ read_only w ∨ ∃ rows, pf = Corrupt rows))).
Proof.
  unfold stream_file. destruct pf as [rows|rows].
  - destruct (stream_batches path (iter_batches BATCH_SIZE rows) 0 w)
      as (w' & Henv & Ht & [E|[Hro E]]); exists w'; (split; [done|]); (split; [done|]).
    + left. exists rows. split; [done|]. erewrite bind_returns; [|exact E].
      by rewrite iter_batches_join.
    + right. exists (OSError path). split; [|split; [done|by left]].
      erewrite bind_raises; [done|exact E].
  - destruct (stream_batches path (iter_batches BATCH_SIZE rows) 0 w)
      as (w' & Henv & Ht & [E|[Hro E]]); exists w'; (split; [done|]); (split; [done|]).
    + right. exists (ValueError "corrupt parquet file").
      split; [|split; [done|right; by exists rows]].
      erewrite bind_returns; [|exact E]. done.
    + right. exists (OSError path). split; [|split; [done|by left]].
      erewrite bind_raises; [done|exact E].
Qed.

Lemma warnings_app t1 t2 : warnings (t1 ++ t2) = warnings t1 ++ warnings t2.
Proof. apply omap_app. Qed.

Lemma marks_app t1 t2 : marks (t1 ++ t2) = marks t1 ++ marks t2.
Proof. apply omap_app. Qed.

(** One account directory: never an exception; a warning when the file is
    missing; the rows counted when the file is read to its end. *)
Lemma merge_account_outcome (idx path : Z) (d : dir_entry) (total accounts : Z) (w : world) :
  ∃ w' t total' accounts',
    merge_account idx path d (total, accounts) w = (Returns (total', accounts'), w')
    ∧ same_env w w' ∧ trace w' = trace w ++ t
    ∧ warnings t = missing_files idx [d] ∧ marks t = []
    ∧ (path ∉ read_only w →
       total' = total + height (default [] (rows_read idx d))
       ∧ accounts' = accounts + Z.of_nat (length (omap (rows_read idx) [d]))).
Proof.
  unfold merge_account, missing_files, rows_read. cbn [omap list_omap].
  destruct (files d !! (extract_account_id d, idx)) as [pf|] eqn:Epf.
  - destruct (stream_file_outcome pf path w) as (w1 & Henv & Ht & [(rows & -> & E)|(e & E & He & Hwhy)]).
    + destruct (decide ((accounts + 1) `mod` 10 = 0)) as [Hten|Hten].
      * exists (mkWorld (base_dir w1) (out_dir w1) (read_only w1) (writer w1)
                  (trace w1 ++ [Processed (accounts + 1) (total + height rows)])),
          [Processed (accounts + 1) (total + height rows)], (total + height rows), (accounts + 1).
        split; [|split; [done|split; [by rewrite <- Ht|split; [done|split; [done|]]]]].
        -- unfold try_except. erewrite bind_returns; [|exact E]. reflexivity.
        -- intros _. unfold height. simpl. split; lia.
      * exists w1, [], (total + height rows), (accounts + 1).
        split; [|split; [done|split; [by rewrite app_nil_r|split; [done|split; [done|]]]]].
        -- unfold try_except. erewrite bind_returns; [|exact E]. reflexivity.
        -- intros _. unfold height. simpl. split; lia.
    + exists (mkWorld (base_dir w1) (out_dir w1) (read_only w1) (writer w1)
                (trace w1 ++ [ErrorReading (name d) (extract_account_id d) idx e])),
        [ErrorReading (name d) (extract_account_id d) idx e], total, accounts.
      split; [|split; [done|split; [by rewrite <- Ht|split; [done|split; [done|]]]]].
      * unfold try_except. erewrite bind_raises; [|exact E].
        destruct e; try reflexivity. by destruct (He code).
      * intros Hrw. destruct Hwhy as [Hro|[rows ->]]; [done|].
        change (height (default [] None)) with 0. simpl. split; lia.
  - exists (mkWorld (base_dir w) (out_dir w) (read_only w) (writer w)
              (trace w ++ [WarningMissing (name d) (extract_account_id d) idx])),
      [WarningMissing (name d) (extract_account_id d) idx], total, accounts.
    split; [reflexivity|]. split; [done|]. split; [done|]. split; [done|]. split; [done|].
    intros _. change (height (default [] None)) with 0. simpl. split; lia.
Qed.

Lemma merge_accounts_outcome (idx path : Z) (ds : list dir_entry) (total accounts : Z)
    (w : world) :
  ∃ w' t total' accounts',
    for_each ds (merge_account idx path) (total, accounts) w = (Returns (total', accounts'), w')
    ∧ same_env w w' ∧ trace w' = trace w ++ t
    ∧ warnings t = missing_files idx ds ∧ marks t = []
    ∧ (path ∉ read_only w →
       total' = total + docs_read idx ds ∧ accounts' = accounts + files_read idx ds).
Proof.
  revert total accounts w. induction ds as [|d ds IH]; intros total accounts w.
  - exists w, [], total, accounts. rewrite app_nil_r.
    repeat (split; [done|]). intros _. unfold docs_read, files_read. simpl. lia.
  - destruct (merge_account_outcome idx path d total accounts w)
      as (w1 & t1 & total1 & accounts1 & E1 & Henv1 & Ht1 & Hw1 & Hm1 & Hsum1).
    destruct (IH total1 accounts1 w1)
      as (w2 & t2 & total2 & accounts2 & E2 & Henv2 & Ht2 & Hw2 & Hm2 & Hsum2).
    exists w2, (t1 ++ t2), total2, accounts2.
    split; [|split; [by eapply same_env_trans|split; [|split; [|split]]]].
    + rewrite for_each_cons. erewrite bind_returns; [|exact E1]. exact E2.
    + by rewrite Ht2, Ht1, app_assoc.
    + rewrite warnings_app, Hw1, Hw2. unfold missing_files. cbn [omap list_omap].
      by destruct (files d !! (extract_account_id d, idx)).
    + by rewrite marks_app, Hm1, Hm2.
    + intros Hrw. destruct (Hsum1 Hrw) as [-> ->].
      destruct Henv1 as [_ Hro1]. rewrite <- Hro1 in Hrw.
      destruct (Hsum2 Hrw) as [-> ->].
      unfold docs_read, files_read. rewrite fmap_cons. cbn [foldr omap list_omap].
      destruct (rows_read idx d); simpl; rewrite ?length_cons; lia.
Qed.

(** The merge of one partition. *)
Lemma merge_partition_outcome (idx : Z) (ds : list dir_entry) (path : Z) (w : world) :
  ∃ w' t total accounts,
    merge_partition idx ds path w = (Returns total, w')
    ∧ same_env w w'
    ∧ trace w' = trace w ++ [MergeStarting idx] ++ t ++ [MergeComplete idx total accounts]
    ∧ warnings t = missing_files idx ds ∧ marks t = []
    ∧ (path ∉ read_only w → total = docs_read idx ds ∧ accounts = files_read idx ds).
Proof.
  destruct (merge_accounts_outcome idx path ds 0 0
              (set_writer None (mkWorld (base_dir w) (out_dir w) (read_only w) (writer w)
                                  (trace w ++ [MergeStarting idx]))))
    as (w1 & t & total & accounts & E & Henv & Ht & Hw & Hm & Hsum).
  exists (mkWorld (base_dir w1) (out_dir w1) (read_only w1) None
            (trace w1 ++ [MergeComplete idx total accounts])), t, total, accounts.
  split; [|split; [exact Henv|split; [|split; [done|split; [done|]]]]].
  - unfold merge_partition. do 2 run_step.
    erewrite bind_returns; [|exact E]. reflexivity.
  - cbn [trace]. rewrite Ht. cbn [trace set_writer]. by rewrite <- !app_assoc.
  - intros Hrw. destruct (Hsum Hrw) as [-> ->]. lia.
Qed.
End merger_facts.

(** ** The Shuffler *)

Section shuffler_facts.
Import MergePartitions.
Context (gen_index : Z → nat → nat → nat).

Lemma swap_Permutation (i j : nat) (idx : list nat) : swap i j idx ≡ₚ idx.
Proof.
  unfold swap. destruct (idx !! i) as [x|] eqn:Ei; [|done].
  destruct (idx !! j) as [y|] eqn:Ej; [|done].
  by apply Permutation_insert_swap.
Qed.

Lemma shuffle_from_Permutation (seed : Z) (call i : nat) (idx : list nat) :
  shuffle_from gen_index seed call i idx ≡ₚ idx.
Proof.
  revert call idx. induction i as [|i IH]; intros call idx; [done|].
  cbn [shuffle_from]. rewrite IH. apply swap_Permutation.
Qed.

Lemma gather_all (df : DataFrame) : omap (λ i, df !! i) (seq 0 (length df)) = df.
Proof.
  induction df as [|r df IH] using rev_ind; [done|].
  rewrite length_app, seq_app, omap_app. cbn [length seq Nat.add omap list_omap].
  rewrite lookup_app_r, Nat.sub_diag by lia. cbn [lookup list_lookup].
  f_equal. rewrite <- IH at 2.
  apply list_omap_ext, Forall_Forall2_diag, Forall_forall.
  intros i Hi%elem_of_seq. apply lookup_app_l. lia.
Qed.

(** Sampling the whole frame without replacement rearranges its rows. *)
Lemma sample_Permutation (df : DataFrame) (seed : Z) : sample gen_index df seed ≡ₚ df.
Proof.
  unfold sample. rewrite shuffle_from_Permutation. by rewrite gather_all.
Qed.

(** The three ways a shuffle ends. *)
Lemma shuffle_file_missing (path : Z) (w : world) :
  out_dir w !! path = None →
  shuffle_file gen_index path w =
    (Returns 0,
     mkWorld (base_dir w) (out_dir w) (read_only w) (writer w)
       (trace w ++ [ShuffleStarting path; ErrorDuringShuffle path (FileNotFoundError path)])).
Proof.
  intros Hnone. unfold shuffle_file. run_step.
  unfold try_except. erewrite bind_raises.
  2:{ unfold read_parquet. run_step. cbn beta. cbn [out_dir]. rewrite Hnone. reflexivity. }
  repeat run_step. unfold mret, prog_mret, ret. cbn. rewrite <- ?app_assoc. reflexivity.
Qed.

Lemma shuffle_file_refused (path : Z) (w : world) (df : DataFrame) :
  out_dir w !! path = Some df → path ∈ read_only w →
  shuffle_file gen_index path w =
    (Returns 0,
     mkWorld (base_dir w) (out_dir w) (read_only w) (writer w)
       (trace w ++ [ShuffleStarting path; LoadedRows path (height df); ShuffledRows path;
                    ErrorDuringShuffle path (OSError path)])).
Proof.
  intros Hdf Hro. unfold shuffle_file. run_step.
  unfold try_except. erewrite bind_returns.
  2:{ unfold read_parquet. run_step. cbn beta. cbn [out_dir]. rewrite Hdf. reflexivity. }
  cbv zeta. do 2 run_step. erewrite bind_raises.
  2:{ unfold write_parquet. run_step. cbn beta. cbn [read_only].
      rewrite decide_True by done. reflexivity. }
  repeat run_step. unfold mret, prog_mret, ret. cbn. rewrite <- ?app_assoc. reflexivity.
Qed.

Lemma shuffle_file_written (path : Z) (w : world) (df : DataFrame) :
  out_dir w !! path = Some df → path ∉ read_only w →
  shuffle_file gen_index path w =
    (Returns (height df),
     mkWorld (base_dir w) (<[path := sample gen_index df 42]> (out_dir w)) (read_only w)
       (writer w)
       (trace w ++ [ShuffleStarting path; LoadedRows path (height df); ShuffledRows path;
                    WrittenBack path])).
Proof.
  intros Hdf Hrw. unfold shuffle_file. run_step.
  unfold try_except. erewrite bind_returns.
  2:{ unfold read_parquet. run_step. cbn beta. cbn [out_dir]. rewrite Hdf. reflexivity. }
  cbv zeta. do 2 run_step. erewrite bind_returns.
  2:{ unfold write_parquet. run_step. cbn beta. cbn [read_only].
      rewrite decide_False by done. reflexivity. }
  repeat run_step. unfold mret, prog_mret, ret. cbn. rewrite <- ?app_assoc. reflexivity.
Qed.

(** However a shuffle ends, it returns, leaves the environment alone and
    logs its beginning and its end. *)
Lemma shuffle_file_outcome (path : Z) (w : world) :
  ∃ rows w' t,
    shuffle_file gen_index path w = (Returns rows, w')
    ∧ same_env w w' ∧ trace w' = trace w ++ t
    ∧ marks t = [ShuffleBegins path; ShuffleEnds path].
Proof.
  destruct (out_dir w !! path) as [df|] eqn:Edf.
  - destruct (decide (path ∈ read_only w)) as [Hro|Hrw].
    + eexists _, _, _. split; [by apply shuffle_file_refused|]. done.
    + eexists _, _, _. split; [by apply shuffle_file_written|]. done.
  - eexists _, _, _. split; [by apply shuffle_file_missing|]. done.
Qed.
End shuffler_facts.

(** ** The merge-and-shuffle run *)

Section merge_run_facts.
Import MergePartitions.
Context (gen_index : Z → nat → nat → nat).

Lemma process_partition_outcome (ds : list dir_entry) (idx : Z) (counts : gmap Z Z) (w : world) :
  ∃ w' t counts',
    process_partition gen_index ds idx counts w = (Returns counts', w')
    ∧ same_env w w' ∧ trace w' = trace w ++ t
    ∧ marks t = shard_by_shard [idx].
Proof.
  unfold process_partition. run_step.
  destruct (merge_partition_outcome idx ds idx
              (mkWorld (base_dir w) (out_dir w) (read_only w) (writer w)
                 (trace w ++ [PartitionHeader idx])))
    as (w1 & t1 & total & accounts & E1 & Henv1 & Ht1 & _ & Hm1 & _).
  set (w1' := mkWorld (base_dir w1) (out_dir w1) (read_only w1) (writer w1)
                (trace w1 ++ [Sleeping SLEEP_AFTER_MERGE])).
  destruct (shuffle_file_outcome gen_index idx w1') as (rows & w2 & t2 & E2 & Henv2 & Ht2 & Hm2).
  destruct (decide (idx < NUM_PARTITIONS - 1)) as [Hlt|Hge].
  - exists (mkWorld (base_dir w2) (out_dir w2) (read_only w2) (writer w2)
              (trace w2 ++ [Sleeping SLEEP_AFTER_SHUFFLE])),
      ([PartitionHeader idx; MergeStarting idx] ++ t1 ++ [MergeComplete idx total accounts]
       ++ [Sleeping SLEEP_AFTER_MERGE] ++ t2 ++ [Sleeping SLEEP_AFTER_SHUFFLE]),
      (<[idx := total]> counts).
    split; [|split; [|split]].
    + erewrite bind_returns; [|exact E1]. cbv zeta. run_step.
      erewrite bind_returns; [|exact E2]. reflexivity.
    + eapply same_env_trans; [exact Henv1|]. exact Henv2.
    + cbn [trace]. rewrite Ht2. cbn [trace w1']. rewrite Ht1. cbn [trace].
      rewrite <- !app_assoc. reflexivity.
    + rewrite !marks_app, Hm1, Hm2. reflexivity.
  - exists w2,
      ([PartitionHeader idx; MergeStarting idx] ++ t1 ++ [MergeComplete idx total accounts]
       ++ [Sleeping SLEEP_AFTER_MERGE] ++ t2),
      (<[idx := total]> counts).
    split; [|split; [|split]].
    + erewrite bind_returns; [|exact E1]. cbv zeta. run_step.
      erewrite bind_returns; [|exact E2]. reflexivity.
    + eapply same_env_trans; [exact Henv1|]. exact Henv2.
    + rewrite Ht2. cbn [trace w1']. rewrite Ht1. cbn [trace].
      rewrite <- !app_assoc. reflexivity.
    + rewrite !marks_app, Hm1, Hm2. reflexivity.
Qed.

Lemma shard_by_shard_cons (i : Z) (ps : list Z) :
  shard_by_shard (i :: ps) = shard_by_shard [i] ++ shard_by_shard ps.
Proof. reflexivity. Qed.

Lemma partitions_loop (ds : list dir_entry) (ps : list Z) (counts : gmap Z Z) (w : world) :
  ∃ w' t counts',
    for_each ps (process_partition gen_index ds) counts w = (Returns counts', w')
    ∧ same_env w w' ∧ trace w' = trace w ++ t
    ∧ marks t = shard_by_shard ps.
Proof.
  revert counts w. induction ps as [|i ps IH]; intros counts w.
  - exists w, [], counts. by rewrite app_nil_r.
  - destruct (process_partition_outcome ds i counts w)
      as (w1 & t1 & counts1 & E1 & Henv1 & Ht1 & Hm1).
    destruct (IH counts1 w1) as (w2 & t2 & counts2 & E2 & Henv2 & Ht2 & Hm2).
    exists w2, (t1 ++ t2), counts2. split; [|split; [|split]].
    + rewrite for_each_cons. erewrite bind_returns; [|exact E1]. exact E2.
    + by eapply same_env_trans.
    + by rewrite Ht2, Ht1, app_assoc.
    + by rewrite marks_app, Hm1, Hm2, shard_by_shard_cons.
Qed.

Lemma summary_loop (counts : gmap Z Z) (ps : list Z) (acc : Z * option Z * Z) (w : world) :
  ∃ w' t acc',
    for_each ps (summary_step counts) acc w = (Returns acc', w')
    ∧ trace w' = trace w ++ t ∧ marks t = [].
Proof.
  revert acc w. induction ps as [|i ps IH]; intros [[total mn] mx] w.
  - exists w, [], (total, mn, mx). by rewrite app_nil_r.
  - edestruct (IH (total + default 0 (counts !! i),
                   if decide (0 < default 0 (counts !! i))
                   then Some (match mn with
                              | Some m => m `min` default 0 (counts !! i)
                              | None => default 0 (counts !! i)
                              end)
                   else mn,
                   mx `max` default 0 (counts !! i))
                 (mkWorld (base_dir w) (out_dir w) (read_only w) (writer w)
                    (trace w ++ [DocCount i (default 0 (counts !! i))])))
      as (w' & t & acc' & E & Ht & Hm).
    exists w', (DocCount i (default 0 (counts !! i)) :: t), acc'. split; [|split].
    + rewrite for_each_cons. erewrite bind_returns; [exact E|]. reflexivity.
    + rewrite Ht. cbn [trace]. by rewrite <- app_assoc.
    + exact Hm.
Qed.

(** A run with at least one account directory: every partition of the run
    is merged and then shuffled, one partition after the other, and the run
    returns. *)
Lemma main_outcome (argv1 : option Z) (w : world) :
  account_dirs_of (base_dir w) ≠ [] →
  ∃ w' t,
    main gen_index argv1 w = (Returns (), w')
    ∧ trace w' = trace w ++ t
    ∧ marks t = shard_by_shard (partitions_of argv1).
Proof.
  intros Hdirs. unfold main.
  set (w0 := mkWorld (base_dir w) (out_dir w) (read_only w) (writer w)
               (trace w ++ [match argv1 with
                            | Some i => ProcessingSingle i
                            | None => ProcessingAll
                            end])).
  set (w0' := mkWorld (base_dir w) (out_dir w) (read_only w) (writer w)
                (trace w0 ++ [FoundAccountDirs
                                (Z.of_nat (length (account_dirs_of (base_dir w))))])).
  destruct (partitions_loop (account_dirs_of (base_dir w)) (partitions_of argv1) ∅ w0')
    as (w1 & t1 & counts & E1 & _ & Ht1 & Hm1).
  destruct (summary_loop counts (partitions_of argv1) (0, None, 0) w1)
    as (w2 & t2 & [[total mn] mx] & E2 & Ht2 & Hm2).
  assert (∃ w3 t3,
            ((match mn with
              | Some m =>
                  if decide ((1 < length (partitions_of argv1))%nat ∧ 0 < m)
                  then log (MinMax m mx) else mret ()
              | None => mret ()
              end);; log Complete)
              (mkWorld (base_dir w2) (out_dir w2) (read_only w2) (writer w2)
                 (trace w2 ++ [Total total]))
            = (Returns (), w3)
            ∧ trace w3 = trace w2 ++ t3 ∧ marks t3 = []) as (w3 & t3 & E3 & Ht3 & Hm3).
  { destruct mn as [m|]; [case_decide|].
    - eexists _, ([Total total; MinMax m mx; Complete]). split; [reflexivity|].
      cbn [trace]. by rewrite <- !app_assoc.
    - eexists _, ([Total total; Complete]). split; [reflexivity|].
      cbn [trace]. by rewrite <- !app_assoc.
    - eexists _, ([Total total; Complete]). split; [reflexivity|].
      cbn [trace]. by rewrite <- !app_assoc. }
  exists w3, ([match argv1 with Some i => ProcessingSingle i | None => ProcessingAll end;
               FoundAccountDirs (Z.of_nat (length (account_dirs_of (base_dir w))))]
              ++ t1 ++ t2 ++ t3).
  split; [|split].
  - erewrite (bind_returns _ _ w (partitions_of argv1) w0); [|by destruct argv1].
    erewrite bind_returns; [|reflexivity].
    run_step.
    erewrite bind_returns;
      [|rewrite decide_False by (by intros ?%length_zero_iff_nil); reflexivity].
    erewrite bind_returns; [|exact E1].
    erewrite bind_returns; [|exact E2].
    cbn beta iota. run_step. exact E3.
  - rewrite Ht3, Ht2, Ht1. cbn [trace w0' w0]. rewrite <- !app_assoc. reflexivity.
  - rewrite !marks_app, Hm1, Hm2, Hm3, !app_nil_r. by destruct argv1.
Qed.

Lemma main_exits (argv1 : option Z) (w : world) :
  account_dirs_of (base_dir w) = [] →
  ∃ w', main gen_index argv1 w = (Raises (SystemExit 1), w') ∧ marks (trace w') = marks (trace w).
Proof.
  intros Hdirs. unfold main.
  set (w0 := mkWorld (base_dir w) (out_dir w) (read_only w) (writer w)
               (trace w ++ [match argv1 with
                            | Some i => ProcessingSingle i
                            | None => ProcessingAll
                            end])).
  eexists. split.
  - erewrite (bind_returns _ _ w (partitions_of argv1) w0); [|by destruct argv1].
    erewrite bind_returns; [|reflexivity].
    run_step. erewrite bind_raises; [reflexivity|].
    cbn [base_dir w0]. rewrite Hdirs. reflexivity.
  - cbn [trace w0]. rewrite !marks_app, !app_nil_r. destruct argv1; cbn; by rewrite app_nil_r.
Qed.
End merge_run_facts.

Section merge_contract.
Import MergePartitions MergeExample.

(** C5.  For every shard file the Shuffler leaves a permutation of the rows
    it found: the identifiers before and after are the same multiset (no row
    resampled, repeated or dropped), whatever the seeded generator draws;
    the other files are not touched. *)
Theorem shuffler_permutes :
  ∀ (gen_index : Z → nat → nat → nat) (path : Z) (w : world),
    (∀ q, q ≠ path →
          out_dir (shuffle_file gen_index path w).2 !! q = out_dir w !! q)
    ∧ match out_dir w !! path with
      | Some before =>
          ∃ after, out_dir (shuffle_file gen_index path w).2 !! path = Some after
                   ∧ after ≡ₚ before ∧ ids after ≡ₚ ids before
      | None => out_dir (shuffle_file gen_index path w).2 !! path = None
      end.
Proof.
  intros gen_index path w.
  destruct (out_dir w !! path) as [df|] eqn:Edf.
  - destruct (decide (path ∈ read_only w)) as [Hro|Hrw].
    + rewrite (shuffle_file_refused gen_index path w df) by done. cbn [snd out_dir].
      split; [done|]. by exists df.
    + rewrite (shuffle_file_written gen_index path w df) by done. cbn [snd out_dir].
      split; [intros q Hq; by rewrite lookup_insert_ne|].
      exists (sample gen_index df 42). rewrite lookup_insert_eq. split; [done|].
      pose proof (sample_Permutation gen_index df 42) as Hperm.
      split; [done|]. unfold ids. by rewrite Hperm.
  - rewrite (shuffle_file_missing gen_index path w) by done. by cbn [snd out_dir].
Qed.

(** C6.  The merge of a partition always returns.  It logs one warning for
    every account directory whose partition file is missing, in the order of
    the directories, and goes on; when the output path takes writes, the
    total it returns (and reports) is the sum of the numbers of rows of the
    partition files that were found and read to their end, and the number of
    accounts it reports is the number of those files.  With three accounts of
    which one lacks its file for partition 3, the merge returns 3 + 2 = 5 and
    logs the one warning. *)
Theorem merge_tolerates_missing_files :
  (∀ (partition_idx : Z) (account_dirs : list dir_entry) (output_path : Z) (w : world),
     ∃ w' t total accounts,
       merge_partition partition_idx account_dirs output_path w = (Returns total, w')
       ∧ trace w' = trace w ++ [MergeStarting partition_idx] ++ t
                      ++ [MergeComplete partition_idx total accounts]
       ∧ warnings t = missing_files partition_idx account_dirs
       ∧ (output_path ∉ read_only w →
          total = docs_read partition_idx account_dirs
          ∧ accounts = files_read partition_idx account_dirs))
  ∧ ((merge_partition 3 account_dirs 3 start).1 = Returns 5
     ∧ missing_files 3 account_dirs = [("account_200_dataset", "200", 3)]%string
     ∧ warnings (trace (merge_partition 3 account_dirs 3 start).2)
       = [("account_200_dataset", "200", 3)]%string
     ∧ height <$> omap (rows_read 3) account_dirs = [3; 2]
     ∧ ids <$> out_dir (merge_partition 3 account_dirs 3 start).2 !! 3
       = Some (ids (SampleData.docs "100/3" 3 ++ SampleData.docs "300/3" 2))).
Proof.
  split; [|by vm_compute].
  intros idx ds path w.
  destruct (merge_partition_outcome idx ds path w)
    as (w' & t & total & accounts & E & _ & Ht & Hw & _ & Hsum).
  by exists w', t, total, accounts.
Qed.

Lemma merge_tolerates_missing_files_witness :
  (3 ∉ read_only start)
  ∧ ∃ w' t total,
      merge_partition 3 account_dirs 3 start = (Returns total, w')
      ∧ warnings t = missing_files 3 account_dirs
      ∧ total = docs_read 3 account_dirs.
Proof.
  assert (3 ∉ read_only start) as Hrw by (by vm_compute).
  split; [exact Hrw|].
  destruct (proj1 merge_tolerates_missing_files 3 account_dirs 3 start)
    as (w' & t & total & accounts & E & _ & Hw & Hsum).
  exists w', t, total. split; [exact E|]. split; [exact Hw|].
  exact (proj1 (Hsum Hrw)).
Defined.

(** A partition file that breaks while it is read: the rows streamed before
    the failure stay in the output, the file is not counted.  Partition 4 of
    the sample input ends with six rows and a reported total of five. *)
Lemma corrupt_file_is_written_but_not_counted :
  (merge_partition 4 account_dirs 4 start).1 = Returns 5
  ∧ height <$> out_dir (merge_partition 4 account_dirs 4 start).2 !! 4 = Some 6
  ∧ ErrorReading "account_200_dataset" "200" 4 (ValueError "corrupt parquet file")
    ∈ trace (merge_partition 4 account_dirs 4 start).2.
Proof.
  split; [by vm_compute|]. split; [by vm_compute|].
  apply (bool_decide_unpack _). by vm_compute.
Qed.

(** A run without account directories exits with status 1 before any merge. *)
Lemma no_account_dirs_exits :
  (main draws None (mkWorld [] ∅ ∅ None [])).1 = Raises (SystemExit 1).
Proof. by vm_compute. Qed.

Lemma shard_by_shard_shuffle_after_merge (ps : list Z) (a : nat) (i : Z) :
  shard_by_shard ps !! a = Some (ShuffleBegins i) →
  (0 < a)%nat ∧ shard_by_shard ps !! (a - 1)%nat = Some (MergeEnds i).
Proof.
  revert a. induction ps as [|p ps IH]; intros a Ha; [done|].
  rewrite shard_by_shard_cons in Ha |- *.
  destruct a as [|[|[|[|a]]]]; [discriminate Ha|discriminate Ha| |discriminate Ha|].
  - injection Ha as <-. split; [lia|done].
  - change (shard_by_shard ps !! a = Some (ShuffleBegins i)) in Ha.
    destruct (IH a Ha) as [Hpos Hprev]. split; [lia|].
    destruct a as [|a]; [lia|].
    replace (S (S (S (S (S a)))) - 1)%nat with (4 + a)%nat by lia.
    replace (S a - 1)%nat with a in Hprev by lia. exact Hprev.
Qed.

(** C7 as the specification words it: the run over all ten partitions would
    merge every shard before it shuffles any.  Shard 0 is shuffled before
    shard 1 is merged. *)
Lemma whole_stage_order_fails :
  ¬ merge_all_then_shuffle_all (marks (trace (main draws None start).2)).
Proof.
  intros Horder.
  specialize (Horder 2%nat 5%nat 0 1 ltac:(by vm_compute) ltac:(by vm_compute)). lia.
Qed.

(** C7 (as amended).  A run with at least one account directory goes through
    its partitions one after the other: each shard is merged and, its merge
    having ended, the same shard is shuffled at once, before the merge of the
    next shard begins; so a shard is never read by the Shuffler before the
    Merger has fully written it.  As soon as the run has two partitions,
    not all shards are merged before the first is shuffled. *)
Theorem pipeline_is_shard_by_shard :
  ∀ (gen_index : Z → nat → nat → nat) (argv1 : option Z) (w : world),
    account_dirs_of (base_dir w) ≠ [] →
    ∃ w' t,
      main gen_index argv1 w = (Returns (), w')
      ∧ trace w' = trace w ++ t
      ∧ marks t = shard_by_shard (partitions_of argv1)
      ∧ (∀ a i, marks t !! a = Some (ShuffleBegins i) →
                (0 < a)%nat ∧ marks t !! (a - 1)%nat = Some (MergeEnds i))
      ∧ ((1 < length (partitions_of argv1))%nat → ¬ merge_all_then_shuffle_all (marks t)).
Proof.
  intros gen_index argv1 w Hdirs.
  destruct (main_outcome gen_index argv1 w Hdirs) as (w' & t & E & Ht & Hm).
  exists w', t. split; [done|]. split; [done|]. split; [done|]. rewrite Hm. split.
  - intros a i. apply shard_by_shard_shuffle_after_merge.
  - intros Htwo Horder.
    destruct (partitions_of argv1) as [|p0 [|p1 ps]]; [simpl in Htwo; lia..|].
    specialize (Horder 2%nat 5%nat p0 p1 eq_refl eq_refl). lia.
Qed.

Lemma pipeline_is_shard_by_shard_witness :
  account_dirs_of (base_dir start) ≠ []
  ∧ ∃ w' t,
      main draws None start = (Returns (), w')
      ∧ marks t = shard_by_shard (range NUM_PARTITIONS)
      ∧ ¬ merge_all_then_shuffle_all (marks t).
Proof.
  assert (account_dirs_of (base_dir start) ≠ []) as Hdirs
    by (intros Hnil; vm_compute in Hnil; discriminate Hnil).
  split; [exact Hdirs|].
  destruct (pipeline_is_shard_by_shard draws None start Hdirs)
    as (w' & t & E & _ & Hm & _ & Hnot).
  exists w', t. split; [exact E|]. split; [exact Hm|].
  apply Hnot. vm_compute. lia.
Defined.

(** C8.  A shuffle never raises.  When the shard file cannot be read, or the
    write back is refused, it logs the error, returns 0 and leaves the files
    as they are; when both succeed it returns the number of rows of the
    shard.  A run therefore goes on to its next partition whatever a shuffle
    does: with at least one account directory it returns after it has merged
    and shuffled every partition in turn.  In the sample run the shuffle of
    partition 0 is refused and the run still ends normally. *)
Theorem shuffle_failure_is_not_fatal :
  (∀ (gen_index : Z → nat → nat → nat) (path : Z) (w : world),
     (out_dir w !! path = None →
      ∃ w', shuffle_file gen_index path w = (Returns 0, w')
            ∧ out_dir w' = out_dir w
            ∧ trace w' = trace w ++ [ShuffleStarting path;
                                     ErrorDuringShuffle path (FileNotFoundError path)])
     ∧ (∀ df, out_dir w !! path = Some df → path ∈ read_only w →
          ∃ w', shuffle_file gen_index path w = (Returns 0, w')
                ∧ out_dir w' = out_dir w
                ∧ trace w' = trace w ++ [ShuffleStarting path; LoadedRows path (height df);
                                         ShuffledRows path;
                                         ErrorDuringShuffle path (OSError path)])
     ∧ (∀ df, out_dir w !! path = Some df → path ∉ read_only w →
          ∃ w', shuffle_file gen_index path w = (Returns (height df), w')
                ∧ out_dir w' = <[path := sample gen_index df 42]> (out_dir w)
                ∧ trace w' = trace w ++ [ShuffleStarting path; LoadedRows path (height df);
                                         ShuffledRows path; WrittenBack path]))
  ∧ (∀ (gen_index : Z → nat → nat → nat) (argv1 : option Z) (w : world),
       account_dirs_of (base_dir w) ≠ [] →
       ∃ w' t, main gen_index argv1 w = (Returns (), w')
               ∧ trace w' = trace w ++ t
               ∧ marks t = shard_by_shard (partitions_of argv1))
  ∧ ((main draws None start_read_only).1 = Returns ()
     ∧ ErrorDuringShuffle 0 (OSError 0) ∈ trace (main draws None start_read_only).2
     ∧ marks (trace (main draws None start_read_only).2)
       = shard_by_shard (range NUM_PARTITIONS)).
Proof.
  split; [|split].
  - intros gen_index path w. split; [|split].
    + intros Hnone. eexists. split; [by apply shuffle_file_missing|]. done.
    + intros df Hdf Hro. eexists. split; [by apply shuffle_file_refused|]. done.
    + intros df Hdf Hrw. eexists. split; [by apply shuffle_file_written|]. done.
  - intros gen_index argv1 w Hdirs. by apply main_outcome.
  - split; [by vm_compute|]. split; [|by vm_compute].
    apply (bool_decide_unpack _). by vm_compute.
Qed.

Lemma shuffle_failure_is_not_fatal_witness :
  (out_dir start !! 0 = None
   ∧ ∃ w', shuffle_file draws 0 start = (Returns 0, w') ∧ out_dir w' = out_dir start)
  ∧ (account_dirs_of (base_dir start_read_only) ≠ []
     ∧ ∃ w' t, main draws None start_read_only = (Returns (), w')
               ∧ marks t = shard_by_shard (range NUM_PARTITIONS)).
Proof.
  assert (out_dir start !! 0 = None) as Hnone by (vm_compute; reflexivity).
  assert (account_dirs_of (base_dir start_read_only) ≠ []) as Hdirs
    by (intros Hnil; vm_compute in Hnil; discriminate Hnil).
  split; (split; [assumption|]).
  - destruct (proj1 (proj1 shuffle_failure_is_not_fatal draws 0 start) Hnone)
      as (w' & E & Hout & _).
    exists w'. split; [exact E|exact Hout].
  - destruct (proj1 (proj2 shuffle_failure_is_not_fatal) draws None start_read_only Hdirs)
      as (w' & t & E & _ & Hm).
    exists w', t. split; [exact E|exact Hm].
Defined.
End merge_contract.

(** ** filter_incomplete_queries.py *)

Section filter_contract.
Import FilterIncompleteQueries FilterExample.

(** C9.  With both input files present: when the queries file and the
    neighbors file differ in their number of rows, the program prints the
    mismatch and ends with exit status 1 without having made the output
    directory or written any output file; when the numbers agree, it goes on
    to the filtering step without reporting a mismatch and, the files
    holding at least one row, writes the three output files and ends with
    exit status 0. *)
Theorem count_mismatch_aborts :
  ∀ {Query : Type} (extract_account_id : Query → string) (min_neighbors : Z)
    (w : world) (queries_data : queries_table) (neighbors_data : neighbors_table),
    queries_file w = Some queries_data → neighbors_file w = Some neighbors_data →
    let total_queries := Z.of_nat (length queries_data) in
    let total_neighbors := Z.of_nat (length neighbors_data) in
    (length queries_data ≠ length neighbors_data →
     ∃ w', main extract_account_id min_neighbors w = (Returns 1, w')
           ∧ exit_status extract_account_id min_neighbors w = (1, w')
           ∧ outputs_untouched w w'
           ∧ stdout w' = stdout w ++ [Banner min_neighbors; ReadingInputFiles;
                                      RowCounts total_queries total_neighbors;
                                      ErrorRowCountMismatch total_queries total_neighbors])
    ∧ (length queries_data = length neighbors_data →
       (∃ t, stdout (main extract_account_id min_neighbors w).2
               = stdout w ++ [Banner min_neighbors; ReadingInputFiles;
                              RowCounts total_queries total_neighbors;
                              Filtering min_neighbors] ++ t)
       ∧ ((0 < length queries_data)%nat →
          ∃ w' kept, main extract_account_id min_neighbors w = (Returns 0, w')
                     ∧ output_dir_made w' = true
                     ∧ queries_out w' = Some kept
                     ∧ is_Some (neighbors_out w') ∧ is_Some (mapping_out w')
                     ∧ kept = (filter_rows extract_account_id min_neighbors
                                 (zip queries_data neighbors_data)).1.1.1.1)).
Proof.
  intros Query extract min_neighbors w qs ns Hq Hn total_queries total_neighbors.
  split.
  - intros Hne.
    exists (mkWorld (queries_file w) (neighbors_file w) (output_dir_made w)
              (queries_out w) (neighbors_out w) (mapping_out w)
              (stdout w ++ [Banner min_neighbors; ReadingInputFiles;
                            RowCounts total_queries total_neighbors;
                            ErrorRowCountMismatch total_queries total_neighbors])).
    match goal with |- main _ _ _ = ?r ∧ _ =>
      assert (main extract min_neighbors w = r) as E
    end.
    { unfold main. do 2 run_step. cbn beta. rewrite Hq, Hn.
      do 3 run_step. fold total_queries total_neighbors.
      rewrite decide_True by (unfold total_queries, total_neighbors; lia).
      run_step. unfold mret, prog_mret, ret. cbn. rewrite <- !app_assoc, ?Hq, ?Hn.
      reflexivity. }
    split; [exact E|]. split; [unfold exit_status; by rewrite E|]. done.
  - intros Heq.
    assert (total_queries = total_neighbors) as Htot
      by (unfold total_queries, total_neighbors; lia).
    destruct (filter_rows extract min_neighbors (zip qs ns))
      as [[[[fq fn] idm] removed] nid] eqn:Efilter.
    split.
    + unfold main. do 2 run_step. cbn beta. rewrite Hq, Hn.
      do 3 run_step. fold total_queries total_neighbors.
      rewrite decide_False by lia. run_step. rewrite Efilter.
      cbv beta iota zeta.
      unfold percent. destruct (decide (total_queries = 0)) as [Hzero|Hpos].
      * exists []. erewrite bind_raises; [|reflexivity]. cbn [snd stdout].
        rewrite <- !app_assoc. reflexivity.
      * eexists. repeat run_step. cbn [snd stdout]. rewrite <- !app_assoc. cbn [app].
        reflexivity.
    + intros Hpos. eexists _, fq.
      assert (total_queries ≠ 0) as Hnz by (unfold total_queries; lia).
      split; [|split; [|split; [|split; [|split]]]].
      * unfold main. do 2 run_step. cbn beta. rewrite Hq, Hn.
        do 3 run_step. fold total_queries total_neighbors.
        rewrite decide_False by lia. run_step. rewrite Efilter.
        cbv beta iota zeta.
        unfold percent. rewrite !(decide_False (P := total_queries = 0)) by done.
        repeat run_step. reflexivity.
      * done.
      * done.
      * by eexists.
      * by eexists.
      * done.
Qed.

Lemma count_mismatch_aborts_witness :
  (length queries ≠ length neighbors
   ∧ ∃ w', exit_status account_of 1 mismatched = (1, w') ∧ outputs_untouched mismatched w')
  ∧ (length (take 3 queries) = length neighbors
     ∧ ∃ w' kept, main account_of 1 matched = (Returns 0, w') ∧ queries_out w' = Some kept).
Proof.
  split.
  - assert (length queries ≠ length neighbors) as Hne by (by vm_compute).
    split; [exact Hne|].
    destruct (proj1 (count_mismatch_aborts account_of 1 mismatched queries neighbors
                       eq_refl eq_refl) Hne) as (w' & _ & E & Hout & _).
    by exists w'.
  - assert (length (take 3 queries) = length neighbors) as Heq by reflexivity.
    split; [exact Heq|].
    destruct (proj2 (proj2 (count_mismatch_aborts account_of 1 matched (take 3 queries)
                              neighbors eq_refl eq_refl) Heq) ltac:(simpl; lia))
      as (w' & kept & E & _ & Hkept & _).
    by exists w', kept.
Defined.
End filter_contract.


(** ** Conservation of the rows *)

Section permutation_facts.

Lemma bind_app_Permutation {A B} (f g : A → list B) (l : list A) :
  l ≫= (λ x, f x ++ g x) ≡ₚ (l ≫= f) ++ (l ≫= g).
Proof.
  induction l as [|x l IH]; [done|].
  rewrite !bind_cons, IH, <- !app_assoc. apply Permutation_app_head.
  rewrite !app_assoc. apply Permutation_app_tail, Permutation_app_comm.
Qed.

Lemma bind_swap_Permutation {A B C} (f : A → C → list B) (l : list A) (k : list C) :
  l ≫= (λ x, k ≫= f x) ≡ₚ k ≫= (λ y, l ≫= (λ x, f x y)).
Proof.
  induction l as [|x l IH].
  - induction k as [|y k IHk]; [done|]. by rewrite bind_cons, <- IHk.
  - rewrite bind_cons, IH.
    rewrite <- (bind_app_Permutation (f x) (λ y, l ≫= (λ x, f x y)) k).
    match goal with |- ?X ≡ₚ ?Y => assert (X = Y) as ->; [|done] end.
    apply list_bind_ext; [|done]. intros y. by rewrite bind_cons.
Qed.

Lemma bind_ext_elem {A B} (f g : A → list B) (l : list A) :
  (∀ x, x ∈ l → f x = g x) → l ≫= f = l ≫= g.
Proof.
  intros Hfg. induction l as [|x l IH]; [done|].
  rewrite !bind_cons, IH, Hfg; [done|by left|].
  intros y Hy. apply Hfg. by right.
Qed.
End permutation_facts.

Section interleaver_conservation.
Import ProcessData.

Lemma chunk_size_covers (count total : Z) :
  0 ≤ count → 0 < total →
  0 ≤ chunk_size count total ∧ count ≤ total * chunk_size count total.
Proof.
  intros Hcount Htotal. unfold chunk_size.
  pose proof (Z.mul_div_le (- count) total Htotal).
  assert ((- count) / total ≤ 0) by (apply Z.div_le_upper_bound; lia).
  lia.
Qed.

(** The rounds of the shards, shard after shard, are the grid from its first
    cell to its last. *)
Lemma grid_flatten {X} (F : Z → list X) (S R : Z) :
  0 ≤ S → 0 ≤ R →
  range S ≫= (λ f, range R ≫= (λ r, F (f * R + r))) = range (S * R) ≫= F.
Proof.
  intros HS HR. revert S HS. apply natlike_ind; [done|].
  intros S HS IH. unfold Z.succ.
  rewrite range_succ, bind_app, IH by done.
  replace ((S + 1) * R) with (S * R + R) by lia.
  rewrite range_app, bind_app, list_fmap_bind by nia.
  f_equal. simpl. by rewrite app_nil_r.
Qed.

(** The grid of one account tiles its frame: every row in exactly one
    cell. *)
Lemma grid_covers_account (total : Z) (df : DataFrame) :
  0 < total → range total ≫= micro_chunk total df = df.
Proof.
  intros Htotal. unfold micro_chunk.
  destruct (chunk_size_covers (height df) total) as [Hc Hcover];
    [unfold height; lia|done|].
  apply slices_cover; [done|lia|done].
Qed.

(** The shards together hold the rows of the accounts together, each row
    once. *)
Lemma shards_hold_accounts (accounts : list (string * DataFrame)) (S R : Z) :
  0 < S → 0 < R →
  range S ≫= shard_content accounts S R ≡ₚ accounts ≫= snd.
Proof.
  intros HS HR. unfold shard_content.
  rewrite (grid_flatten (round_chunks (S * R) accounts)) by lia.
  unfold round_chunks. rewrite bind_swap_Permutation.
  match goal with |- ?X ≡ₚ ?Y => assert (X = Y) as ->; [|done] end.
  apply bind_ext_elem. intros [a df] _.
  apply grid_covers_account. nia.
Qed.

(** X3.  The Interleaver conserves the rows (its half of C2): started on an
    empty output folder with every account loaded, [S > 0] and [R > 0], the
    output files together hold exactly the rows of the deduplicated
    accounts, hence the same identifiers with the same multiplicities. *)
Lemma interleaver_conserves_rows (loaded : gmap string (option DataFrame)) (S R : Z)
    (w : world) :
  0 < S → 0 < R → map_Forall (λ _ o, is_Some o) loaded → out_dir w = ∅ →
  ∃ w', process_data loaded S R w = (Returns (), w')
        ∧ range S ≫= (λ f, default [] (out_dir w' !! f)) ≡ₚ sorted_accounts loaded ≫= snd
        ∧ ids (range S ≫= (λ f, default [] (out_dir w' !! f)))
          ≡ₚ ids (sorted_accounts loaded ≫= snd).
Proof.
  intros HS HR Hloaded Hempty.
  destruct (process_data_shards loaded S R ltac:(nia) Hloaded w) as (w' & E & Hout).
  exists w'. split; [done|].
  assert (range S ≫= (λ f, default [] (out_dir w' !! f))
          = range S ≫= shard_content (sorted_accounts loaded) S R) as ->.
  { apply bind_ext_elem. intros f Hf%elem_of_range. rewrite Hout.
    case_decide as Hdec; [done|]. rewrite Hempty, lookup_empty. simpl.
    destruct (decide (shard_content (sorted_accounts loaded) S R f = [])) as [->|Hne];
      [done|]. by destruct Hdec. }
  pose proof (shards_hold_accounts (sorted_accounts loaded) S R HS HR) as Hperm.
  split; [done|]. unfold ids. by rewrite Hperm.
Qed.
End interleaver_conservation.

Section balancer_conservation.
Import BalancePartitions.

Lemma length_shares (T : Z) (pool : DataFrame) (dir : gmap Z DataFrame) (idxs : list Z)
    (offset : Z) :
  length (shares T pool dir idxs offset) = length idxs.
Proof.
  revert offset. induction idxs as [|i idxs IH]; intros offset; [done|].
  simpl. by rewrite IH.
Qed.

(** The pool is what the source shards hold beyond their first [T] rows. *)
Lemma excess_frames_join (T : Z) (dir : gmap Z DataFrame) (idxs : list Z) :
  mjoin (excess_frames T dir idxs) = idxs ≫= (λ i, drop (Z.to_nat T) (default [] (dir !! i))).
Proof.
  unfold excess_frames. induction idxs as [|i idxs IH]; [done|].
  rewrite !bind_cons, join_app, IH. f_equal.
  destruct (dir !! i) as [df|]; simpl; [|by rewrite drop_nil].
  case_decide as Hover; simpl.
  - by rewrite app_nil_r.
  - symmetry. apply drop_ge. unfold height in Hover. lia.
Qed.

Lemma bind_with_shares (l : list Z) (given : list DataFrame) (F G : Z → DataFrame) :
  (∀ k i, l !! k = Some i → ∃ r, given !! k = Some r ∧ F i = G i ++ r) →
  length given = length l →
  l ≫= F ≡ₚ (l ≫= G) ++ mjoin given.
Proof.
  revert given. induction l as [|i l IH]; intros given Hk Hlen.
  - destruct given; [done|discriminate].
  - destruct given as [|r given]; [discriminate|].
    destruct (Hk 0%nat i eq_refl) as (r' & [= <-] & HF).
    rewrite !bind_cons, HF. change (mjoin (r :: given)) with (r ++ mjoin given).
    rewrite (IH given); [|intros k j Hj; apply (Hk (S k) j Hj)|by injection Hlen].
    rewrite <- !app_assoc. apply Permutation_app_head.
    rewrite !app_assoc. apply Permutation_app_tail, Permutation_app_comm.
Qed.

Lemma total_count_rows (dir : gmap Z DataFrame) : total_count dir = height (all_rows dir).
Proof.
  unfold total_count, all_rows. induction (range NUM_PARTITIONS) as [|i l IH]; [done|].
  rewrite fmap_cons, bind_cons. cbn [foldr]. rewrite IH.
  unfold count, height. rewrite length_app. lia.
Qed.

(** X15.  The Balancer conserves the rows on the inputs its pass completes
    on (its half of C2; ten shards, some source shard above [T]): the
    output shards together hold exactly the rows of the input shards, the
    counts add up to the same total, and that total is the one the
    verification reports. *)
Lemma balancer_conserves_rows (T : Z) (w : world) :
  0 ≤ T →
  (∀ i, i ∈ range NUM_PARTITIONS → is_Some (in_dir w !! i)) →
  excess_frames T (in_dir w) source_shards ≠ [] →
  ∃ w', main T w = (Returns (), w')
        ∧ all_rows (out_dir w') ≡ₚ all_rows (in_dir w)
        ∧ ids (all_rows (out_dir w')) ≡ₚ ids (all_rows (in_dir w))
        ∧ total_count (out_dir w') = total_count (in_dir w)
        ∧ ∃ min_count max_count,
            Summary (total_count (in_dir w)) min_count max_count ∈ trace w'.
Proof.
  intros HT Hin Hexcess.
  destruct (main_returns T w HT Hin Hexcess)
    as (w' & E & _ & Hsrc & Hsnk & _ & Hpool & (t & mn & mx & Ht)).
  exists w'. split; [done|].
  assert (all_rows (out_dir w') ≡ₚ all_rows (in_dir w)) as Hperm.
  { unfold all_rows. rewrite all_shards_eq, !bind_app.
    rewrite (bind_ext_elem (λ i, default [] (out_dir w' !! i))
               (λ i, take (Z.to_nat T) (default [] (in_dir w !! i))) source_shards).
    2:{ intros i Hi. rewrite Hsrc by done. destruct (in_dir w !! i); [done|].
        simpl. by rewrite take_nil. }
    rewrite (bind_with_shares sink_shards
               (shares T (excess_pool T (in_dir w)) (in_dir w) sink_shards 0)
               (λ i, default [] (out_dir w' !! i)) (λ i, default [] (in_dir w !! i))).
    2:{ intros k i Hk. destruct (Hsnk k i Hk) as (df & r & Hdf & Hr & Hout).
        exists r. split; [done|]. by rewrite Hout, Hdf. }
    2:{ apply length_shares. }
    rewrite Hpool. unfold excess_pool. rewrite excess_frames_join.
    rewrite (bind_ext_elem (λ i, default [] (in_dir w !! i))
               (λ i, take (Z.to_nat T) (default [] (in_dir w !! i))
                     ++ drop (Z.to_nat T) (default [] (in_dir w !! i))) source_shards)
      by (intros i _; by rewrite take_drop).
    rewrite bind_app_Permutation, <- !app_assoc. apply Permutation_app_head.
    apply Permutation_app_comm. }
  split; [done|]. split; [unfold ids; by rewrite Hperm|].
  assert (total_count (out_dir w') = total_count (in_dir w)) as Htotal.
  { rewrite !total_count_rows. unfold height. by rewrite Hperm. }
  split; [done|]. exists mn, mx. rewrite Ht, <- Htotal.
  rewrite !elem_of_app. right. right. by left.
Qed.
End balancer_conservation.

(** * Further properties

    Properties of the parts of the scripts the contract above does not
    reach, and of the edges of those it does. *)

(** ** Loops that raise *)

Section monad_more.
Context {W : Type}.

Lemma for_each_raises {A S} (xs : list A) (x : A) (ys : list A)
    (body : A → S → prog W S) (s s' : S) (w w' w'' : W) (e : exn) :
  for_each xs body s w = (Returns s', w') → body x s' w' = (Raises e, w'') →
  for_each (xs ++ x :: ys) body s w = (Raises e, w'').
Proof.
  intros Hxs Hx. rewrite for_each_app. erewrite bind_returns; [|exact Hxs].
  rewrite for_each_cons. by erewrite bind_raises.
Qed.
End monad_more.

(** ** Names and paths *)

Section text_facts.
Import MergePartitions Text.

Lemma split_nonempty sep s : split sep s ≠ [].
Proof. destruct s as [|c s]; simpl; [done|]. case_decide; [done|]. by destruct (split sep s). Qed.

Lemma split_no_sep sep s : has_char sep s = false → split sep s = [s].
Proof.
  induction s as [|c s IH]; simpl; [done|].
  intros [Hc Hs]%orb_false_iff. apply bool_decide_eq_false in Hc.
  rewrite decide_False by done. by rewrite IH.
Qed.

Lemma split_app sep a b :
  split sep (a +:+ String sep b) = split sep a ++ split sep b.
Proof.
  induction a as [|c a IH]; simpl.
  - by rewrite decide_True.
  - case_decide; [by rewrite IH|].
    rewrite IH. destruct (split sep a) eqn:E; [by apply split_nonempty in E|done].
Qed.

Lemma prefix_app (p s : string) : String.prefix p (p +:+ s) = true.
Proof.
  induction p as [|c p IH]; simpl; [by destruct s|].
  by destruct (ascii_dec c c).
Qed.

Lemma prefix_inv (p s : string) : String.prefix p s = true → ∃ rest, s = p +:+ rest.
Proof.
  revert s. induction p as [|c p IH]; intros s; [intros _; by exists s|].
  destruct s as [|c' s]; simpl; [done|]. destruct (ascii_dec c c') as [->|]; [|done].
  intros [rest ->]%IH. by exists rest.
Qed.

Lemma has_char_app c a b : has_char c (a +:+ b) = has_char c a || has_char c b.
Proof. induction a as [|c' a IH]; simpl; [done|]. by rewrite IH, orb_assoc. Qed.

Lemma append_cons (x : ascii) (a b : string) : String x a +:+ b = String x (a +:+ b).
Proof. reflexivity. Qed.

Lemma append_assoc (a b c : string) : (a +:+ b) +:+ c = a +:+ (b +:+ c).
Proof. induction a as [|x a IH]; [done|]. by rewrite !append_cons, IH. Qed.
End text_facts.

(** ** process_data.py: grouping the files by account *)

Section load_facts.
Import Text MergePartitions ProcessDataLoad.
#[local] Open Scope string_scope.

Lemma scan_parts_skip (pre parts : list string) (acc_id : string) :
  Forall (λ p, String.prefix "account_id=" p = false) pre →
  scan_parts (pre ++ parts) acc_id = scan_parts parts acc_id.
Proof. induction 1 as [|p pre Hp _ IH]; simpl; [done|]. by rewrite Hp. Qed.

Lemma scan_parts_hit (p : string) (parts : list string) (acc_id : string) :
  String.prefix "account_id=" p = true →
  scan_parts (p :: parts) acc_id = split "=" p !! 1%nat.
Proof. intros Hp. simpl. by rewrite Hp. Qed.

Lemma account_part (rest : string) :
  split "=" ("account_id=" +:+ rest) !! 1%nat = List.head (split "=" rest).
Proof.
  change ("account_id=" +:+ rest) with ("account_id" +:+ String "=" rest).
  rewrite split_app. simpl. by destruct (split "=" rest).
Qed.

Lemma scan_parts_total (parts : list string) (acc_id : string) :
  is_Some (scan_parts parts acc_id).
Proof.
  induction parts as [|p parts IH]; simpl; [by eexists|].
  destruct (String.prefix "account_id=" p) eqn:Hp; [|done].
  apply prefix_inv in Hp as [rest ->]. rewrite account_part.
  pose proof (split_nonempty "=" rest). destruct (split "=" rest); [done|by eexists].
Qed.

(** X1.  The account of an input file is read off its path (lines 50-55
    of process_data.py).  The lookup never fails: a part that starts with
    ["account_id="] always has a second ["="]-separated field.  A path none
    of whose parts starts with ["account_id="] belongs to the account
    ["unknown"].  A file below a folder [account_id=<id>], where [<id>]
    holds neither ["/"] nor ["="] and no folder above is an account folder,
    belongs to the account [<id>], whatever comes below. *)
Theorem account_of_path :
  (∀ f, is_Some (acc_id_of f))
  ∧ (∀ f, Forall (λ p, String.prefix "account_id=" p = false) (split "/" f) →
          acc_id_of f = Some "unknown")
  ∧ (∀ dir id rest,
       Forall (λ p, String.prefix "account_id=" p = false) (split "/" dir) →
       has_char "/" id = false → has_char "=" id = false →
       acc_id_of (dir +:+ "/account_id=" +:+ id +:+ "/" +:+ rest) = Some id).
Proof.
  split; [|split].
  - intros f. apply scan_parts_total.
  - intros f Hf. unfold acc_id_of.
    rewrite <- (app_nil_r (split "/" f)). by rewrite scan_parts_skip.
  - intros dir id rest Hdir Hslash Heq. unfold acc_id_of.
    change (dir +:+ "/account_id=" +:+ id +:+ "/" +:+ rest)
      with (dir +:+ String "/" ("account_id=" +:+ (id +:+ String "/" rest))).
    rewrite split_app, scan_parts_skip by done.
    rewrite <- append_assoc, split_app.
    rewrite (split_no_sep "/" ("account_id=" +:+ id))
      by (by rewrite has_char_app, Hslash).
    rewrite <- app_comm_cons, scan_parts_hit by apply prefix_app.
    by rewrite account_part, (split_no_sep "=" id).
Qed.

Lemma account_of_path_witness :
  Forall (λ p, String.prefix "account_id=" p = false) (split "/" "raw/logs")
  ∧ acc_id_of "raw/logs/account_id=316022/part-0001.json" = Some "316022".
Proof.
  split; [by repeat constructor|].
  apply (proj2 (proj2 account_of_path) "raw/logs" "316022" "part-0001.json");
    [by repeat constructor|reflexivity|reflexivity].
Defined.

Lemma add_file_lookup (m : gmap string (list string)) (f : string) :
  ∃ a m', acc_id_of f = Some a ∧ add_file m f = Some m'
          ∧ m' !! a = Some (default [] (m !! a) ++ [f])%list
          ∧ ∀ b, b ≠ a → m' !! b = m !! b.
Proof.
  destruct (scan_parts_total (split "/" f) "unknown") as [a Ha]. fold (acc_id_of f) in Ha.
  exists a. unfold add_file. rewrite Ha. simpl.
  eexists. split; [done|]. split; [done|].
  destruct (m !! a) as [l|] eqn:E.
  - split; [by rewrite lookup_alter_eq, E|].
    intros b Hb. by rewrite lookup_alter_ne.
  - split; [by rewrite lookup_alter_eq, lookup_insert_eq|].
    intros b Hb. by rewrite lookup_alter_ne, lookup_insert_ne.
Qed.

Lemma group_files_lookup (all_files : list string) (m : gmap string (list string)) :
  ∃ m', group_files all_files m = Some m'
        ∧ ∀ a, m' !! a =
               let found := filter (λ f, acc_id_of f = Some a) all_files in
               match m !! a, found with
               | None, [] => None
               | o, _ => Some (default [] o ++ found)%list
               end.
Proof.
  revert m. induction all_files as [|f fs IH]; intros m.
  - exists m. split; [done|]. intros a. simpl. destruct (m !! a); by rewrite ?app_nil_r.
  - destruct (add_file_lookup m f) as (a & m1 & Ha & Hadd & Hm1 & Hother).
    destruct (IH m1) as (m' & Hrun & Hm').
    exists m'. split; [simpl; by rewrite Hadd|].
    intros b. rewrite Hm'. cbn zeta. rewrite filter_cons.
    destruct (decide (b = a)) as [->|Hb].
    + rewrite Hm1, decide_True by done.
      destruct (m !! a); simpl; by rewrite <- ?app_assoc.
    + rewrite Hother, decide_False by congruence. done.
Qed.

(** X2.  The grouping of the scanned files (lines 49-58) always returns.
    The group of an account is the list of the files of that account in
    scan order, and no group is empty; every file is in the group of its
    account; the dictionary has a key as soon as one file was found. *)
Theorem files_grouped_by_account (all_files : list string) :
  ∃ files_by_account,
    group_files all_files ∅ = Some files_by_account
    ∧ (∀ a files, files_by_account !! a = Some files ↔
         files ≠ [] ∧ files = filter (λ f, acc_id_of f = Some a) all_files)
    ∧ (∀ f, f ∈ all_files →
         ∃ a files, acc_id_of f = Some a ∧ files_by_account !! a = Some files ∧ f ∈ files)
    ∧ (all_files ≠ [] → files_by_account ≠ ∅).
Proof.
  destruct (group_files_lookup all_files ∅) as (m & Hrun & Hm).
  assert (Hlook : ∀ a files, m !! a = Some files ↔
            files ≠ [] ∧ files = filter (λ f, acc_id_of f = Some a) all_files).
  { intros a files. rewrite Hm, lookup_empty. cbn zeta.
    destruct (filter _ all_files) as [|x l]; simpl; [split; [done|by intros [? ->]]|].
    split; [by intros [= <-]|by intros [_ ->]]. }
  assert (Hin : ∀ f, f ∈ all_files →
            ∃ a files, acc_id_of f = Some a ∧ m !! a = Some files ∧ f ∈ files).
  { intros f Hf. destruct (scan_parts_total (split "/" f) "unknown") as [a Ha].
    fold (acc_id_of f) in Ha.
    assert (f ∈ filter (λ f, acc_id_of f = Some a) all_files) as Hfa
      by by apply list_elem_of_filter.
    exists a, (filter (λ f, acc_id_of f = Some a) all_files).
    split; [done|]. split; [|done]. apply Hlook. split; [|done].
    intros Hnil. rewrite Hnil in Hfa. by apply elem_of_nil in Hfa. }
  exists m. split; [done|]. split; [done|]. split; [done|].
  intros Hne ->. destruct all_files as [|f fs]; [done|].
  destruct (Hin f) as (a & files & _ & Hl & _); [by left|]. by rewrite lookup_empty in Hl.
Qed.

Lemma files_grouped_by_account_witness :
  ["in/account_id=7/a.json"; "in/b.parquet"; "in/account_id=7/c.json"] ≠ []
  ∧ ∃ files_by_account,
      group_files ["in/account_id=7/a.json"; "in/b.parquet"; "in/account_id=7/c.json"] ∅
        = Some files_by_account
      ∧ files_by_account ≠ ∅.
Proof.
  split; [done|].
  destruct (files_grouped_by_account
              ["in/account_id=7/a.json"; "in/b.parquet"; "in/account_id=7/c.json"])
    as (m & Hrun & _ & _ & Hne).
  exists m. split; [exact Hrun|]. by apply Hne.
Defined.
End load_facts.

(** ** process_data.py: the edges of the grid *)

Section interleaver_edges.
Import ProcessData.

Lemma range_nonpositive (n : Z) : n ≤ 0 → range n = [].
Proof. intros Hn. unfold range. by replace (Z.to_nat n) with 0%nat by lia. Qed.

(** X7.  A negative number of shards or of rounds per shard, the grid not
    being empty ([S * R <> 0]): the run returns normally and writes no
    file.  It prints the warning of an empty file for every file index of
    [range(S)] and ends by listing no created file. *)
Theorem negative_grid_writes_nothing (loaded : gmap string (option DataFrame)) (S R : Z)
    (w : world) :
  S * R ≠ 0 → S < 0 ∨ R < 0 →
  ∃ w', process_data loaded S R w = (Returns (), w')
        ∧ out_dir w' = out_dir w
        ∧ stdout w' = stdout w ++ [StartingRoundRobin S R]
                        ++ (range S ≫= (λ f, [BuildingFile f; WarningFileEmpty f]))
                        ++ [ProcessingComplete []].
Proof.
  intros Hgrid Hneg. unfold process_data.
  assert (∀ fs created w0,
            R < 0 ∨ fs = [] →
            for_each fs
              (λ file_idx (created_files : list Z),
                 print (BuildingFile file_idx);;
                 file_buffer ← build_file_buffer (data_map_of loaded)
                                 ((λ df, chunk_size (height df) (S * R)) <$> data_map_of loaded)
                                 (sorted (files_by_account_keys loaded)) R file_idx;
                 match file_buffer with
                 | [] => print (WarningFileEmpty file_idx);; mret created_files
                 | _ =>
                     final_df ← concat file_buffer;
                     write_parquet file_idx final_df;;
                     print (Saved file_idx (height final_df));;
                     mret (created_files ++ [file_idx])
                 end)
              created w0
            = (Returns created,
               mkWorld (out_dir w0)
                 (stdout w0 ++ (fs ≫= (λ f, [BuildingFile f; WarningFileEmpty f])))))
    as Hloop.
  { induction fs as [|f fs IH]; intros created w0 Hwhy.
    - cbn. rewrite app_nil_r. by destruct w0.
    - destruct Hwhy as [HR|?]; [|done].
      rewrite for_each_cons.
      erewrite bind_returns.
      2:{ run_step.
          erewrite bind_returns;
            [|unfold build_file_buffer; rewrite range_nonpositive by lia; reflexivity].
          reflexivity. }
      rewrite IH by (by left). cbn [out_dir stdout].
      rewrite bind_cons, <- !app_assoc. reflexivity. }
  eexists. split; [|split].
  - erewrite bind_returns; [|by apply chunk_sizes_of_returns].
    run_step.
    erewrite bind_returns;
      [|apply Hloop; destruct Hneg as [HS|HR]; [right; apply range_nonpositive; lia|by left]].
    reflexivity.
  - reflexivity.
  - cbn [stdout]. by rewrite <- !app_assoc.
Qed.

(** X8.  An account none of whose files could be read is a key of
    [files_by_account] without a frame in [data_map].  With [S > 0] and
    [R > 0] the round-robin loop raises [KeyError] for the first such
    account in sorted order, in the first round of file 0, after it has
    cut the chunks of the accounts before; no file is written. *)
Theorem unreadable_account_raises (loaded : gmap string (option DataFrame)) (S R : Z)
    (w : world) (a : string) :
  0 < S → 0 < R → loaded !! a = Some None →
  ∃ before b after,
    sorted (files_by_account_keys loaded) = before ++ b :: after
    ∧ Forall (λ a, is_Some (data_map_of loaded !! a)) before
    ∧ loaded !! b = Some None
    ∧ process_data loaded S R w
      = (Raises (KeyError b),
         mkWorld (out_dir w) (stdout w ++ [StartingRoundRobin S R; BuildingFile 0])).
Proof.
  intros HS HR Ha.
  set (ids := sorted (files_by_account_keys loaded)).
  set (data_map := data_map_of loaded).
  assert (Hkeys : ∀ x, x ∈ ids ↔ is_Some (loaded !! x)).
  { intros x. unfold ids, sorted, files_by_account_keys.
    rewrite merge_sort_Permutation, list_elem_of_fmap. split.
    - intros ([x' o] & -> & Ho%elem_of_map_to_list). by eexists.
    - intros [o Ho]. exists (x, o). split; [done|]. by apply elem_of_map_to_list. }
  assert (Hdm : ∀ x, data_map !! x = None ↔ loaded !! x = None ∨ loaded !! x = Some None).
  { intros x. unfold data_map, data_map_of. rewrite lookup_omap.
    destruct (loaded !! x) as [[df|]|]; cbn; split; try done; try tauto.
    by intros [?|?]. }
  destruct (list_find (λ x, data_map !! x = None) ids) as [[i b]|] eqn:Hfind.
  2:{ apply list_find_None in Hfind. rewrite Forall_forall in Hfind.
      destruct (Hfind a); [apply Hkeys; by eexists|]. apply Hdm. by right. }
  apply list_find_Some in Hfind as (Hib & Hb & Hfirst).
  exists (take i ids), b, (drop (Datatypes.S i) ids).
  assert (Hsplit : ids = take i ids ++ b :: drop (Datatypes.S i) ids)
    by (by rewrite take_drop_middle).
  assert (Hbefore : ∀ x, x ∈ take i ids → is_Some (data_map !! x)).
  { intros x [j Hj]%list_elem_of_lookup. apply lookup_take_Some in Hj as [Hj Hlt].
    destruct (data_map !! x) eqn:E; [by eexists|]. by destruct (Hfirst j x). }
  split; [done|]. split; [by apply Forall_forall|]. split.
  { apply Hdm in Hb as [Hb|Hb]; [|done].
    assert (is_Some (loaded !! b)) as [? ?]; [|congruence].
    apply Hkeys. by eapply list_elem_of_lookup_2. }
  change [StartingRoundRobin S R; BuildingFile 0]
    with ([StartingRoundRobin S R] ++ [BuildingFile 0]).
  rewrite app_assoc.
  unfold process_data. fold ids data_map.
  erewrite bind_returns; [|apply chunk_sizes_of_returns; lia].
  run_step. erewrite bind_raises; [reflexivity|].
  assert (range S = 0 :: ((λ r, 1 + r) <$> range (S - 1))) as ->.
  { replace S with (1 + (S - 1)) at 1 by lia. by rewrite range_app by lia. }
  assert (range R = 0 :: ((λ r, 1 + r) <$> range (R - 1))) as HRs.
  { replace R with (1 + (R - 1)) at 1 by lia. by rewrite range_app by lia. }
  rewrite for_each_cons. erewrite bind_raises; [reflexivity|].
  run_step. erewrite bind_raises; [reflexivity|].
  unfold build_file_buffer. rewrite HRs, for_each_cons.
  erewrite bind_raises; [reflexivity|]. cbv zeta.
  rewrite Hsplit.
  eapply for_each_raises.
  - apply (one_round data_map (S * R) (take i ids) Hbefore).
  - unfold getitem. rewrite Hb. reflexivity.
Qed.
End interleaver_edges.

(** ** process_data.py: the shape of the shards *)

Section interleaver_blocks.
Import ProcessData.

Lemma account_block (df : DataFrame) (R c f : Z) :
  0 ≤ R → 0 ≤ c → 0 ≤ f →
  range R ≫= (λ r, slice df ((f * R + r) * c) c) = slice df (f * R * c) (R * c).
Proof.
  intros HR Hc Hf. unfold range.
  rewrite (bind_ext_elem _ (λ g, slice (drop (Z.to_nat (f * R * c)) df) (g * c) c)).
  - rewrite slices_tile by done. unfold slice. f_equal. nia.
  - intros g Hg. apply list_elem_of_fmap in Hg as (n & -> & _).
    unfold slice. rewrite drop_drop. do 2 f_equal. nia.
Qed.

Lemma shard_blocks (accounts : list (string * DataFrame)) (S R f : Z) :
  0 < S → 0 < R → 0 ≤ f →
  shard_content accounts S R f
  ≡ₚ accounts ≫= (λ '(_, df), slice df (f * R * chunk_size (height df) (S * R))
                                 (R * chunk_size (height df) (S * R))).
Proof.
  intros HS HR Hf. unfold shard_content, round_chunks.
  rewrite (bind_swap_Permutation
             (λ r '(_, df), micro_chunk (S * R) df (f * R + r)) (range R) accounts).
  match goal with |- ?X ≡ₚ ?Y => assert (X = Y) as ->; [|done] end.
  apply bind_ext_elem. intros [a df] _. unfold micro_chunk. cbv zeta.
  apply account_block; [lia| |done].
  apply chunk_size_covers; [unfold height|]; nia.
Qed.

Lemma blocks_shrink (accounts : list (string * DataFrame)) (S R f : Z) :
  0 < S → 0 < R → 0 ≤ f →
  height (accounts ≫= (λ '(_, df), slice df ((f + 1) * R * chunk_size (height df) (S * R))
                                     (R * chunk_size (height df) (S * R))))
  ≤ height (accounts ≫= (λ '(_, df), slice df (f * R * chunk_size (height df) (S * R))
                                       (R * chunk_size (height df) (S * R)))).
Proof.
  intros HS HR Hf. induction accounts as [|[a df] accounts IH]; [done|].
  rewrite !bind_cons. unfold height in *. rewrite !length_app.
  assert (0 ≤ chunk_size (Z.of_nat (length df)) (S * R)) as Hc
    by (apply chunk_size_covers; nia).
  pose proof (height_slice df ((f + 1) * R * chunk_size (Z.of_nat (length df)) (S * R))
                (R * chunk_size (Z.of_nat (length df)) (S * R))) as H1.
  pose proof (height_slice df (f * R * chunk_size (Z.of_nat (length df)) (S * R))
                (R * chunk_size (Z.of_nat (length df)) (S * R))) as H0.
  unfold height in *. rewrite !Nat2Z.inj_add. nia.
Qed.

Lemma shard_content_shrinks (accounts : list (string * DataFrame)) (S R f : Z) :
  0 < S → 0 < R → 0 ≤ f →
  height (shard_content accounts S R (f + 1)) ≤ height (shard_content accounts S R f).
Proof.
  intros HS HR Hf. pose proof (blocks_shrink accounts S R f HS HR Hf) as Hle.
  unfold height in *.
  rewrite (shard_blocks accounts S R f), (shard_blocks accounts S R (f + 1)) by lia.
  exact Hle.
Qed.

(** X4.  Started on an empty output folder with every account loaded,
    [S > 0] and [R > 0]: output file [f] holds of every account exactly the
    rows [f * R * c, (f + 1) * R * c) of its frame, [c] being the chunk
    size of the account (the [R] chunks of the file's rounds tile that
    block); and no file has more rows than the file before it, a file that
    is not written counting as empty. *)
Theorem shards_hold_account_blocks (loaded : gmap string (option DataFrame)) (S R : Z)
    (w : world) :
  0 < S → 0 < R → map_Forall (λ _ o, is_Some o) loaded → out_dir w = ∅ →
  ∃ w', process_data loaded S R w = (Returns (), w')
        ∧ (∀ f, 0 ≤ f < S →
             default [] (out_dir w' !! f)
             ≡ₚ sorted_accounts loaded
                  ≫= (λ '(_, df), slice df (f * R * chunk_size (height df) (S * R))
                                    (R * chunk_size (height df) (S * R))))
        ∧ (∀ f, 0 ≤ f →
             height (default [] (out_dir w' !! (f + 1)))
             ≤ height (default [] (out_dir w' !! f))).
Proof.
  intros HS HR Hloaded Hfresh.
  destruct (process_data_shards loaded S R ltac:(nia) Hloaded w) as (w' & E & Hout).
  assert (Hfile : ∀ f, 0 ≤ f < S →
            default [] (out_dir w' !! f) = shard_content (sorted_accounts loaded) S R f).
  { intros f Hf. rewrite Hout, Hfresh, lookup_empty.
    destruct (decide (0 ≤ f < S ∧ shard_content (sorted_accounts loaded) S R f ≠ []))
      as [_|Hno]; [done|].
    destruct (decide (shard_content (sorted_accounts loaded) S R f = [])) as [->|?]; [done|].
    tauto. }
  exists w'. split; [exact E|]. split.
  - intros f Hf. rewrite Hfile by done. apply shard_blocks; lia.
  - intros f Hf. destruct (decide (f + 1 < S)) as [Hin|Hout'].
    + rewrite !Hfile by lia. apply shard_content_shrinks; lia.
    + rewrite (Hout (f + 1)), Hfresh, lookup_empty.
      rewrite decide_False by (intros [? _]; lia).
      unfold height. simpl. lia.
Qed.
End interleaver_blocks.

Section interleaver_created.
Import ProcessData.

Lemma filter_range_prefix (P : Z → Prop) `{!∀ f, Decision (P f)} (n : nat) :
  (∀ f, 0 ≤ f → P (f + 1) → P f) →
  ∃ k, 0 ≤ k ≤ Z.of_nat n
       ∧ filter P (range (Z.of_nat n)) = range k
       ∧ ∀ f, 0 ≤ f < Z.of_nat n → (P f ↔ f < k).
Proof.
  intros Hdown. induction n as [|n (k & Hk & Hfilter & Hiff)].
  - exists 0. split; [lia|]. split; [done|]. intros f Hf. lia.
  - rewrite Nat2Z.inj_succ, <- Z.add_1_r, range_succ by lia.
    rewrite filter_app, Hfilter, filter_cons, filter_nil.
    destruct (decide (P (Z.of_nat n))) as [HP|HP].
    + assert (k = Z.of_nat n) as ->.
      { destruct n as [|n]; [lia|].
        assert (P (Z.of_nat n)) as HP'.
        { apply Hdown; [lia|]. by rewrite Z.add_1_r, <- Nat2Z.inj_succ. }
        apply Hiff in HP'; lia. }
      exists (Z.of_nat n + 1). split; [lia|]. split; [by rewrite range_succ by lia|].
      intros f Hf. destruct (decide (f = Z.of_nat n)) as [->|Hne].
      * split; [lia|done].
      * rewrite Hiff by lia. lia.
    + exists k. split; [lia|]. split; [by rewrite app_nil_r|].
      intros f Hf. destruct (decide (f = Z.of_nat n)) as [->|Hne].
      * split; [done|]. intros Hlt. destruct n as [|n]; [lia|].
        assert (P (Z.of_nat n)) as HP' by (apply Hiff; lia).
        lia.
      * apply Hiff. lia.
Qed.

Context (loaded : gmap string (option DataFrame)) (S R : Z).
Context (Hgrid : S * R ≠ 0).
Context (Hloaded : map_Forall (λ _ o, is_Some o) loaded).

Let accounts := sorted_accounts loaded.
Let ids := sorted (files_by_account_keys loaded).
Let data_map := data_map_of loaded.
Let chunk_sizes := (λ df, chunk_size (height df) (S * R)) <$> data_map.

Lemma shards_loop_created (fs : list Z) (created : list Z) (w : world) :
  ∃ w',
    for_each fs
      (λ file_idx (created_files : list Z),
         print (BuildingFile file_idx);;
         file_buffer ← build_file_buffer data_map chunk_sizes ids R file_idx;
         match file_buffer with
         | [] => print (WarningFileEmpty file_idx);; mret created_files
         | _ =>
             final_df ← concat file_buffer;
             write_parquet file_idx final_df;;
             print (Saved file_idx (height final_df));;
             mret (created_files ++ [file_idx])
         end)
      created w
    = (Returns (created ++ filter (λ f, shard_content accounts S R f ≠ []) fs), w').
Proof.
  revert created w. induction fs as [|f0 fs IH]; intros created w.
  - exists w. by rewrite app_nil_r.
  - rewrite for_each_cons, filter_cons.
    destruct (file_buffer_of_shard loaded S R Hloaded f0
                (mkWorld (out_dir w) (stdout w ++ [BuildingFile f0])))
      as (fb & E & Hjoin & Hnil).
    destruct fb as [|c fb].
    + destruct (IH created (mkWorld (out_dir w)
                  ((stdout w ++ [BuildingFile f0]) ++ [WarningFileEmpty f0])))
        as (w' & Eloop).
      exists w'. rewrite decide_False by (intros Hc; apply Hc, Hnil; done).
      erewrite bind_returns;
        [|run_step; erewrite bind_returns; [|exact E]; reflexivity].
      exact Eloop.
    + destruct (IH (created ++ [f0])
                  (mkWorld (<[f0 := mjoin (c :: fb)]> (out_dir w))
                     ((stdout w ++ [BuildingFile f0]) ++ [Saved f0 (height (mjoin (c :: fb)))])))
        as (w' & Eloop).
      exists w'. rewrite decide_True by (intros Hc; by apply Hnil in Hc).
      rewrite <- (app_assoc created [f0]) in Eloop.
      erewrite bind_returns;
        [|run_step; erewrite bind_returns; [|exact E]; reflexivity].
      exact Eloop.
Qed.
End interleaver_created.

Section interleaver_created_files.
Import ProcessData.

(** X5.  The files created are numbered without a gap.  With every
    account loaded, [S > 0] and [R > 0], the run returns and there is a
    [k] between 0 and [S] such that the last line printed lists the files
    [0 .. k-1] as created, each of them is written with at least one row,
    and no file from [k] on is written. *)
Theorem created_files_are_a_prefix (loaded : gmap string (option DataFrame)) (S R : Z)
    (w : world) :
  0 < S → 0 < R → map_Forall (λ _ o, is_Some o) loaded →
  ∃ w' k,
    process_data loaded S R w = (Returns (), w')
    ∧ 0 ≤ k ≤ S
    ∧ last (stdout w') = Some (ProcessingComplete (range k))
    ∧ (∀ f, 0 ≤ f < k → ∃ df, out_dir w' !! f = Some df ∧ df ≠ [])
    ∧ (∀ f, k ≤ f → out_dir w' !! f = out_dir w !! f).
Proof.
  intros HS HR Hloaded.
  assert (S * R ≠ 0) as Hgrid by nia.
  destruct (process_data_shards loaded S R Hgrid Hloaded w) as (w' & E & Hout).
  destruct (filter_range_prefix
              (λ f, shard_content (sorted_accounts loaded) S R f ≠ []) (Z.to_nat S))
    as (k & Hk & Hfilter & Hiff).
  { intros f Hf Hne Hnil.
    pose proof (shard_content_shrinks (sorted_accounts loaded) S R f HS HR Hf) as Hle.
    rewrite Hnil in Hle. unfold height in Hle.
    destruct (shard_content (sorted_accounts loaded) S R (f + 1)); [done|].
    simpl in Hle. lia. }
  rewrite Z2Nat.id in Hk, Hfilter, Hiff by lia.
  exists w', k. split; [exact E|]. split; [exact Hk|].
  destruct (shards_loop_created loaded S R Hloaded (range S) []
              (mkWorld (out_dir w) (stdout w ++ [StartingRoundRobin S R])))
    as (w1 & Eloop).
  rewrite app_nil_l, Hfilter in Eloop.
  assert (w' = mkWorld (out_dir w1) (stdout w1 ++ [ProcessingComplete (range k)])) as Hw'.
  { unfold process_data in E.
    erewrite bind_returns in E; [|by apply chunk_sizes_of_returns].
    erewrite bind_returns in E; [|reflexivity].
    erewrite bind_returns in E; [|exact Eloop].
    by injection E as <-. }
  split; [rewrite Hw'; cbn [stdout]; by rewrite last_snoc|].
  split.
  - intros f Hf. rewrite Hout. rewrite decide_True; [|split; [lia|apply Hiff; lia]].
    eexists. split; [done|]. apply Hiff; lia.
  - intros f Hf. rewrite Hout. rewrite decide_False; [done|].
    intros [Hrange Hne]. apply Hiff in Hne; lia.
Qed.
End interleaver_created_files.

Section interleaver_witnesses.
Import ProcessData ProcessDataExample.

Lemma example_accounts_loaded : map_Forall (λ _ (o : option DataFrame), is_Some o) loaded.
Proof. apply (bool_decide_unpack _). vm_compute. exact I. Defined.

Lemma negative_grid_writes_nothing_witness :
  -1 * 10 ≠ 0 ∧ (-1 < 0 ∨ 10 < 0)
  ∧ ∃ w', process_data loaded (-1) 10 empty_world = (Returns (), w')
          ∧ out_dir w' = out_dir empty_world.
Proof.
  split; [lia|]. split; [left; lia|].
  destruct (negative_grid_writes_nothing loaded (-1) 10 empty_world ltac:(lia)
              ltac:(left; lia)) as (w' & E & Hout & _).
  exists w'. split; [exact E|exact Hout].
Defined.

Lemma unreadable_account_raises_witness :
  0 < 2
  ∧ ({[ "A" := Some A; "B" := None ]}%string : gmap string (option DataFrame)) !! "B"%string = Some None
  ∧ ∃ b w', process_data {[ "A" := Some A; "B" := None ]}%string 2 2 empty_world
            = (Raises (KeyError b), w').
Proof.
  assert (({[ "A" := Some A; "B" := None ]}%string : gmap string (option DataFrame)) !! "B"%string
          = Some None) as Hunread by (vm_compute; reflexivity).
  split; [lia|]. split; [exact Hunread|].
  destruct (unreadable_account_raises {[ "A" := Some A; "B" := None ]}%string 2 2 empty_world "B"%string
              ltac:(lia) ltac:(lia) Hunread) as (before & b & after & _ & _ & _ & E).
  exists b. eexists. exact E.
Defined.

Lemma empty_grid_aborts_witness :
  0 * 10 = 0 ∧ data_map_of loaded ≠ ∅
  ∧ process_data loaded 0 10 empty_world = (Raises ZeroDivisionError, empty_world).
Proof.
  assert (data_map_of loaded ≠ ∅) as Hdata.
  { intros Hempty. apply (f_equal (λ m, m !! "A"%string)) in Hempty.
    vm_compute in Hempty. discriminate Hempty. }
  split; [reflexivity|]. split; [exact Hdata|].
  apply (empty_grid_aborts loaded 0 10 empty_world); [reflexivity|exact Hdata].
Defined.

Lemma shards_hold_account_blocks_witness :
  0 < 2 ∧ map_Forall (λ _ (o : option DataFrame), is_Some o) loaded ∧ out_dir empty_world = ∅
  ∧ ∃ w', process_data loaded 2 2 empty_world = (Returns (), w')
          ∧ height (default [] (out_dir w' !! 1)) ≤ height (default [] (out_dir w' !! 0)).
Proof.
  split; [lia|]. split; [exact example_accounts_loaded|]. split; [reflexivity|].
  destruct (shards_hold_account_blocks loaded 2 2 empty_world ltac:(lia) ltac:(lia)
              example_accounts_loaded eq_refl) as (w' & E & _ & Hshrink).
  exists w'. split; [exact E|]. apply (Hshrink 0). lia.
Defined.

Lemma created_files_are_a_prefix_witness :
  0 < 2 ∧ map_Forall (λ _ (o : option DataFrame), is_Some o) loaded
  ∧ ∃ w' k, process_data loaded 2 2 empty_world = (Returns (), w')
            ∧ last (stdout w') = Some (ProcessingComplete (range k)).
Proof.
  split; [lia|]. split; [exact example_accounts_loaded|].
  destruct (created_files_are_a_prefix loaded 2 2 empty_world ltac:(lia) ltac:(lia)
              example_accounts_loaded) as (w' & k & E & _ & Hlast & _).
  exists w', k. split; [exact E|exact Hlast].
Defined.

Lemma interleaver_conserves_rows_witness :
  0 < 2 ∧ map_Forall (λ _ (o : option DataFrame), is_Some o) loaded ∧ out_dir empty_world = ∅
  ∧ ∃ w', process_data loaded 2 2 empty_world = (Returns (), w')
          ∧ range 2 ≫= (λ f, default [] (out_dir w' !! f)) ≡ₚ sorted_accounts loaded ≫= snd.
Proof.
  split; [lia|]. split; [exact example_accounts_loaded|]. split; [reflexivity|].
  destruct (interleaver_conserves_rows loaded 2 2 empty_world ltac:(lia) ltac:(lia)
              example_accounts_loaded eq_refl) as (w' & E & Hperm & _).
  exists w'. split; [exact E|exact Hperm].
Defined.
End interleaver_witnesses.

(** ** merge_partitions.py: account directories *)

Section merge_names.
Import Text MergePartitions.
#[local] Open Scope string_scope.

(** X9.  [extract_account_id] of merge_partitions.py.  For a directory
    named [account_<id><rest>], where [<id>] holds no ["_"] and [<rest>]
    is empty or starts with ["_"], the account id is [<id>]:
    [account_316022_dataset] gives [316022].  A name without ["_"] is its
    own account id. *)
Theorem account_id_of_directory_name :
  (∀ (id rest : string) (d : dir_entry),
     name d = "account_" +:+ id +:+ rest →
     has_char "_" id = false → rest = "" ∨ String.prefix "_" rest = true →
     extract_account_id d = id)
  ∧ (∀ d, has_char "_" (name d) = false → extract_account_id d = name d).
Proof.
  split.
  - intros id rest d Hname Hid Hrest. unfold extract_account_id. rewrite Hname.
    change ("account_" +:+ id +:+ rest) with ("account" +:+ String "_" (id +:+ rest)).
    rewrite split_app. change (split "_" "account") with ["account"].
    destruct Hrest as [->|Hrest].
    + assert (id +:+ "" = id) as ->.
      { clear. induction id as [|c id IH]; [done|]. by rewrite append_cons, IH. }
      by rewrite split_no_sep.
    + apply prefix_inv in Hrest as [rest' ->].
      change ("_" +:+ rest') with (String "_" rest').
      rewrite split_app, split_no_sep by done. done.
  - intros d Hd. unfold extract_account_id. by rewrite split_no_sep.
Qed.

Lemma account_id_of_directory_name_witness :
  has_char "_" "316022" = false
  ∧ extract_account_id (mkDir "account_316022_dataset" true ∅) = "316022".
Proof.
  split; [reflexivity|].
  apply (proj1 account_id_of_directory_name "316022" "_dataset");
    [reflexivity|reflexivity|right; reflexivity].
Defined.

(** X10.  [get_account_dirs] returns without changing anything; its
    result holds the entries of the input folder that are directories and
    whose name starts with ["account_"], all of them and each as often as
    it is listed, sorted by name. *)
Theorem account_dirs_sorted_and_complete (w : world) :
  ∃ account_dirs,
    get_account_dirs w = (Returns account_dirs, w)
    ∧ Sorted str_le (name <$> account_dirs)
    ∧ account_dirs ≡ₚ filter (λ d, is_dir d = true ∧ String.prefix "account_" (name d) = true)
                        (base_dir w)
    ∧ (∀ d, d ∈ account_dirs ↔
            d ∈ base_dir w ∧ is_dir d = true ∧ String.prefix "account_" (name d) = true)
    ∧ (∀ d, d ∈ account_dirs → ∃ rest, name d = "account_" +:+ rest).
Proof.
  exists (account_dirs_of (base_dir w)). split; [done|].
  assert (Hperm : account_dirs_of (base_dir w)
                  ≡ₚ filter (λ d, is_dir d = true ∧ String.prefix "account_" (name d) = true)
                       (base_dir w)) by apply merge_sort_Permutation.
  assert (Hmem : ∀ d, d ∈ account_dirs_of (base_dir w) ↔
            d ∈ base_dir w ∧ is_dir d = true ∧ String.prefix "account_" (name d) = true).
  { intros d. rewrite Hperm, list_elem_of_filter. tauto. }
  split; [|split; [done|split; [done|]]].
  - unfold account_dirs_of.
    assert (base.Total (λ a b : dir_entry, str_le (name a) (name b))) as Htotal.
    { intros a b. apply str_le_total. }
    pose proof (Sorted_merge_sort (λ a b, str_le (name a) (name b))
                  (filter (λ d, is_dir d = true ∧ String.prefix "account_" (name d) = true)
                     (base_dir w))) as Hs.
    induction Hs as [|d l _ IH Hhd]; [constructor|].
    rewrite fmap_cons. constructor; [done|]. destruct Hhd; constructor; done.
  - intros d (_ & _ & Hp)%Hmem. by apply prefix_inv.
Qed.
End merge_names.

(** ** merge_partitions.py: what a merge writes *)

Section merge_output_facts.
Import MergePartitions MergeOutput.









End merge_output_facts.

Section merge_refused.
Import MergePartitions MergeOutput.

Lemma stream_file_refused (pf : part_file) (path : Z) (w : world) :
  path ∈ read_only w → writer w = None →
  (∃ z, stream_file pf path w = (Returns z, w) ∧ z = 0)
  ∨ (∃ e, stream_file pf path w = (Raises e, w) ∧ ∀ code, e ≠ SystemExit code).
Proof.
  intros Hro Hwr. unfold stream_file.
  assert (∀ rows : DataFrame,
            rows = [] ∧ for_each (iter_batches BATCH_SIZE rows) (write_batch path) 0 w
                        = (Returns 0, w)
            ∨ for_each (iter_batches BATCH_SIZE rows) (write_batch path) 0 w
              = (Raises (OSError path), w)) as Hbatches.
  { intros [|r rows]; [by left|]. right.
    unfold iter_batches. cbn [length batches_of]. rewrite for_each_cons.
    erewrite bind_raises; [reflexivity|].
    unfold write_batch. run_step. cbn beta. rewrite Hwr.
    erewrite bind_raises; [reflexivity|].
    unfold ParquetWriter. run_step. cbn beta. by rewrite decide_True. }
  destruct pf as [rows|rows]; destruct (Hbatches rows) as [[-> E]|E].
  - left. exists 0. split; [|done]. erewrite bind_returns; [|exact E]. reflexivity.
  - right. exists (OSError path). split; [|done]. erewrite bind_raises; [reflexivity|exact E].
  - right. exists (ValueError "corrupt parquet file"). split; [|done].
    erewrite bind_returns; [|exact E]. reflexivity.
  - right. exists (OSError path). split; [|done]. erewrite bind_raises; [reflexivity|exact E].
Qed.

Lemma merge_account_refused (idx path : Z) (d : dir_entry) (total accounts : Z) (w : world) :
  path ∈ read_only w → writer w = None →
  ∃ accounts' w',
    merge_account idx path d (total, accounts) w = (Returns (total, accounts'), w')
    ∧ out_dir w' = out_dir w ∧ writer w' = None ∧ same_env w w'.
Proof.
  intros Hro Hwr. unfold merge_account.
  destruct (files d !! (extract_account_id d, idx)) as [pf|].
  - destruct (stream_file_refused pf path w Hro Hwr) as [(z & E & ->)|(e & E & He)].
    + unfold try_except. erewrite bind_returns; [|exact E]. cbv zeta.
      rewrite Z.add_0_r.
      destruct (decide ((accounts + 1) `mod` 10 = 0)); eexists _, _;
        (split; [reflexivity|]); done.
    + unfold try_except. erewrite bind_raises; [|exact E].
      destruct e as [| | | | |code]; [..|by destruct (He code)];
        eexists _, _; (split; [reflexivity|done]).
  - eexists _, _. split; [reflexivity|]. done.
Qed.

Lemma merge_accounts_refused (idx path : Z) (ds : list dir_entry) (total accounts : Z)
    (w : world) :
  path ∈ read_only w → writer w = None →
  ∃ accounts' w',
    for_each ds (merge_account idx path) (total, accounts) w = (Returns (total, accounts'), w')
    ∧ out_dir w' = out_dir w ∧ same_env w w'.
Proof.
  revert accounts w. induction ds as [|d ds IH]; intros accounts w Hro Hwr.
  - by exists accounts, w.
  - destruct (merge_account_refused idx path d total accounts w Hro Hwr)
      as (a1 & w1 & E1 & Hout1 & Hwr1 & Henv1).
    destruct (IH a1 w1) as (a2 & w2 & E2 & Hout2 & Henv2); [|done|].
    { destruct Henv1 as [_ ->]. done. }
    exists a2, w2. split; [|split; [congruence|by eapply same_env_trans]].
    rewrite for_each_cons. erewrite bind_returns; [|exact E1]. exact E2.
Qed.

(** X12.  When the output path cannot be opened for writing,
    [merge_partition] still returns: it reports 0 documents, leaves every
    file of the output folder as it is, and logs the warnings for the
    missing partition files as usual. *)
Theorem unwritable_output_merges_nothing (idx : Z) (ds : list dir_entry) (path : Z)
    (w : world) :
  path ∈ read_only w →
  ∃ w' t accounts,
    merge_partition idx ds path w = (Returns 0, w')
    ∧ out_dir w' = out_dir w
    ∧ trace w' = trace w ++ [MergeStarting idx] ++ t ++ [MergeComplete idx 0 accounts]
    ∧ warnings t = missing_files idx ds.
Proof.
  intros Hro.
  destruct (merge_partition_outcome idx ds path w)
    as (w' & t & total & accounts & E & _ & Ht & Hw & _).
  destruct (merge_accounts_refused idx path ds 0 0
              (set_writer None (mkWorld (base_dir w) (out_dir w) (read_only w) (writer w)
                                  (trace w ++ [MergeStarting idx]))))
    as (accounts' & w1 & E1 & Hout1 & _); [done..|].
  pose proof E as E'. unfold merge_partition in E'.
  do 2 (erewrite bind_returns in E'; [|reflexivity]). simpl_world.
  erewrite bind_returns in E'; [|exact E1].
  cbn in E'. injection E' as Htotal Hw'. subst total.
  exists w', t, accounts.
  split; [exact E|]. split; [by rewrite <- Hw'|]. split; [exact Ht|exact Hw].
Qed.
End merge_refused.

(** ** merge_partitions.py: a whole run *)

Section merge_run_output.
Import MergePartitions MergeOutput.
Context (gen_index : Z → nat → nat → nat).





End merge_run_output.

Section merge_exit.
Import MergePartitions.
Context (gen_index : Z → nat → nat → nat).

(** X14.  When no entry of the input folder is a directory whose name
    starts with ["account_"], the run logs that it found none and exits
    with status 1 before any merge: no file of the output folder is
    written. *)
Theorem run_without_account_dirs_exits (argv1 : option Z) (w : world) :
  Forall (λ d, is_dir d = false ∨ String.prefix "account_" (name d) = false) (base_dir w) →
  ∃ w', main gen_index argv1 w = (Raises (SystemExit 1), w')
        ∧ out_dir w' = out_dir w
        ∧ trace w' = trace w ++ [match argv1 with
                                 | Some i => ProcessingSingle i
                                 | None => ProcessingAll
                                 end;
                                 FoundAccountDirs 0; ErrorNoAccountDirs].
Proof.
  intros Hnone.
  assert (account_dirs_of (base_dir w) = []) as Hdirs.
  { unfold account_dirs_of. rewrite filter_none; [done|].
    eapply Forall_impl; [exact Hnone|]. intros d [Hd|Hd] [Hdir Hpre]; congruence. }
  unfold main.
  set (w0 := mkWorld (base_dir w) (out_dir w) (read_only w) (writer w)
               (trace w ++ [match argv1 with
                            | Some i => ProcessingSingle i
                            | None => ProcessingAll
                            end])).
  eexists. split; [|split].
  - erewrite (bind_returns _ _ w (partitions_of argv1) w0); [|by destruct argv1].
    erewrite bind_returns; [|reflexivity].
    run_step. erewrite bind_raises; [reflexivity|].
    cbn [base_dir w0]. rewrite Hdirs. reflexivity.
  - reflexivity.
  - cbn. by rewrite <- !app_assoc.
Qed.
End merge_exit.

Section merge_witnesses.
Import MergePartitions MergeOutput MergeExample.


Lemma unwritable_output_merges_nothing_witness :
  0 ∈ read_only start_read_only
  ∧ ∃ w', merge_partition 0 account_dirs 0 start_read_only = (Returns 0, w')
          ∧ out_dir w' = out_dir start_read_only.
Proof.
  assert (0 ∈ read_only start_read_only) as Hro by (by vm_compute).
  split; [exact Hro|].
  destruct (unwritable_output_merges_nothing 0 account_dirs 0 start_read_only Hro)
    as (w' & t & accounts & E & Hout & _).
  exists w'. split; [exact E|exact Hout].
Defined.


Lemma run_without_account_dirs_exits_witness :
  Forall (λ d, is_dir d = false ∨ String.prefix "account_" (name d) = false)
    [mkDir "notes.txt" false ∅; mkDir "scratch" true ∅]
  ∧ ∃ w', main draws None (mkWorld [mkDir "notes.txt" false ∅; mkDir "scratch" true ∅]
                             ∅ ∅ None [])
          = (Raises (SystemExit 1), w')
          ∧ out_dir w' = ∅.
Proof.
  assert (Forall (λ d, is_dir d = false ∨ String.prefix "account_" (name d) = false)
            [mkDir "notes.txt" false ∅; mkDir "scratch" true ∅]) as Hnone.
  { constructor; [left; reflexivity|]. constructor; [right; reflexivity|]. constructor. }
  split; [exact Hnone|].
  destruct (run_without_account_dirs_exits draws None
              (mkWorld [mkDir "notes.txt" false ∅; mkDir "scratch" true ∅] ∅ ∅ None [])
              Hnone) as (w' & E & Hout & _).
  exists w'. split; [exact E|exact Hout].
Defined.
End merge_witnesses.

(** ** balance_partitions.py *)

Section balancer_more.
Import BalancePartitions.

Lemma shares_exhausted (T : Z) (pool : DataFrame) (dir : gmap Z DataFrame) (idxs : list Z)
    (offset : Z) :
  height pool ≤ offset → Forall (λ r, r = []) (shares T pool dir idxs offset).
Proof.
  intros Hoff. induction idxs as [|i idxs IH]; [constructor|].
  cbn [shares].
  assert (received T pool i offset (default [] (dir !! i)) = []) as ->.
  { unfold received. rewrite decide_False; [done|]. lia. }
  constructor; [done|]. change (height []) with 0. by rewrite Z.add_0_r.
Qed.

Lemma shares_short (T : Z) (pool : DataFrame) (dir : gmap Z DataFrame) (idxs : list Z)
    (offset : Z) (k k' : nat) (i : Z) (r r' : DataFrame) :
  0 ≤ offset ≤ height pool →
  idxs !! k = Some i → i < 9 →
  shares T pool dir idxs offset !! k = Some r →
  height (default [] (dir !! i)) + height r < T →
  (k < k')%nat → shares T pool dir idxs offset !! k' = Some r' → r' = [].
Proof.
  revert offset k k'. induction idxs as [|i0 idxs IH]; intros offset k k' Hoff Hk Hi Hr Hshort Hlt Hr';
    [done|].
  cbn [shares] in Hr, Hr'.
  destruct (received_contiguous T pool i0 offset (default [] (dir !! i0)) Hoff) as [Hle _].
  destruct k as [|k].
  - injection Hk as ->. injection Hr as <-.
    destruct k' as [|k']; [lia|]. cbn in Hr'.
    assert (height pool ≤ offset + height (received T pool i offset (default [] (dir !! i))))
      as Hdry.
    { rewrite received_sink in Hshort |- * by lia. cbv zeta in *.
      destruct (decide (0 < T - height (default [] (dir !! i)) ∧ 0 < height pool - offset))
        as [[Hd Hrem]|Hno].
      - rewrite height_slice in Hshort |- * by lia. lia.
      - change (height []) with 0 in *. lia. }
    pose proof (shares_exhausted T pool dir idxs _ Hdry) as Hall.
    rewrite Forall_lookup in Hall. by eapply Hall.
  - destruct k' as [|k']; [lia|]. cbn in Hk, Hr, Hr'.
    eapply (IH _ k k'); [|exact Hk|exact Hi|exact Hr|exact Hshort|lia|exact Hr'].
    unfold height in *. lia.
Qed.

Lemma sink_shards_lookup (k : nat) (i : Z) : sink_shards !! k = Some i → i = 5 + Z.of_nat k.
Proof.
  rewrite sink_shards_eq. do 5 (destruct k as [|k]; [by intros [= <-]|]). done.
Qed.

(** X16.  In a completed pass, once a sink shard other than the absorber
    is left with fewer than [T] rows the pool is used up: every later sink
    shard, the absorber included, is copied unchanged. *)
Theorem short_sink_ends_distribution (T : Z) (w : world) (i : Z) :
  0 ≤ T →
  (∀ i, i ∈ range NUM_PARTITIONS → is_Some (in_dir w !! i)) →
  excess_frames T (in_dir w) source_shards ≠ [] →
  i ∈ sink_shards → i ≠ absorber →
  ∃ w', main T w = (Returns (), w')
        ∧ (count (out_dir w') i < T →
           ∀ j, j ∈ sink_shards → i < j → out_dir w' !! j = in_dir w !! j).
Proof.
  intros HT Hin Hexcess Hi Habs.
  destruct (main_returns T w HT Hin Hexcess) as (w' & E & _ & _ & Hsinks & _).
  exists w'. split; [exact E|]. intros Hshort j Hj Hij.
  apply list_elem_of_lookup in Hi as [k Hk]. apply list_elem_of_lookup in Hj as [k' Hk'].
  destruct (Hsinks k i Hk) as (df & r & Hdf & Hr & Hout).
  destruct (Hsinks k' j Hk') as (df' & r' & Hdf' & Hr' & Hout').
  assert (r' = []) as ->.
  { eapply (shares_short T _ (in_dir w) sink_shards 0 k k' i r r'); try done.
    - unfold height. lia.
    - pose proof (lookup_lt_Some _ _ _ Hk) as Hlen.
      rewrite sink_shards_eq in Hlen. simpl in Hlen.
      apply sink_shards_lookup in Hk. unfold absorber in Habs. lia.
    - rewrite Hdf. cbn. unfold count in Hshort. rewrite Hout in Hshort. cbn in Hshort.
      unfold height in *. rewrite length_app in Hshort. lia.
    - apply sink_shards_lookup in Hk, Hk'. lia. }
  by rewrite Hout', app_nil_r.
Qed.

Lemma main_raises_without_excess (T : Z) (w : world) :
  (∀ i, i ∈ source_shards → ∃ df, in_dir w !! i = Some df ∧ height df ≤ T) →
  ∃ w', main T w = (Raises (ValueError "cannot concat empty list"), w').
Proof.
  intros Hfit.
  assert (0 ≤ T) as HT.
  { destruct (Hfit 0 ltac:(by left)) as (df & _ & Hle). unfold height in Hle. lia. }
  destruct (collect_loop T source_shards [] w HT) as (w1 & E1 & _).
  { intros i Hi. destruct (Hfit i Hi) as (df & -> & _). by eexists. }
  rewrite excess_frames_nil in E1.
  2:{ intros i df Hi Hdf. destruct (Hfit i Hi) as (df' & Hdf' & Hle). congruence. }
  eexists. unfold main. erewrite bind_returns; [|exact E1]. by run_step.
Qed.

(** X17.  A balanced output cannot be balanced again: after a completed
    pass no source shard of the output exceeds [T], so that a pass that
    takes this output as its input raises [ValueError] at the
    concatenation of its empty list of excess frames. *)
Theorem second_pass_aborts (T : Z) (w : world) :
  0 ≤ T →
  (∀ i, i ∈ range NUM_PARTITIONS → is_Some (in_dir w !! i)) →
  excess_frames T (in_dir w) source_shards ≠ [] →
  ∃ w', main T w = (Returns (), w')
        ∧ ∀ out t, ∃ w'',
            main T (mkWorld (out_dir w') out t)
            = (Raises (ValueError "cannot concat empty list"), w'').
Proof.
  intros HT Hin Hexcess.
  destruct (main_returns T w HT Hin Hexcess) as (w' & E & _ & Hsrc & _).
  exists w'. split; [exact E|]. intros out t.
  apply main_raises_without_excess. intros i Hi. cbn [in_dir].
  rewrite (Hsrc i Hi).
  destruct (Hin i) as [df Hdf].
  { rewrite all_shards_eq. apply elem_of_app. by left. }
  rewrite Hdf. eexists. split; [reflexivity|].
  unfold height. rewrite length_take. lia.
Qed.

(** X18.  A missing input shard.  If shard [k] is the first one missing
    and, when [k] is a sink shard, some source shard exceeds [T], the pass
    raises [FileNotFoundError] for [k]: the shards before [k] have been
    written, shard [k] and the later ones have not. *)
Theorem missing_shard_aborts (T : Z) (w : world) (k : Z) :
  0 ≤ T → k ∈ range NUM_PARTITIONS → in_dir w !! k = None →
  (∀ i, i ∈ range NUM_PARTITIONS → i < k → is_Some (in_dir w !! i)) →
  (k ∈ sink_shards → excess_frames T (in_dir w) source_shards ≠ []) →
  ∃ w', main T w = (Raises (FileNotFoundError k), w')
        ∧ (∀ i, i ∈ range NUM_PARTITIONS → i < k → is_Some (out_dir w' !! i))
        ∧ (∀ j, k ≤ j → out_dir w' !! j = out_dir w !! j).
Proof.
  intros HT Hk Hmissing Hbefore Hexcess.
  rewrite all_shards_eq, elem_of_app in Hk. destruct Hk as [Hk|Hk].
  - (* a source shard *)
    assert (∃ pre post, source_shards = pre ++ k :: post ∧ ∀ i, i ∈ pre ↔ 0 ≤ i < k)
      as (pre & post & Hsplit & Hpre).
    { rewrite source_shards_eq, !elem_of_cons, elem_of_nil in Hk.
      destruct Hk as [->|[->|[->|[->|[->|[]]]]]].
      - exists [], [1; 2; 3; 4]. split; [done|]. intros i. rewrite elem_of_nil. lia.
      - exists [0], [2; 3; 4]. split; [done|]. intros i.
        rewrite !elem_of_cons, elem_of_nil. lia.
      - exists [0; 1], [3; 4]. split; [done|]. intros i.
        rewrite !elem_of_cons, elem_of_nil. lia.
      - exists [0; 1; 2], [4]. split; [done|]. intros i.
        rewrite !elem_of_cons, elem_of_nil. lia.
      - exists [0; 1; 2; 3], []. split; [done|]. intros i.
        rewrite !elem_of_cons, elem_of_nil. lia. }
    destruct (collect_loop T pre [] w HT) as (w1 & E1 & Hin1 & _ & Hout1).
    { intros i Hi. apply Hpre in Hi. apply Hbefore; [|lia].
      apply elem_of_range. unfold NUM_PARTITIONS.
      assert (k ∈ source_shards) as Hks by (rewrite Hsplit, elem_of_app; right; by left).
      rewrite source_shards_eq, !elem_of_cons, elem_of_nil in Hks. lia. }
    eexists. split; [|split].
    + unfold main. erewrite bind_raises; [reflexivity|].
      change (range 5) with source_shards. rewrite Hsplit.
      eapply for_each_raises; [exact E1|]. apply collect_raises. by rewrite Hin1.
    + intros i Hi Hlt. cbn [out_dir]. rewrite Hout1.
      apply elem_of_range in Hi.
      rewrite decide_True by (apply Hpre; lia).
      destruct (Hbefore i) as [df ->]; [by apply elem_of_range|done|by eexists].
    + intros j Hj. cbn [out_dir]. rewrite Hout1, decide_False; [done|].
      rewrite Hpre. lia.
  - (* a sink shard *)
    assert (∃ pre post, sink_shards = pre ++ k :: post ∧ ∀ i, i ∈ pre ↔ 5 ≤ i < k)
      as (pre & post & Hsplit & Hpre).
    { rewrite sink_shards_eq, !elem_of_cons, elem_of_nil in Hk.
      destruct Hk as [->|[->|[->|[->|[->|[]]]]]].
      - exists [], [6; 7; 8; 9]. split; [done|]. intros i. rewrite elem_of_nil. lia.
      - exists [5], [7; 8; 9]. split; [done|]. intros i.
        rewrite !elem_of_cons, elem_of_nil. lia.
      - exists [5; 6], [8; 9]. split; [done|]. intros i.
        rewrite !elem_of_cons, elem_of_nil. lia.
      - exists [5; 6; 7], [9]. split; [done|]. intros i.
        rewrite !elem_of_cons, elem_of_nil. lia.
      - exists [5; 6; 7; 8], []. split; [done|]. intros i.
        rewrite !elem_of_cons, elem_of_nil. lia. }
    assert (5 ≤ k < 10) as Hkrange.
    { rewrite sink_shards_eq, !elem_of_cons, elem_of_nil in Hk. lia. }
    destruct (collect_loop T source_shards [] w HT) as (w1 & E1 & Hin1 & _ & Hout1).
    { intros i Hi. rewrite source_shards_eq, !elem_of_cons, elem_of_nil in Hi.
      apply Hbefore; [|lia]. apply elem_of_range. unfold NUM_PARTITIONS. lia. }
    set (pool := mjoin (excess_frames T (in_dir w) source_shards)).
    set (w1' := mkWorld (in_dir w1) (out_dir w1)
                  ((trace w1 ++ [CombiningExcess]) ++ [TotalExcess (height pool)])).
    destruct (distribute_loop T pool pre 0 w1')
      as (w2 & E2 & Hin2 & _ & Hother2 & Hout2).
    { assert (NoDup sink_shards) as Hnd by (apply (bool_decide_unpack _); by vm_compute).
      rewrite Hsplit in Hnd. by apply NoDup_app in Hnd as [? _]. }
    { intros i Hi. cbn [in_dir w1']. rewrite Hin1. apply Hpre in Hi.
      apply Hbefore; [|lia]. apply elem_of_range. unfold NUM_PARTITIONS. lia. }
    cbn [in_dir out_dir w1'] in Hin2, Hother2, Hout2.
    eexists. split; [|split].
    + unfold main. erewrite bind_returns; [|exact E1]. rewrite app_nil_l.
      run_step. erewrite bind_returns; [|apply concat_returns; by apply Hexcess].
      cbv zeta. run_step.
      erewrite bind_raises; [reflexivity|].
      change (range_from 5 NUM_PARTITIONS) with sink_shards. rewrite Hsplit.
      eapply for_each_raises; [exact E2|].
      apply distribute_raises. by rewrite Hin2, Hin1.
    + intros i Hi Hlt. cbn [out_dir]. apply elem_of_range in Hi.
      destruct (decide (i < 5)) as [Hsrc|Hsnk].
      * rewrite Hother2 by (rewrite Hpre; lia).
        rewrite Hout1, decide_True
          by (rewrite source_shards_eq, !elem_of_cons, elem_of_nil; lia).
        destruct (Hbefore i) as [df ->]; [by apply elem_of_range|done|by eexists].
      * assert (i ∈ pre) as [n Hn]%list_elem_of_lookup by (apply Hpre; lia).
        destruct (Hout2 n i Hn) as (df & r & _ & _ & ->). by eexists.
    + intros j Hj. cbn [out_dir]. rewrite Hother2 by (rewrite Hpre; lia).
      rewrite Hout1, decide_False; [done|].
      rewrite source_shards_eq, !elem_of_cons, elem_of_nil. lia.
Qed.

(** The verification loop keeps the smallest and the largest count. *)
Lemma verify_loop_extremes (idxs : list Z) (acc : Z * option Z * Z) (w : world) :
  (∀ i, i ∈ idxs → is_Some (out_dir w !! i)) →
  ∃ total min_count max_count t,
    for_each idxs verify acc w =
      (Returns (total, min_count, max_count), mkWorld (in_dir w) (out_dir w) (trace w ++ t))
    ∧ total = foldr Z.add 0 (count (out_dir w) <$> idxs) + acc.1.1
    ∧ (∀ i, i ∈ idxs → count (out_dir w) i ≤ max_count)
    ∧ acc.2 ≤ max_count
    ∧ (max_count = acc.2 ∨ ∃ i, i ∈ idxs ∧ count (out_dir w) i = max_count)
    ∧ match min_count with
      | Some m =>
          (∀ i, i ∈ idxs → m ≤ count (out_dir w) i)
          ∧ (∀ m0, acc.1.2 = Some m0 → m ≤ m0)
          ∧ (acc.1.2 = Some m ∨ ∃ i, i ∈ idxs ∧ count (out_dir w) i = m)
      | None => idxs = [] ∧ acc.1.2 = None
      end.
Proof.
  revert acc w. induction idxs as [|i idxs IH]; intros [[tot mn] mx] w Hout.
  - exists tot, mn, mx, []. cbn [fst snd]. rewrite app_nil_r.
    split; [by destruct w|]. split; [cbn; lia|]. split; [by intros i ?%elem_of_nil|].
    split; [lia|]. split; [by left|].
    destruct mn as [m|]; [|done]. split; [by intros i ?%elem_of_nil|].
    split; [by intros m0 [= ->]|by left].
  - destruct (Hout i ltac:(left)) as [df Hdf].
    assert (count (out_dir w) i = height df) as Hci by (unfold count; by rewrite Hdf).
    edestruct (IH (tot + height df,
                   Some (match mn with Some m => Z.min m (height df) | None => height df end),
                   Z.max mx (height df))
                 (mkWorld (in_dir w) (out_dir w)
                    (trace w ++ [PartitionCount i (height df)])))
      as (tot' & mn' & mx' & t & Eloop & Htot & Hmax & Hmx & Hmaxin & Hmin).
    { intros j Hj. apply Hout. by right. }
    cbn [fst snd in_dir out_dir trace] in *.
    exists tot', mn', mx', (PartitionCount i (height df) :: t).
    split; [|split; [|split; [|split; [|split]]]].
    + rewrite for_each_cons.
      erewrite bind_returns;
        [|unfold verify; erewrite bind_returns; [|by apply count_rows_returns];
          run_step; reflexivity].
      rewrite Eloop. by rewrite <- app_assoc.
    + rewrite Htot, fmap_cons. cbn [foldr]. lia.
    + intros j [->|Hj]%elem_of_cons; [lia|by apply Hmax].
    + lia.
    + destruct Hmaxin as [->|(j & Hj & Hcj)].
      * destruct (Z.max_spec mx (height df)) as [[_ ->]|[_ ->]]; [|by left].
        right. exists i. split; [by left|done].
      * right. exists j. split; [by right|done].
    + destruct mn' as [m'|]; [|by destruct Hmin].
      destruct Hmin as (Hlow & Hacc & Hminin).
      specialize (Hacc _ eq_refl).
      split; [|split].
      * intros j [->|Hj]%elem_of_cons; [destruct mn; lia|by apply Hlow].
      * intros m0 ->. lia.
      * destruct Hminin as [[= Hm']|(j & Hj & Hcj)].
        -- destruct mn as [m|].
           ++ destruct (Z.min_spec m (height df)) as [[_ Hmin]|[_ Hmin]].
              ** left. congruence.
              ** right. exists i. split; [by left|]. congruence.
           ++ right. exists i. split; [by left|]. congruence.
        -- right. exists j. split; [by right|done].
Qed.

(** X19.  The final verification of a completed pass: the last two lines
    logged are the summary and the closing line; the total is that of the
    output folder, and the minimum and the maximum reported bound the row
    count of every output shard and are each the count of one of them. *)
Theorem summary_reports_extremes (T : Z) (w : world) :
  0 ≤ T →
  (∀ i, i ∈ range NUM_PARTITIONS → is_Some (in_dir w !! i)) →
  excess_frames T (in_dir w) source_shards ≠ [] →
  ∃ w' t min_count max_count,
    main T w = (Returns (), w')
    ∧ trace w' = trace w ++ t ++ [Summary (total_count (out_dir w')) (Some min_count) max_count;
                                  BalancingComplete]
    ∧ (∀ i, i ∈ range NUM_PARTITIONS → min_count ≤ count (out_dir w') i ≤ max_count)
    ∧ (∃ i, i ∈ range NUM_PARTITIONS ∧ count (out_dir w') i = min_count)
    ∧ (∃ i, i ∈ range NUM_PARTITIONS ∧ count (out_dir w') i = max_count).
Proof.
  intros HT Hin Hexcess.
  set (pool := excess_pool T (in_dir w)).
  assert (∀ i, i ∈ source_shards → is_Some (in_dir w !! i)) as Hsrc.
  { intros i Hi. apply Hin. rewrite all_shards_eq. apply elem_of_app. by left. }
  assert (∀ i, i ∈ sink_shards → is_Some (in_dir w !! i)) as Hsnk.
  { intros i Hi. apply Hin. rewrite all_shards_eq. apply elem_of_app. by right. }
  destruct (collect_loop T source_shards [] w HT Hsrc)
    as (w1 & E1 & Hin1 & (t1 & Ht1 & _) & Hout1).
  set (w1' := mkWorld (in_dir w1) (out_dir w1)
                ((trace w1 ++ [CombiningExcess]) ++ [TotalExcess (height pool)])).
  destruct (distribute_loop T pool sink_shards 0 w1')
    as (w2 & E2 & Hin2 & [t2 Ht2] & Hother2 & Hout2).
  { apply (bool_decide_unpack _). by vm_compute. }
  { intros i Hi. cbn [in_dir w1']. rewrite Hin1. by apply Hsnk. }
  cbn [in_dir out_dir trace w1'] in E2, Hin2, Ht2, Hother2, Hout2.
  rewrite Hin1 in E2, Hin2, Hout2.
  destruct (verify_loop_extremes (range NUM_PARTITIONS) (0, None, 0) w2)
    as (total & mn & mx & t3 & E3 & Htotal & Hmax & Hmx & Hmaxin & Hmin).
  { intros i. rewrite all_shards_eq, elem_of_app. intros [Hi|Hi].
    - rewrite Hother2, Hout1.
      + rewrite decide_True by done. destruct (Hsrc i Hi) as [df ->]. by eexists.
      + rewrite source_shards_eq in Hi. rewrite sink_shards_eq.
        rewrite !elem_of_cons, elem_of_nil in *. lia.
    - apply list_elem_of_lookup in Hi as [k Hk].
      destruct (Hout2 k i Hk) as (df & r & _ & _ & ->). by eexists. }
  cbn [fst snd] in *.
  destruct mn as [m|]; [|by destruct Hmin as [? _]].
  destruct Hmin as (Hlow & _ & Hminin).
  exists (mkWorld (in_dir w2) (out_dir w2)
            (((trace w2 ++ t3) ++ [Summary total (Some m) mx]) ++ [BalancingComplete])),
    (t1 ++ [CombiningExcess; TotalExcess (height pool)] ++ t2 ++ t3), m, mx.
  cbn [out_dir trace].
  split; [|split; [|split; [|split]]].
  - unfold main.
    erewrite bind_returns; [|exact E1]. rewrite app_nil_l.
    run_step.
    erewrite bind_returns; [|by apply concat_returns].
    cbv zeta. run_step.
    erewrite bind_returns; [|exact E2].
    erewrite bind_returns; [|exact E3].
    reflexivity.
  - rewrite Ht2, Ht1, Htotal. unfold total_count. rewrite Z.add_0_r.
    rewrite <- !app_assoc. reflexivity.
  - intros i Hi. split; [by apply Hlow|by apply Hmax].
  - destruct Hminin as [?|?]; done.
  - destruct Hmaxin as [->|?]; [|done].
    exists 0. split; [by apply elem_of_range|].
    pose proof (Hmax 0 ltac:(by apply elem_of_range)) as Hle.
    unfold count, height in *. lia.
Qed.
End balancer_more.

Section balancer_witnesses.
Import BalancePartitions BalanceExample BalanceMissingExample.

Lemma insufficient_excess_complete :
  ∀ i, i ∈ range NUM_PARTITIONS → is_Some (in_dir insufficient_excess !! i).
Proof.
  intros i Hi. rewrite all_shards_eq, source_shards_eq, sink_shards_eq in Hi.
  simpl in Hi. rewrite !elem_of_cons, elem_of_nil in Hi.
  destruct Hi as [->|[->|[->|[->|[->|[->|[->|[->|[->|[->|[]]]]]]]]]]];
    eexists; vm_compute; reflexivity.
Defined.

Lemma insufficient_excess_has_excess :
  excess_frames 10 (in_dir insufficient_excess) source_shards ≠ [].
Proof. intros Hnil. vm_compute in Hnil. discriminate Hnil. Defined.

Lemma short_sink_ends_distribution_witness :
  0 ≤ 10 ∧ 8 ∈ sink_shards ∧ 8 ≠ absorber
  ∧ ∃ w', main 10 insufficient_excess = (Returns (), w')
          ∧ count (out_dir w') 8 < 10
          ∧ out_dir w' !! 9 = in_dir insufficient_excess !! 9.
Proof.
  assert (8 ∈ sink_shards) as H8 by (rewrite sink_shards_eq, !elem_of_cons; tauto).
  assert (9 ∈ sink_shards) as H9 by (rewrite sink_shards_eq, !elem_of_cons; tauto).
  assert (8 ≠ absorber) as Habs by (unfold absorber; lia).
  split; [lia|]. split; [exact H8|]. split; [exact Habs|].
  destruct (short_sink_ends_distribution 10 insufficient_excess 8 ltac:(lia)
              insufficient_excess_complete insufficient_excess_has_excess H8 Habs)
    as (w' & E & Hshort).
  assert (count (out_dir w') 8 < 10) as Hlt.
  { replace w' with (main 10 insufficient_excess).2 by (by rewrite E).
    vm_compute. reflexivity. }
  exists w'. split; [exact E|]. split; [exact Hlt|].
  apply Hshort; [exact Hlt|exact H9|lia].
Defined.

Lemma second_pass_aborts_witness :
  0 ≤ 10
  ∧ ∃ w' w'',
      main 10 insufficient_excess = (Returns (), w')
      ∧ main 10 (mkWorld (out_dir w') ∅ [])
        = (Raises (ValueError "cannot concat empty list"), w'').
Proof.
  split; [lia|].
  destruct (second_pass_aborts 10 insufficient_excess ltac:(lia)
              insufficient_excess_complete insufficient_excess_has_excess)
    as (w' & E & Hagain).
  destruct (Hagain ∅ []) as [w'' E'].
  exists w', w''. split; [exact E|exact E'].
Defined.

Lemma missing_shard_aborts_witness :
  0 ≤ 10 ∧ 7 ∈ range NUM_PARTITIONS ∧ in_dir missing_sink !! 7 = None
  ∧ ∃ w', main 10 missing_sink = (Raises (FileNotFoundError 7), w')
          ∧ out_dir w' !! 7 = None.
Proof.
  assert (7 ∈ range NUM_PARTITIONS) as H7 by (apply elem_of_range; unfold NUM_PARTITIONS; lia).
  assert (in_dir missing_sink !! 7 = None) as Hmissing by (vm_compute; reflexivity).
  split; [lia|]. split; [exact H7|]. split; [exact Hmissing|].
  destruct (missing_shard_aborts 10 missing_sink 7 ltac:(lia) H7 Hmissing)
    as (w' & E & _ & Hlater).
  - intros i Hi Hlt. apply elem_of_range in Hi.
    assert (i = 0 ∨ i = 1 ∨ i = 2 ∨ i = 3 ∨ i = 4 ∨ i = 5 ∨ i = 6) as Hcases by lia.
    destruct Hcases as [->|[->|[->|[->|[->|[->| ->]]]]]]; eexists; vm_compute; reflexivity.
  - intros _ Hnil. vm_compute in Hnil. discriminate Hnil.
  - exists w'. split; [exact E|]. rewrite Hlater by lia. reflexivity.
Defined.

Lemma summary_reports_extremes_witness :
  0 ≤ 10
  ∧ ∃ w' min_count max_count,
      main 10 insufficient_excess = (Returns (), w')
      ∧ (∀ i, i ∈ range NUM_PARTITIONS → min_count ≤ count (out_dir w') i ≤ max_count).
Proof.
  split; [lia|].
  destruct (summary_reports_extremes 10 insufficient_excess ltac:(lia)
              insufficient_excess_complete insufficient_excess_has_excess)
    as (w' & t & mn & mx & E & _ & Hbounds & _).
  exists w', mn, mx. split; [exact E|exact Hbounds].
Defined.

Lemma balancer_conserves_rows_witness :
  0 ≤ 10
  ∧ ∃ w', main 10 insufficient_excess = (Returns (), w')
          ∧ all_rows (out_dir w') ≡ₚ all_rows (in_dir insufficient_excess)
          ∧ total_count (out_dir w') = total_count (in_dir insufficient_excess).
Proof.
  split; [lia|].
  destruct (balancer_conserves_rows 10 insufficient_excess ltac:(lia)
              insufficient_excess_complete insufficient_excess_has_excess)
    as (w' & E & Hperm & _ & Htotal & _).
  exists w'. split; [exact E|]. split; [exact Hperm|exact Htotal].
Defined.
End balancer_witnesses.

(** ** filter_incomplete_queries.py: the filter *)

Section filter_more.
Import FilterIncompleteQueries FilterOutcome.
Context {Query : Type} (extract_account_id : Query → string).

Lemma filter_rows_from (min_neighbors : Z) (rows : list ((Z * Query) * (Z * option (list Z))))
    fq fn im (removed new_id : Z) :
  foldl (λ '(filtered_queries, filtered_neighbors, id_mapping, removed_count, new_id)
           '((old_id, query), (_, neighbors)),
           let neighbor_count :=
             match neighbors with
             | Some (n :: ns) => Z.of_nat (length (n :: ns))
             | _ => 0
             end in
           if decide (neighbor_count >= min_neighbors)
           then
             let new_id := new_id + 1 in
             let account_id := extract_account_id query in
             (filtered_queries ++ [(new_id, query)],
              filtered_neighbors ++ [(new_id, neighbors)],
              id_mapping ++ [mkMapping new_id old_id account_id neighbor_count],
              removed_count, new_id)
           else (filtered_queries, filtered_neighbors, id_mapping, removed_count + 1, new_id))
        (fq, fn, im, removed, new_id) rows
  = (fq ++ imap (λ k row, (new_id + Z.of_nat k + 1, row.1.2)) (kept_rows min_neighbors rows),
     fn ++ imap (λ k row, (new_id + Z.of_nat k + 1, row.2.2)) (kept_rows min_neighbors rows),
     im ++ imap (λ k row, mkMapping (new_id + Z.of_nat k + 1) row.1.1
                            (extract_account_id row.1.2) (neighbor_count_of row.2.2))
             (kept_rows min_neighbors rows),
     removed + (Z.of_nat (length rows) - Z.of_nat (length (kept_rows min_neighbors rows))),
     new_id + Z.of_nat (length (kept_rows min_neighbors rows))).
Proof.
  match goal with |- foldl ?f _ _ = _ => set (step := f) end.
  revert fq fn im removed new_id.
  induction rows as [|[[old q] [nid nb]] rows IH]; intros fq fn im removed new_id.
  - cbn. rewrite !app_nil_r. repeat f_equal; lia.
  - cbn [foldl]. unfold kept_rows. rewrite filter_cons. cbn [fst snd].
    destruct (decide (neighbor_count_of nb >= min_neighbors)) as [Hkeep|Hdrop].
    + assert (step (fq, fn, im, removed, new_id) (old, q, (nid, nb))
              = (fq ++ [(new_id + 1, q)], fn ++ [(new_id + 1, nb)],
                 im ++ [mkMapping (new_id + 1) old (extract_account_id q)
                          (neighbor_count_of nb)],
                 removed, new_id + 1)) as ->.
      { unfold step. cbn beta iota zeta.
        change (match nb with Some (n :: ns) => Z.of_nat (length (n :: ns)) | _ => 0 end)
          with (neighbor_count_of nb).
        by rewrite decide_True. }
      rewrite IH. fold (kept_rows min_neighbors rows).
      cbn [imap length fst snd]. rewrite <- !app_assoc. cbn [app].
      rewrite !Z.add_0_r.
      assert (∀ {B} (f g : nat → _ → B),
                (∀ k row, f k row = g k row) →
                imap f (kept_rows min_neighbors rows) = imap g (kept_rows min_neighbors rows))
        as Himap by (intros B f g Hfg; apply imap_ext; auto).
      f_equal; [f_equal; [f_equal; [f_equal|]|]|].
      * f_equal. f_equal. apply Himap. intros k row. cbn. f_equal. lia.
      * f_equal. f_equal. apply Himap. intros k row. cbn. f_equal. lia.
      * f_equal. f_equal. apply Himap. intros k row. cbn. f_equal. lia.
      * lia.
      * lia.
    + assert (step (fq, fn, im, removed, new_id) (old, q, (nid, nb))
              = (fq, fn, im, removed + 1, new_id)) as ->.
      { unfold step. cbn beta iota zeta.
        change (match nb with Some (n :: ns) => Z.of_nat (length (n :: ns)) | _ => 0 end)
          with (neighbor_count_of nb).
        by rewrite decide_False. }
      rewrite IH. fold (kept_rows min_neighbors rows). cbn [length].
      f_equal. f_equal. lia.
Qed.

Lemma imap_fst_seq {A B} (f : A → B) (l : list A) :
  (imap (λ k x, (Z.of_nat k + 1, f x)) l).*1 = seqZ 1 (Z.of_nat (length l)).
Proof.
  unfold seqZ. rewrite Nat2Z.id, fmap_imap.
  rewrite <- (imap_seq_0 l (λ i, Z.of_nat i + 1)). by apply imap_ext.
Qed.

(** X20.  The filter loop (lines 133-171) keeps the rows whose neighbor
    count - 0 for a null or an empty list - reaches the threshold, in
    input order, and numbers them 1, 2, ...: the queries and the neighbors
    kept carry the ids 1 to the number kept; the mapping records for each
    new id the old id, the account and the neighbor count, which meets the
    threshold; [removed_count] is the number of rows left out and
    [new_id] ends as the number of rows kept. *)
Theorem filter_renumbers_kept_rows (min_neighbors : Z)
    (rows : list ((Z * Query) * (Z * option (list Z)))) :
  let result := filter_rows extract_account_id min_neighbors rows in
  let kept := kept_rows min_neighbors rows in
  result.1.1.1.1 = imap (λ k row, (Z.of_nat k + 1, row.1.2)) kept
  ∧ result.1.1.1.2 = imap (λ k row, (Z.of_nat k + 1, row.2.2)) kept
  ∧ result.1.1.2
    = imap (λ k row, mkMapping (Z.of_nat k + 1) row.1.1 (extract_account_id row.1.2)
                       (neighbor_count_of row.2.2)) kept
  ∧ result.1.2 = Z.of_nat (length rows) - Z.of_nat (length kept)
  ∧ result.2 = Z.of_nat (length kept)
  ∧ result.1.1.1.1.*1 = seqZ 1 (Z.of_nat (length kept))
  ∧ result.1.1.1.2.*1 = seqZ 1 (Z.of_nat (length kept))
  ∧ Forall (λ m, neighbor_count m >= min_neighbors) result.1.1.2.
Proof.
  intros result kept. unfold result, filter_rows. rewrite filter_rows_from.
  fold kept. cbn [fst snd]. rewrite !app_nil_l, !Z.add_0_l.
  split; [done|]. split; [done|]. split; [done|]. split; [done|]. split; [done|].
  split; [apply imap_fst_seq|]. split; [apply imap_fst_seq|].
  apply Forall_lookup. intros k m. rewrite list_lookup_imap.
  destruct (kept !! k) as [row|] eqn:Hrow; [|done]. intros [= <-]. cbn.
  apply list_elem_of_lookup_2 in Hrow. unfold kept, kept_rows in Hrow.
  by apply list_elem_of_filter in Hrow as [? _].
Qed.

(** X21.  A missing input file: [main] prints the error of the first
    file it misses (the queries file before the neighbors file), returns
    1, and neither creates the output directory nor writes a file. *)
Theorem missing_input_file_exits (min_neighbors : Z) (w : world) :
  queries_file w = None ∨ neighbors_file w = None →
  ∃ w' m,
    main extract_account_id min_neighbors w = (Returns 1, w')
    ∧ exit_status extract_account_id min_neighbors w = (1, w')
    ∧ stdout w' = stdout w ++ [m]
    ∧ m = (if queries_file w is None then ErrorQueriesNotFound else ErrorNeighborsNotFound)
    ∧ outputs_untouched w w'.
Proof.
  intros Hmissing. unfold exit_status, main. do 2 run_step.
  destruct (queries_file w) as [q|] eqn:Hq.
  - destruct Hmissing as [|Hn]; [done|]. rewrite Hn.
    eexists _, ErrorNeighborsNotFound. split; [reflexivity|]. split; [reflexivity|].
    split; [reflexivity|]. split; [reflexivity|]. unfold outputs_untouched. by cbn.
  - eexists _, ErrorQueriesNotFound. split; [reflexivity|]. split; [reflexivity|].
    split; [reflexivity|]. split; [reflexivity|]. unfold outputs_untouched. by cbn.
Qed.

(** X22.  Input files that hold no rows: the row counts agree, nothing
    is kept, and the percentage of kept rows divides by zero.  The
    exception escapes [main] (exit status 1) after the line that announces
    the filtering, before the output directory is created or a file
    written. *)
Theorem empty_input_divides_by_zero (min_neighbors : Z) (w : world) :
  queries_file w = Some [] → neighbors_file w = Some [] →
  ∃ w',
    main extract_account_id min_neighbors w = (Raises ZeroDivisionError, w')
    ∧ exit_status extract_account_id min_neighbors w = (1, w')
    ∧ stdout w' = stdout w ++ [Banner min_neighbors; ReadingInputFiles; RowCounts 0 0;
                               Filtering min_neighbors]
    ∧ outputs_untouched w w'.
Proof.
  intros Hq Hn. unfold exit_status, main. do 2 run_step. rewrite Hq, Hn.
  do 3 run_step. cbn [length zip zip_with]. rewrite decide_False by (intros Hne; by apply Hne).
  run_step.
  eexists. split; [reflexivity|]. split; [reflexivity|].
  split; [cbn; by rewrite <- !app_assoc|]. unfold outputs_untouched. by cbn.
Qed.
End filter_more.

Section filter_witnesses.
Import FilterIncompleteQueries FilterExample FilterEdgeExample.

Lemma missing_input_file_exits_witness :
  (queries_file no_queries_file = None ∨ neighbors_file no_queries_file = None)
  ∧ ∃ w', exit_status account_of 1 no_queries_file = (1, w')
          ∧ stdout w' = [ErrorQueriesNotFound] ∧ outputs_untouched no_queries_file w'.
Proof.
  assert (queries_file no_queries_file = None ∨ neighbors_file no_queries_file = None)
    as Hmissing by (left; reflexivity).
  split; [exact Hmissing|].
  destruct (missing_input_file_exits account_of 1 no_queries_file Hmissing)
    as (w' & m & _ & E & Hout & -> & Hsame).
  exists w'. split; [exact E|]. split; [exact Hout|exact Hsame].
Defined.

Lemma empty_input_divides_by_zero_witness :
  queries_file no_rows = Some [] ∧ neighbors_file no_rows = Some []
  ∧ ∃ w', main account_of 1 no_rows = (Raises ZeroDivisionError, w')
          ∧ outputs_untouched no_rows w'.
Proof.
  split; [reflexivity|]. split; [reflexivity|].
  destruct (empty_input_divides_by_zero account_of 1 no_rows eq_refl eq_refl)
    as (w' & E & _ & _ & Hsame).
  exists w'. split; [exact E|exact Hsame].
Defined.
End filter_witnesses.

(** ** filter_incomplete_queries.py: the account of a query *)

Section query_facts.
Import QueryStruct.
#[local] Open Scope string_scope.
Context {Scalar : Type}.
Implicit Types (obj v : pyval Scalar).

Lemma pyval_induction (P : pyval Scalar → Prop) :
  P PNone → (∀ x, P (PScalar x)) → (∀ s, P (PStr s)) →
  (∀ items, Forall P items → P (PList items)) →
  (∀ items, Forall (λ kv, P kv.2) items → P (PDict items)) →
  ∀ obj, P obj.
Proof.
  intros Hnone Hscalar Hstr Hlist Hdict.
  fix IH 1. intros [| x | s | items | items].
  - exact Hnone.
  - apply Hscalar.
  - apply Hstr.
  - apply Hlist. induction items as [|item items IHitems]; constructor; [apply IH|exact IHitems].
  - apply Hdict. induction items as [|[k v] items IHitems]; constructor; [apply IH|exact IHitems].
Qed.

Lemma remove_nulls_list (items : list (pyval Scalar)) :
  remove_nulls (PList items)
  = PList (omap (λ item, if is_none item then None else Some (remove_nulls item)) items).
Proof.
  cbn [remove_nulls]. f_equal.
  induction items as [|item items IH]; [done|]. cbn [omap list_omap].
  destruct (is_none item); [exact IH|]. by rewrite IH.
Qed.

Lemma remove_nulls_dict (items : list (string * pyval Scalar)) :
  remove_nulls (PDict items)
  = PDict (omap (λ kv, if is_none kv.2 then None else Some (kv.1, remove_nulls kv.2)) items).
Proof.
  cbn [remove_nulls]. f_equal.
  induction items as [|[k v] items IH]; [done|]. cbn [omap list_omap fst snd].
  destruct (is_none v); [exact IH|]. by rewrite IH.
Qed.

Lemma null_free_list (items : list (pyval Scalar)) :
  null_free (PList items) = forallb (λ item, negb (is_none item) && null_free item) items.
Proof.
  cbn [null_free]. induction items as [|item items IH]; [done|].
  cbn [forallb]. by rewrite IH.
Qed.

Lemma null_free_dict (items : list (string * pyval Scalar)) :
  null_free (PDict items) = forallb (λ kv, negb (is_none kv.2) && null_free kv.2) items.
Proof.
  cbn [null_free]. induction items as [|[k v] items IH]; [done|].
  cbn [forallb fst snd]. by rewrite IH.
Qed.

Lemma remove_nulls_is_none obj : is_none (remove_nulls obj) = is_none obj.
Proof. by destruct obj. Qed.

Lemma remove_nulls_null_free obj : null_free (remove_nulls obj) = true.
Proof.
  induction obj as [| | |items IH|items IH] using pyval_induction; try done.
  - rewrite remove_nulls_list, null_free_list.
    induction IH as [|item items Hitem _ IHitems]; [done|]. cbn [omap list_omap].
    destruct (is_none item) eqn:Hn; [exact IHitems|].
    cbn [forallb]. by rewrite remove_nulls_is_none, Hn, Hitem, IHitems.
  - rewrite remove_nulls_dict, null_free_dict.
    induction IH as [|[k v] items Hitem _ IHitems]; [done|]. cbn [omap list_omap fst snd] in *.
    destruct (is_none v) eqn:Hn; [exact IHitems|].
    cbn [forallb fst snd]. by rewrite remove_nulls_is_none, Hn, Hitem, IHitems.
Qed.

Lemma remove_nulls_fixed obj : null_free obj = true → remove_nulls obj = obj.
Proof.
  induction obj as [| | |items IH|items IH] using pyval_induction; try done.
  - rewrite remove_nulls_list, null_free_list. intros Hfree. f_equal.
    induction IH as [|item items Hitem _ IHitems]; [done|].
    cbn [forallb] in Hfree. apply andb_true_iff in Hfree as [Hhead Hfree].
    apply andb_true_iff in Hhead as [Hn Hhead]. apply negb_true_iff in Hn.
    cbn [omap list_omap]. by rewrite Hn, Hitem, IHitems.
  - rewrite remove_nulls_dict, null_free_dict. intros Hfree. f_equal.
    induction IH as [|[k v] items Hitem _ IHitems]; [done|].
    cbn [forallb fst snd] in *. apply andb_true_iff in Hfree as [Hhead Hfree].
    apply andb_true_iff in Hhead as [Hn Hhead]. apply negb_true_iff in Hn.
    cbn [omap list_omap fst snd]. by rewrite Hn, Hitem, IHitems.
Qed.

(** X23.  [remove_nulls]: its result has no [None] among the values of a
    dictionary or the items of a list, at any depth; applying it twice is
    applying it once; a value without such a [None] is returned as it is;
    [None] itself stays [None]; on a list and on a dictionary it drops the
    members that are [None] and cleans the others, in their order. *)
Theorem remove_nulls_cleans :
  (∀ obj, null_free (remove_nulls obj) = true)
  ∧ (∀ obj, remove_nulls (remove_nulls obj) = remove_nulls obj)
  ∧ (∀ obj, null_free obj = true → remove_nulls obj = obj)
  ∧ remove_nulls (@PNone Scalar) = PNone
  ∧ (∀ items, remove_nulls (PList items)
              = PList (remove_nulls <$> filter (λ item : pyval Scalar, is_none item = false) items))
  ∧ (∀ items, remove_nulls (PDict items)
              = PDict (prod_map id remove_nulls
                         <$> filter (λ kv : string * pyval Scalar, is_none kv.2 = false)
                               items)).
Proof.
  split; [apply remove_nulls_null_free|].
  split; [intros obj; apply remove_nulls_fixed, remove_nulls_null_free|].
  split; [apply remove_nulls_fixed|]. split; [done|]. split.
  - intros items. rewrite remove_nulls_list. f_equal.
    induction items as [|item items IH]; [done|]. cbn [omap list_omap]. rewrite filter_cons.
    destruct (is_none item) eqn:Hn;
      [rewrite decide_False by done|rewrite decide_True by done];
      by rewrite ?fmap_cons, IH.
  - intros items. rewrite remove_nulls_dict. f_equal.
    induction items as [|[k v] items IH]; [done|]. cbn [omap list_omap]. rewrite filter_cons.
    cbn [fst snd]. destruct (is_none v) eqn:Hn;
      [rewrite decide_False by done|rewrite decide_True by done];
      by rewrite ?fmap_cons, IH.
Qed.

Section extract_facts.
Context (truthy : Scalar → bool) (py_str : pyval Scalar → string).

Lemma find_account_id_skip (before filters : list (pyval Scalar)) :
  Forall other_filter before →
  find_account_id truthy py_str (before ++ filters) = find_account_id truthy py_str filters.
Proof.
  induction 1 as [|f before (d & -> & Hd) _ IH]; [done|].
  cbn [app find_account_id truth]. destruct (bool_decide (d = [])); cbn [negb]; [exact IH|].
  destruct Hd as [Hd|(term & Hd & Hid)]; cbn; rewrite Hd.
  - rewrite bool_decide_eq_false_2 by (by intros [? ?]). exact IH.
  - rewrite bool_decide_eq_true_2 by done. cbn. rewrite Hid.
    rewrite bool_decide_eq_false_2 by (by intros [? ?]). exact IH.
Qed.

Lemma at_path_cons (key : string) (keys : list string) obj v :
  at_path (key :: keys) obj = Some v →
  ∃ items inner, obj = PDict items ∧ lookup_key key items = Some inner
                 ∧ at_path keys inner = Some v.
Proof.
  cbn [at_path]. destruct obj as [| | | |items]; try done. cbn.
  destruct (lookup_key key items) as [inner|] eqn:E; [|done]. cbn. intros Hv.
  by exists items, inner.
Qed.

Lemma contains_key (key : string) (items : list (string * pyval Scalar)) v :
  lookup_key key items = Some v → contains key (PDict items) = Some true.
Proof. intros H. cbn. rewrite H. by rewrite bool_decide_eq_true_2. Qed.

(** X24.  [extract_account_id] of filter_incomplete_queries.py.  When the
    cleaned query has under [query.knn] a dictionary whose first field
    holds a list under [filter.bool.filter], the answer is [str] of the
    [account_id] of the first term filter that has one, the filters before
    it being dictionaries without a ["term"] or with a ["term"] without
    ["account_id"].  A first field without a ["filter"] answers
    ["unknown"], and so does a query without [query.knn].  Removing the
    nulls beforehand does not change the answer. *)
Theorem account_id_of_query :
  (∀ query_dict field knn_field others before f after v,
     at_path ["query"; "knn"] (remove_nulls query_dict)
       = Some (PDict ((field, knn_field) :: others)) →
     at_path ["filter"; "bool"; "filter"] knn_field = Some (PList (before ++ f :: after)) →
     Forall other_filter before →
     at_path ["term"; "account_id"] f = Some v →
     extract_account_id truthy py_str query_dict = py_str v)
  ∧ (∀ query_dict field items others,
       at_path ["query"; "knn"] (remove_nulls query_dict)
         = Some (PDict ((field, PDict items) :: others)) →
       lookup_key "filter" items = None →
       extract_account_id truthy py_str query_dict = "unknown")
  ∧ (∀ query_dict,
       at_path ["query"; "knn"] (remove_nulls query_dict) = None →
       extract_account_id truthy py_str query_dict = "unknown")
  ∧ (∀ query_dict,
       extract_account_id truthy py_str (remove_nulls query_dict)
       = extract_account_id truthy py_str query_dict).
Proof.
  split; [|split; [|split]].
  - intros q field knn_field others before f after v Hknn Hfilters Hbefore Hterm.
    unfold extract_account_id. cbv zeta.
    apply at_path_cons in Hknn as (top & qv & -> & Hq & Hknn).
    apply at_path_cons in Hknn as (qd & kv & -> & Hk & [= ->]).
    apply at_path_cons in Hfilters as (fd & cv & -> & Hf & Hfilters).
    apply at_path_cons in Hfilters as (cd & bv & -> & Hb & Hfilters).
    apply at_path_cons in Hfilters as (bd & fl & -> & Hfl & [= ->]).
    apply at_path_cons in Hterm as (t & tv & -> & Ht & Hterm).
    apply at_path_cons in Hterm as (td & v' & -> & Hv & [= ->]).
    cbn [getitem]. rewrite Hq. cbn [mbind option_bind getitem]. rewrite Hk.
    cbn [mbind option_bind first_key getitem lookup_key]. rewrite decide_True by done.
    cbn [mbind option_bind get]. rewrite Hf.
    cbn [default from_option id mbind option_bind].
    rewrite (contains_key _ _ _ Hb). cbn [mbind option_bind getitem]. rewrite Hb.
    cbn [mbind option_bind]. rewrite (contains_key _ _ _ Hfl).
    cbn [mbind option_bind getitem]. rewrite Hfl. cbn [mbind option_bind iterate].
    rewrite find_account_id_skip by done.
    cbn [find_account_id truth].
    rewrite bool_decide_eq_false_2 by (by intros ->). cbn [negb].
    rewrite (contains_key _ _ _ Ht). cbn [mbind option_bind get]. rewrite Ht.
    cbn [default from_option id]. rewrite (contains_key _ _ _ Hv).
    cbn [mbind option_bind getitem]. rewrite Ht. cbn [mbind option_bind getitem].
    rewrite Hv. done.
  - intros q field items others Hknn Hnone.
    unfold extract_account_id. cbv zeta.
    apply at_path_cons in Hknn as (top & qv & -> & Hq & Hknn).
    apply at_path_cons in Hknn as (qd & kv & -> & Hk & [= ->]).
    cbn [getitem]. rewrite Hq. cbn [mbind option_bind getitem]. rewrite Hk.
    cbn [mbind option_bind first_key getitem lookup_key]. rewrite decide_True by done.
    cbn [mbind option_bind get]. rewrite Hnone. done.
  - intros q Hnone. unfold extract_account_id. cbv zeta.
    cbn [at_path] in Hnone.
    destruct (getitem (remove_nulls q) "query") as [qv|]; [|done].
    cbn [mbind option_bind] in Hnone |- *.
    destruct (getitem qv "knn") as [kv|]; [|done]. done.
  - intros q. unfold extract_account_id.
    by rewrite remove_nulls_fixed by apply remove_nulls_null_free.
Qed.
End extract_facts.
End query_facts.

Section query_witnesses.
Import QueryStruct QueryExample.
#[local] Open Scope string_scope.

Lemma account_id_of_query_witness :
  Forall other_filter [term "tenant" (PStr "acme")]
  ∧ extract_account_id truthy str knn_query = "316022".
Proof.
  assert (Forall other_filter [term "tenant" (PStr "acme" : pyval Z)]) as Hbefore.
  { repeat constructor. eexists. split; [reflexivity|]. right.
    eexists. split; reflexivity. }
  split; [exact Hbefore|].
  change "316022" with (str (PScalar 316022)).
  eapply (proj1 (account_id_of_query truthy str) knn_query "embedding" _ []
            [term "tenant" (PStr "acme")] (term "account_id" (PScalar 316022)) []);
    [reflexivity|reflexivity|exact Hbefore|reflexivity].
Defined.
End query_witnesses.
